(** * Hexapod motion-control core: shallow embedding and verified properties

    The development follows the two controllers of the repository:

    - [hex/src/hexapod.py], [hex/src/gait.py]: PWM servos (PCA9685);
    - [big_hex/src/lx16a.py], [big_hex/src/hexapod.py],
      [big_hex/src/gait.py]: LX-16A serial bus servos.

    Python [int] is modelled by [Z], Python [float] by the real numbers [R]
    (rounding, overflow and NaN are not modelled), [bytes] by [list Z] whose
    elements are checked to lie in [range(256)] wherever the source calls
    the [bytes(...)] constructor, [dict] by stdpp's [gmap], or by an
    association list in insertion order where the source iterates over it,
    and raised exceptions by an explicit result type.  Of [time.sleep] only
    the check of its argument is modelled, not the time that passes. *)

From Stdlib Require Import ZArith List Reals Lra Lia.
From stdpp Require Import gmap strings list fin_maps.
Import ListNotations.

Set Warnings "-clear-no-such-hyp".

Local Open Scope Z_scope.

(** ** Python primitives *)

Module Py.

(** The exceptions the modelled code can raise. *)
Inductive exn : Type :=
| ValueError
| ZeroDivisionError
| KeyError
| IndexError.

(** Outcome of a pure, fallible computation. *)
Inductive result (A : Type) : Type :=
| Ok (a : A)
| Raise (e : exn).
Arguments Ok {A} a.
Arguments Raise {A} e.

Definition bind {A B} (c : result A) (k : A -> result B) : result B :=
  match c with
  | Ok a => k a
  | Raise e => Raise e
  end.

(** Outcome of a method that mutates an object of type [S]: the state
    reached is kept in both cases, since mutations made before an
    exception is raised persist. *)
Inductive outcome (S A : Type) : Type :=
| Done (a : A) (s : S)
| Raised (e : exn) (s : S).
Arguments Done {S A} a s.
Arguments Raised {S A} e s.

Definition M (S A : Type) : Type := S -> outcome S A.

Definition ret {S A} (a : A) : M S A := fun s => Done a s.

Definition mbind {S A B} (c : M S A) (k : A -> M S B) : M S B :=
  fun s => match c s with
           | Done a s' => k a s'
           | Raised e s' => Raised e s'
           end.

(** A pure fallible computation run inside a method. *)
Definition lift {S A} (c : result A) : M S A :=
  fun s => match c with
           | Ok a => Done a s
           | Raise e => Raised e s
           end.

Definition final_state {S A} (o : outcome S A) : S :=
  match o with
  | Done _ s => s
  | Raised _ s => s
  end.

(** [for x in l: body(x)] *)
Fixpoint for_each {S A} (l : list A) (body : A -> M S unit) : M S unit :=
  match l with
  | [] => ret tt
  | x :: rest => mbind (body x) (fun _ => for_each rest body)
  end.

(** [d[k]] on a dict: [KeyError] when the key is absent. *)
Definition getitem {K V D} `{Lookup K V D} (d : D) (k : K) : result V :=
  match d !! k with
  | Some v => Ok v
  | None => Raise KeyError
  end.

(** [d[k1][k2]] on a dict of dicts. *)
Definition getitem2 `{Countable K1} `{Countable K2} {V}
    (d : gmap K1 (gmap K2 V)) (k1 : K1) (k2 : K2) : result V :=
  match getitem d k1 with
  | Ok row => getitem row k2
  | Raise e => Raise e
  end.

(** [d.get(k, default)] *)
Definition get `{Countable K} {V} (d : gmap K V) (k : K) (default : V) : V :=
  match d !! k with
  | Some v => v
  | None => default
  end.

(** [range(256)] membership, as checked by [bytes(...)]. *)
Definition is_byte (b : Z) : bool := (0 <=? b) && (b <? 256).

(** [bytes([b0, b1, ...])]: [ValueError] unless every item is in
    [range(256)]. *)
Definition bytes (l : list Z) : result (list Z) :=
  if forallb is_byte l then Ok l else Raise ValueError.

(** [l[i]] for a non-negative index. *)
Definition index (l : list Z) (i : nat) : result Z :=
  match l !! i with
  | Some b => Ok b
  | None => Raise IndexError
  end.

(** [l[a:b]] for non-negative [a] and [b]. *)
Definition slice {A} (l : list A) (a b : Z) : list A :=
  firstn (Z.to_nat (b - a)) (skipn (Z.to_nat a) l).

(** [sum(l)] *)
Definition sum (l : list Z) : Z := fold_right Z.add 0 l.

(** [time.sleep(seconds)]: [ValueError] for a negative duration; nothing
    else of it is observed. *)
Definition sleep {S} (seconds : R) : M S unit :=
  fun s => if Rlt_dec seconds 0 then Raised ValueError s else Done tt s.

End Py.

Import Py.

Declare Scope py_scope.
Delimit Scope py_scope with py.
Notation "x <- c ;; k" := (bind c (fun x => k))
  (at level 63, c at next level, right associativity) : py_scope.
Notation "x <~ c ;; k" := (mbind c (fun x => k))
  (at level 63, c at next level, right associativity) : py_scope.
Notation "c ;;; k" := (mbind c (fun _ => k))
  (at level 63, right associativity) : py_scope.
Local Open Scope py_scope.

(** ** Protocol codec and bus driver: [big_hex/src/lx16a.py] *)

Module LX16A.

Definition CMD_MOVE_TIME_WRITE : Z := 1.
Definition CMD_MOVE_TIME_WAIT_WRITE : Z := 7.
Definition CMD_MOVE_START : Z := 11.
Definition CMD_POS_READ : Z := 28.
Definition FRAME_HEADER : Z := 0x55.
Definition BROADCAST_ID : Z := 254.

(** [LX16A._checksum] *)
Definition _checksum (data : list Z) : result Z :=
  length <- index data 3%nat ;;
  let total := sum (slice data 2 (length + 2)) in
  Ok (Z.land (Z.lnot total) 0xFF).

(** [LX16A._build_packet] *)
Definition _build_packet (servo_id cmd : Z) (params : list Z)
  : result (list Z) :=
  let length := Z.of_nat (List.length params) + 3 in
  head <- bytes [FRAME_HEADER; FRAME_HEADER; servo_id; length; cmd] ;;
  let packet := head ++ params in
  checksum <- _checksum (packet ++ [0]) ;;
  tail <- bytes [checksum] ;;
  Ok (packet ++ tail).

(** The driver object: the frames written to the serial port so far (in
    simulation mode, the frames printed). *)
Record bus : Type := { tx : list (list Z) }.

(** [LX16A._send] *)
Definition _send (packet : list Z) : M bus unit :=
  fun s => Done tt {| tx := tx s ++ [packet] |}.

(** The four parameter bytes shared by [move] and [move_prepare]. *)
Definition move_params (position time_ms : Z) : result (list Z) :=
  let position := Z.max 0 (Z.min 1000 position) in
  let time_ms := Z.max 0 (Z.min 30000 time_ms) in
  bytes [Z.land position 0xFF;
         Z.land (Z.shiftr position 8) 0xFF;
         Z.land time_ms 0xFF;
         Z.land (Z.shiftr time_ms 8) 0xFF].

(** [LX16A.move] *)
Definition move (servo_id position time_ms : Z) : M bus unit :=
  packet <~ lift (params <- move_params position time_ms ;;
                  _build_packet servo_id CMD_MOVE_TIME_WRITE params) ;;
  _send packet.

(** [LX16A.move_prepare] *)
Definition move_prepare (servo_id position time_ms : Z) : M bus unit :=
  packet <~ lift (params <- move_params position time_ms ;;
                  _build_packet servo_id CMD_MOVE_TIME_WAIT_WRITE params) ;;
  _send packet.

(** [LX16A.move_start] *)
Definition move_start (servo_id : Z) : M bus unit :=
  packet <~ lift (_build_packet servo_id CMD_MOVE_START []) ;;
  _send packet.

(** Why [_receive] returned [None]; only [ChecksumMismatch] is reported
    (printed) by the source. *)
Inductive rx_failure : Type :=
| NoHeader
| ShortHeader
| ShortData
| ChecksumMismatch (received calculated : Z).

Inductive rx_result : Type :=
| RxPacket (packet : list Z)
| RxNone (why : rx_failure)
| RxRaise (e : exn).

(** The header loop of [_receive] over the bytes that arrive before the
    timeout: returns the bytes left after two consecutive header bytes. *)
Fixpoint scan_header (header_count : Z) (stream : list Z)
  : option (list Z) :=
  match stream with
  | [] => None
  | byte :: rest =>
      if byte =? FRAME_HEADER then
        let header_count := header_count + 1 in
        if header_count =? 2 then Some rest else scan_header header_count rest
      else scan_header 0 rest
  end.

(** [serial.read(n)]: at most [n] bytes, fewer when the timeout expires. *)
Definition read {A} (n : Z) (stream : list A) : list A * list A :=
  (firstn (Z.to_nat n) stream, skipn (Z.to_nat n) stream).

(** The checksum validation at the end of [_receive]. *)
Definition validate (packet : list Z) : rx_result :=
  let received_checksum := List.last packet 0 in
  match _checksum (removelast packet ++ [0]) with
  | Raise e => RxRaise e
  | Ok calculated_checksum =>
      if negb (received_checksum =? calculated_checksum)
      then RxNone (ChecksumMismatch received_checksum calculated_checksum)
      else RxPacket packet
  end.

(** [LX16A._receive] on the hardware path; [stream] holds the bytes that
    arrive before the read timeout expires.  The argument
    [expected_length] of the source is not used by it. *)
Definition _receive (stream : list Z) : rx_result :=
  match scan_header 0 stream with
  | None => RxNone NoHeader
  | Some stream =>
      let '(header, stream) := read 2 stream in
      match header with
      | [servo_id; length] =>
          let remaining := length in
          let '(data, _) := read remaining stream in
          if Z.of_nat (List.length data) <? remaining then RxNone ShortData
          else
            validate ([FRAME_HEADER; FRAME_HEADER; servo_id; length] ++ data)
      | _ => RxNone ShortHeader
      end
  end.

(** *** The other commands of the driver *)

Definition CMD_ID_WRITE : Z := 13.
Definition CMD_ANGLE_OFFSET_ADJUST : Z := 17.
Definition CMD_ANGLE_LIMIT_WRITE : Z := 20.
Definition CMD_MOTOR_MODE_WRITE : Z := 29.
Definition CMD_LOAD_OR_UNLOAD_WRITE : Z := 31.

(** [packet = self._build_packet(servo_id, cmd, params); self._send(packet)],
    the tail of every command; [params] is the [bytes([...])] expression
    evaluated before it. *)
Definition send_command (servo_id cmd : Z) (params : result (list Z))
  : M bus unit :=
  packet <~ lift (ps <- params ;; _build_packet servo_id cmd ps) ;;
  _send packet.

(** [LX16A.set_id] *)
Definition set_id (old_id new_id : Z) : M bus unit :=
  let new_id := Z.max 1 (Z.min 253 new_id) in
  send_command old_id CMD_ID_WRITE (bytes [new_id]).

(** [LX16A.load] *)
Definition load (servo_id : Z) : M bus unit :=
  send_command servo_id CMD_LOAD_OR_UNLOAD_WRITE (bytes [1]).

(** [LX16A.unload] *)
Definition unload (servo_id : Z) : M bus unit :=
  send_command servo_id CMD_LOAD_OR_UNLOAD_WRITE (bytes [0]).

(** [LX16A.set_angle_limits] *)
Definition set_angle_limits (servo_id min_pos max_pos : Z) : M bus unit :=
  let min_pos := Z.max 0 (Z.min 1000 min_pos) in
  let max_pos := Z.max 0 (Z.min 1000 max_pos) in
  send_command servo_id CMD_ANGLE_LIMIT_WRITE
    (bytes [Z.land min_pos 0xFF;
            Z.land (Z.shiftr min_pos 8) 0xFF;
            Z.land max_pos 0xFF;
            Z.land (Z.shiftr max_pos 8) 0xFF]).

(** The value [set_angle_offset] passes to [bytes]. *)
Definition offset_byte (offset : Z) : Z :=
  let offset := Z.max (-125) (Z.min 125 offset) in
  if offset <? 0 then 256 + offset else offset.

(** [LX16A.set_angle_offset] *)
Definition set_angle_offset (servo_id offset : Z) : M bus unit :=
  send_command servo_id CMD_ANGLE_OFFSET_ADJUST (bytes [offset_byte offset]).

(** The values [set_motor_mode] passes to [bytes]. *)
Definition motor_mode_params (speed : Z) : list Z :=
  let speed := Z.max (-1000) (Z.min 1000 speed) in
  let speed_unsigned := if speed <? 0 then 65536 + speed else speed in
  [1; 0; Z.land speed_unsigned 0xFF; Z.land (Z.shiftr speed_unsigned 8) 0xFF].

(** [LX16A.set_motor_mode] *)
Definition set_motor_mode (servo_id speed : Z) : M bus unit :=
  send_command servo_id CMD_MOTOR_MODE_WRITE (bytes (motor_mode_params speed)).

(** The decoding of the two position bytes in [read_position]. *)
Definition decode_position (pos_low pos_high : Z) : Z :=
  let position := Z.lor pos_low (Z.shiftl pos_high 8) in
  if position >? 32767 then position - 65536 else position.

(** [LX16A.read_position] on the hardware path; [stream] holds the bytes that
    arrive after the request was written. *)
Definition read_position (servo_id : Z) (stream : list Z)
  : M bus (option Z) :=
  send_command servo_id CMD_POS_READ (Ok []) ;;;
  match _receive stream with
  | RxRaise e => lift (Raise e)
  | RxNone _ => ret None
  | RxPacket response =>
      lift (pos_low <- index response 5 ;;
            pos_high <- index response 6 ;;
            Ok (Some (decode_position pos_low pos_high)))
  end.

(** [LX16A.scan]; [responses id] holds the bytes that arrive after the
    request to [id].  The shortened timeout only changes how long each read
    waits. *)
Fixpoint scan_ids (ids : list Z) (responses : Z -> list Z) (found : list Z)
  : M bus (list Z) :=
  match ids with
  | [] => ret found
  | servo_id :: rest =>
      pos <~ read_position servo_id (responses servo_id) ;;
      scan_ids rest responses
               (match pos with Some _ => found ++ [servo_id] | None => found end)
  end.

(** [range(start, stop)] *)
Definition range (start stop : Z) : list Z :=
  map (fun i => start + Z.of_nat i) (seq 0 (Z.to_nat (stop - start))).

Definition scan (start_id end_id : Z) (responses : Z -> list Z)
  : M bus (list Z) :=
  scan_ids (range start_id (end_id + 1)) responses [].

End LX16A.

(** ** Floating-point helpers and the shared stages of [leg_ik] *)

Module IK.

Local Open Scope R_scope.

(** [clamp] of both [hexapod.py] files, on floats. *)
Definition clamp (val min_val max_val : R) : R :=
  Rmax min_val (Rmin max_val val).

(** [clamp] applied to [int] arguments. *)
Definition clamp_int (val min_val max_val : Z) : Z :=
  Z.max min_val (Z.min max_val val).

(** [math.degrees], [math.radians] *)
Definition degrees (x : R) : R := x * (180 / PI).
Definition radians (x : R) : R := x * (PI / 180).

(** [math.atan2] *)
Definition atan2 (y x : R) : R :=
  if Rlt_dec 0 x then atan (y / x)
  else if Rlt_dec x 0 then
         if Rle_dec 0 y then atan (y / x) + PI else atan (y / x) - PI
  else if Rlt_dec 0 y then PI / 2
  else if Rlt_dec y 0 then - (PI / 2)
  else 0.

(** [math.acos]: [ValueError] outside [-1, 1]. *)
Definition py_acos (v : R) : result R :=
  if Rle_dec (-1) v then
    if Rle_dec v 1 then Ok (acos v) else Raise ValueError
  else Raise ValueError.

(** Float division [a / b]: [ZeroDivisionError] when [b] is zero. *)
Definition py_div (a b : R) : result R :=
  if Req_dec_T b 0 then Raise ZeroDivisionError else Ok (a / b).

(** [int(r)]: truncation towards zero. *)
Definition py_int (r : R) : Z :=
  if Rle_dec 0 r then Zfloor r else Zceil r.

(** [leg_ik], from "Handle edge case" to "Direct distance from femur pivot
    to foot" (the same text in both files).  [math.sqrt] raises only on a
    negative argument and both arguments are sums of squares, so it is
    taken as the total square root.  Returns
    [(coxa_angle, xy_dist, foot_dist)]. *)
Definition reach (x y z coxa_len : R) : R * R * R :=
  let x := if Req_dec_T x 0 then (if Req_dec_T y 0 then 1 / 10 else x)
           else x in
  let coxa_angle := degrees (atan2 y x) in
  let xy_dist := sqrt (x ^ 2 + y ^ 2) - coxa_len in
  let xy_dist := if Rlt_dec xy_dist 0 then 1 else xy_dist in
  let foot_dist := sqrt (xy_dist ^ 2 + z ^ 2) in
  (coxa_angle, xy_dist, foot_dist).

Definition foot_dist_of (x y z coxa_len : R) : R := snd (reach x y z coxa_len).
Definition xy_dist_of (x y z coxa_len : R) : R :=
  snd (fst (reach x y z coxa_len)).
Definition coxa_angle_of (x y z coxa_len : R) : R :=
  fst (fst (reach x y z coxa_len)).

Definition max_reach (femur_len tibia_len : R) : R := femur_len + tibia_len.
Definition min_reach (femur_len tibia_len : R) : R :=
  Rabs (femur_len - tibia_len).

(** The test [foot_dist > max_reach or foot_dist < min_reach]. *)
Definition out_of_reach (foot_dist femur_len tibia_len : R) : bool :=
  if Rlt_dec (max_reach femur_len tibia_len) foot_dist then true
  else if Rlt_dec foot_dist (min_reach femur_len tibia_len) then true
  else false.

(** [leg_ik], "Check reachability": the reach used from there on, and
    whether it was clamped. *)
Definition clamp_reach (foot_dist femur_len tibia_len : R) : R * bool :=
  if out_of_reach foot_dist femur_len tibia_len then
    (clamp foot_dist (min_reach femur_len tibia_len + 1)
           (max_reach femur_len tibia_len - 1), true)
  else (foot_dist, false).

(** [leg_ik], "Tibia angle" and "Femur angle": returns
    [(tibia_angle, femur_angle)]. *)
Definition joint_angles (xy_dist z foot_dist femur_len tibia_len : R)
  : result (R * R) :=
  cos_tibia <- py_div (femur_len ^ 2 + tibia_len ^ 2 - foot_dist ^ 2)
                      (2 * femur_len * tibia_len) ;;
  acos_tibia <- py_acos (clamp cos_tibia (-1) 1) ;;
  let tibia_angle := degrees acos_tibia in
  cos_femur <- py_div (femur_len ^ 2 + foot_dist ^ 2 - tibia_len ^ 2)
                      (2 * femur_len * foot_dist) ;;
  acos_femur <- py_acos (clamp cos_femur (-1) 1) ;;
  let femur_angle := degrees (atan2 (- z) xy_dist) + degrees acos_femur in
  Ok (tibia_angle, femur_angle).

End IK.

(** An insertion-ordered [dict] built by item assignment. *)
Module ODict.

Definition t (V : Type) : Type := list (string * V).

(** [d[k] = v]: an existing key keeps its place. *)
Fixpoint setitem {V} (d : t V) (k : string) (v : V) : t V :=
  match d with
  | [] => [(k, v)]
  | (k', v') :: rest =>
      if decide (k = k') then (k, v) :: rest
      else (k', v') :: setitem rest k v
  end.

(** [d.get(k)]: the value stored under [k], if any. *)
Fixpoint lookup {V} (k : string) (d : t V) : option V :=
  match d with
  | [] => None
  | (k', v') :: rest => if decide (k = k') then Some v' else lookup k rest
  end.

(** [d.keys()], in insertion order. *)
Definition keys {V} (d : t V) : list string := d.*1.

End ODict.

(** The notations [d !! k] and [<[k := v]> d] on an insertion-ordered
    [dict]. *)
#[global] Instance odict_lookup {V} : Lookup string V (ODict.t V) :=
  ODict.lookup.
#[global] Instance odict_insert {V} : Insert string V (ODict.t V) :=
  fun k v d => ODict.setitem d k v.

(** [v or default] for an optional float: [None] and zero are falsy. *)
Definition falsy_or (v : option R) (default : R) : R :=
  match v with
  | Some x => if Req_dec_T x 0 then default else x
  | None => default
  end.

Definition position : Type := (R * R * R)%type.

(** The targets the gaits compute from a position [x, y, z] read from
    [leg_positions]. *)
Definition raise_by (lift : R) : position -> position :=
  fun '(x, y, z) => (x, y, z + lift)%R.
Definition swing_by (ddx ddy : R) : position -> position :=
  fun '(x, y, z) => (x + ddx, y + ddy, z)%R.
Definition push_by (ddx ddy : R) : position -> position :=
  fun '(x, y, z) => (x - ddx, y - ddy, z)%R.
Definition lower_to (stand_height : R) : position -> position :=
  fun '(x, y, z) => (x, y, - stand_height)%R.
Definition shift_by (ddx ddy ddz : R) : position -> position :=
  fun '(x, y, z) => (x - ddx, y - ddy, z - ddz)%R.
Definition turn_to (cos_r sin_r stand_height : R) : position -> position :=
  fun '(x, y, z) =>
    (x * cos_r - y * sin_r, x * sin_r + y * cos_r, - stand_height)%R.
Definition turn_back (cos_r sin_r : R) : position -> position :=
  fun '(x, y, z) => (x * cos_r + y * sin_r, - x * sin_r + y * cos_r, z)%R.

(** ** PWM controller: [hex/src/hexapod.py] and [hex/src/gait.py] *)

Module Hex.

Definition COXA_LENGTH : R := 25.
Definition FEMUR_LENGTH : R := 55.
Definition TIBIA_LENGTH : R := 75.

Definition SERVO_MIN : Z := 500.
Definition SERVO_MAX : Z := 2500.
Definition SERVO_CENTER : Z := 1500.

(** [leg_ik]; the last component tells whether the warning was
    printed. *)
Definition leg_ik (x y z coxa_len femur_len tibia_len : R)
  : result (R * R * R * bool) :=
  let '(coxa_angle, xy_dist, foot_dist) := IK.reach x y z coxa_len in
  let '(foot_dist, clamped) :=
    IK.clamp_reach foot_dist femur_len tibia_len in
  angles <- IK.joint_angles xy_dist z foot_dist femur_len tibia_len ;;
  let '(tibia_angle, femur_angle) := angles in
  let coxa_servo := (90 + coxa_angle)%R in
  let femur_servo := femur_angle in
  let tibia_servo := (180 - tibia_angle)%R in
  let coxa_servo := IK.clamp coxa_servo 0 180 in
  let femur_servo := IK.clamp femur_servo 0 180 in
  let tibia_servo := IK.clamp tibia_servo 0 180 in
  Ok (coxa_servo, femur_servo, tibia_servo, clamped).

(** An entry of [Hexapod.servo_range]. *)
Record servo_range_entry : Type := {
  range_min : Z;
  range_max : Z;
  range_center : Z;
}.

(** The [Hexapod] object.  [pwm] records the [set_pwm(channel, pulse)]
    calls made on the drivers, as [(pca_idx, channel, pulse)].
    [leg_positions] keeps its items in insertion order: the gait controller
    iterates over its keys. *)
Record hexapod : Type := {
  simulate : bool;
  servo_map : gmap string (gmap string (Z * Z));
  servo_dir : gmap string (gmap string Z);
  servo_range : gmap string (gmap string servo_range_entry);
  leg_positions : ODict.t position;
  pwm : list (Z * Z * Z);
}.

Definition with_leg_positions (self : hexapod) (lp : ODict.t position)
  : hexapod :=
  {| simulate := simulate self; servo_map := servo_map self;
     servo_dir := servo_dir self; servo_range := servo_range self;
     leg_positions := lp; pwm := pwm self |}.

Definition with_pwm (self : hexapod) (log : list (Z * Z * Z)) : hexapod :=
  {| simulate := simulate self; servo_map := servo_map self;
     servo_dir := servo_dir self; servo_range := servo_range self;
     leg_positions := leg_positions self; pwm := log |}.

Definition joints {V} (coxa femur tibia : V) : gmap string V :=
  list_to_map [("coxa"%string, coxa); ("femur"%string, femur);
               ("tibia"%string, tibia)].

Definition DEFAULT_SERVO_MAP : gmap string (gmap string (Z * Z)) :=
  list_to_map
    [("L1"%string, joints (0, 0) (0, 1) (0, 2));
     ("L2"%string, joints (0, 3) (0, 4) (0, 5));
     ("L3"%string, joints (0, 6) (0, 7) (0, 8));
     ("R1"%string, joints (0, 9) (0, 10) (0, 11));
     ("R2"%string, joints (1, 0) (1, 1) (1, 2));
     ("R3"%string, joints (1, 3) (1, 4) (1, 5))].

Definition DEFAULT_SERVO_DIR : gmap string (gmap string Z) :=
  list_to_map
    [("L1"%string, joints 1 1 1); ("L2"%string, joints 1 1 1);
     ("L3"%string, joints 1 1 1); ("R1"%string, joints (-1) (-1) (-1));
     ("R2"%string, joints (-1) (-1) (-1));
     ("R3"%string, joints (-1) (-1) (-1))].

Definition default_range : servo_range_entry :=
  {| range_min := SERVO_MIN; range_max := SERVO_MAX;
     range_center := SERVO_CENTER |}.

Definition legs : list string := ["L1"; "L2"; "L3"; "R1"; "R2"; "R3"]%string.

(** The object built by [Hexapod(pca_drivers=None, simulate=True)] when
    there is no calibration file. *)
Definition default_hexapod : hexapod :=
  {| simulate := true;
     servo_map := DEFAULT_SERVO_MAP;
     servo_dir := DEFAULT_SERVO_DIR;
     servo_range :=
       list_to_map
         (map (fun leg => (leg, joints default_range default_range
                                       default_range)) legs);
     leg_positions := map (fun leg => (leg, (80, 0, -50)%R)) legs;
     pwm := [] |}.

(** The object built from a calibration file that differs from the defaults
    only in the centre recorded for the coxa servo of L1. *)
Definition recentred_hexapod (center : Z) : hexapod :=
  {| simulate := true;
     servo_map := DEFAULT_SERVO_MAP;
     servo_dir := DEFAULT_SERVO_DIR;
     servo_range :=
       <["L1"%string :=
           joints {| range_min := SERVO_MIN; range_max := SERVO_MAX;
                     range_center := center |}
                  default_range default_range]>
         (servo_range default_hexapod);
     leg_positions := leg_positions default_hexapod;
     pwm := [] |}.

(** [Hexapod.angle_to_pulse] *)
Definition angle_to_pulse (self : hexapod) (leg joint : string) (angle : R)
  : result Z :=
  let angle := IK.clamp angle 0 180 in
  sr <- getitem2 (servo_range self) leg joint ;;
  let pulse := (IZR (range_min sr)
                + (angle / 180) * (IZR (range_max sr) - IZR (range_min sr)))%R in
  Ok (IK.py_int pulse).

(** The lookups, the direction flip and the conversion at the head of
    [Hexapod.set_servo]: [(pca_idx, channel, pulse)]. *)
Definition servo_pulse (self : hexapod) (leg joint : string) (angle : R)
  : result (Z * Z * Z) :=
  pc <- getitem2 (servo_map self) leg joint ;;
  direction <- getitem2 (servo_dir self) leg joint ;;
  let angle := if direction <? 0 then (180 - angle)%R else angle in
  pulse <- angle_to_pulse self leg joint angle ;;
  Ok (fst pc, snd pc, pulse).

(** [Hexapod.set_servo]; [self.pca] is a list of two drivers. *)
Definition set_servo (leg joint : string) (angle : R) : M hexapod unit :=
  fun self =>
    match servo_pulse self leg joint angle with
    | Raise e => Raised e self
    | Ok (pca_idx, channel, pulse) =>
        if simulate self then Done tt self
        else if (-2 <=? pca_idx) && (pca_idx <? 2)
             then Done tt (with_pwm self (pwm self ++ [(pca_idx, channel, pulse)]))
             else Raised IndexError self
    end.

(** [self.leg_positions[leg] = p] *)
Definition store_position (leg : string) (p : position) : M hexapod unit :=
  fun self =>
    Done tt (with_leg_positions self (<[leg := p]> (leg_positions self))).

(** [self.hex.leg_positions[leg]] *)
Definition load_position (leg : string) : M hexapod position :=
  fun self => lift (getitem (leg_positions self) leg) self.

(** [Hexapod.move_leg] *)
Definition move_leg (leg : string) (x y z : R) : M hexapod unit :=
  angles <~ lift (leg_ik x y z COXA_LENGTH FEMUR_LENGTH TIBIA_LENGTH) ;;
  let '(coxa, femur, tibia, _) := angles in
  set_servo leg "coxa" coxa ;;;
  set_servo leg "femur" femur ;;;
  set_servo leg "tibia" tibia ;;;
  store_position leg (x, y, z).

(** The attributes of [GaitController] used by the tripod gait. *)
Definition tripod1 : list string := ["L1"; "R2"; "L3"]%string.
Definition tripod2 : list string := ["R1"; "L2"; "R3"]%string.

(** [for leg in legs: x, y, z = self.hex.leg_positions[leg];
    self.hex.move_leg(leg, ...)], the target being given as a function of
    the position read. *)
Definition move_each (legs : list string) (target : position -> position)
  : M hexapod unit :=
  for_each legs (fun leg =>
    p <~ load_position leg ;;
    let '(x, y, z) := target p in
    move_leg leg x y z).

(** [GaitController._tripod_step] *)
Definition _tripod_step (stand_height : R) (swing_legs stance_legs : list string)
                        (dx dy lift_height t : R) : M hexapod unit :=
  move_each swing_legs (raise_by lift_height) ;;;
  sleep (t / 3) ;;;
  move_each swing_legs (swing_by (dx / 2) (dy / 2)) ;;;
  move_each stance_legs (push_by (dx / 2) (dy / 2)) ;;;
  sleep (t / 3) ;;;
  move_each swing_legs (lower_to stand_height) ;;;
  sleep (t / 3).

(** One iteration of the loop of [GaitController.walk]. *)
Definition walk_cycle (stand_height dx dy step_height half_cycle : R)
  : M hexapod unit :=
  _tripod_step stand_height tripod1 tripod2 dx dy step_height half_cycle ;;;
  _tripod_step stand_height tripod2 tripod1 dx dy step_height half_cycle.

(** [GaitController.walk] *)
Definition walk (stand_height direction : R) (steps : nat)
                (step_length step_height cycle_time : R) : M hexapod unit :=
  let rad := IK.radians direction in
  let dx := (step_length * cos rad)%R in
  let dy := (step_length * sin rad)%R in
  let half_cycle := (cycle_time / 2)%R in
  for_each (seq 0 steps) (fun _ =>
    walk_cycle stand_height dx dy step_height half_cycle).

(** [for leg in self.hex.leg_positions.keys(): x, y, z =
    self.hex.leg_positions[leg]; self.hex.move_leg(leg, ...)].  The loop
    runs over the keys the dict has when it starts; [move_leg] assigns
    only to the key it is called with, so the keys stay as they are while
    the loop runs. *)
Definition move_every (target : position -> position) : M hexapod unit :=
  fun self => move_each (ODict.keys (leg_positions self)) target self.

(** [GaitController.stand]; [height or self.stand_height] takes the
    stored height when [height] is [None] or zero. *)
Definition stand (stand_height : R) (height : option R) : M hexapod unit :=
  let h := falsy_or height stand_height in
  move_every (lower_to h).

(** [GaitController._shift_all_legs] *)
Definition _shift_all_legs (dx dy t : R) : M hexapod unit :=
  move_every (swing_by dx dy) ;;;
  sleep t.

(** [GaitController._single_leg_step]: the position is read once. *)
Definition _single_leg_step (stand_height : R) (leg : string)
                            (dx dy lift_height t : R) : M hexapod unit :=
  p <~ load_position leg ;;
  let '(x, y, z) := p in
  move_leg leg x y (z + lift_height) ;;;
  sleep (t / 3) ;;;
  move_leg leg (x + dx) (y + dy) (z + lift_height) ;;;
  sleep (t / 3) ;;;
  move_leg leg (x + dx) (y + dy) (- stand_height) ;;;
  sleep (t / 3).

(** One iteration of the outer loop of [GaitController.wave_walk]. *)
Definition wave_cycle (stand_height dx dy step_height leg_time : R)
  : M hexapod unit :=
  for_each ["R3"; "R2"; "R1"; "L3"; "L2"; "L1"]%string (fun leg =>
    _single_leg_step stand_height leg dx dy step_height leg_time) ;;;
  _shift_all_legs (- dx) (- dy) leg_time.

(** [GaitController._rotate_tripod] *)
Definition _rotate_tripod (stand_height : R)
                          (swing_legs stance_legs : list string)
                          (rad lift_height t : R) : M hexapod unit :=
  move_each swing_legs (raise_by lift_height) ;;;
  sleep (t / 2) ;;;
  let cos_r := cos rad in
  let sin_r := sin rad in
  move_each swing_legs (turn_to cos_r sin_r stand_height) ;;;
  move_each stance_legs (turn_back cos_r sin_r) ;;;
  sleep (t / 2).

(** One iteration of the loop of [GaitController.rotate]. *)
Definition rotate_cycle (stand_height rad step_height half_cycle : R)
  : M hexapod unit :=
  _rotate_tripod stand_height tripod1 tripod2 rad step_height half_cycle ;;;
  _rotate_tripod stand_height tripod2 tripod1 rad step_height half_cycle.

(** [RippleGait._step_leg]: the position is read once. *)
Definition _step_leg (stand_height : R) (leg : string) (dx dy lift t : R)
  : M hexapod unit :=
  p <~ load_position leg ;;
  let '(x, y, z) := p in
  move_leg leg (x + dx) (y + dy) (z + lift) ;;;
  sleep t ;;;
  move_leg leg (x + dx) (y + dy) (- stand_height) ;;;
  sleep (t / 2).

(** The attribute [sequence] of [RippleGait]. *)
Definition ripple_sequence : list string :=
  ["R1"; "R2"; "R3"; "L3"; "L2"; "L1"]%string.

(** One iteration of the outer loop of [RippleGait.walk]. *)
Definition ripple_cycle (stand_height dx dy step_height phase_time : R)
  : M hexapod unit :=
  for_each ripple_sequence (fun leg =>
    _step_leg stand_height leg dx dy step_height phase_time ;;;
    for_each ripple_sequence (fun other =>
      if decide (other <> leg) then
        q <~ load_position other ;;
        let '(x, y, z) := q in
        move_leg other (x - dx / 6) (y - dy / 6) z
      else ret tt)).

End Hex.

(** ** Serial-bus controller: [big_hex/src/hexapod.py], [big_hex/src/gait.py] *)

Module BigHex.

Definition COXA_LENGTH : R := 50.
Definition FEMUR_LENGTH : R := 80.
Definition TIBIA_LENGTH : R := 120.

(** [leg_ik]: declared [Optional], it prints nothing. *)
Definition leg_ik (x y z coxa_len femur_len tibia_len : R)
  : result (option (R * R * R)) :=
  let '(coxa_angle, xy_dist, foot_dist) := IK.reach x y z coxa_len in
  let '(foot_dist, _) := IK.clamp_reach foot_dist femur_len tibia_len in
  angles <- IK.joint_angles xy_dist z foot_dist femur_len tibia_len ;;
  let '(tibia_angle, femur_angle) := angles in
  let coxa_servo := (120 + coxa_angle)%R in
  let femur_servo := (femur_angle + 30)%R in
  let tibia_servo := (240 - tibia_angle)%R in
  let coxa_servo := IK.clamp coxa_servo 0 240 in
  let femur_servo := IK.clamp femur_servo 0 240 in
  let tibia_servo := IK.clamp tibia_servo 0 240 in
  Ok (Some (coxa_servo, femur_servo, tibia_servo)).

(** The [Hexapod] object.  [calibration] is keyed by [str(servo_id)] in
    the source; the key is modelled by the id itself. *)
Record hexapod : Type := {
  bus : LX16A.bus;
  coxa_len : R;
  femur_len : R;
  tibia_len : R;
  servo_ids : gmap string (gmap string Z);
  servo_dir : gmap string (gmap string Z);
  calibration : gmap Z (gmap string Z);
  leg_positions : gmap string position;
}.

Definition with_bus (self : hexapod) (b : LX16A.bus) : hexapod :=
  {| bus := b; coxa_len := coxa_len self; femur_len := femur_len self;
     tibia_len := tibia_len self; servo_ids := servo_ids self;
     servo_dir := servo_dir self; calibration := calibration self;
     leg_positions := leg_positions self |}.

Definition with_leg_positions (self : hexapod) (lp : gmap string position)
  : hexapod :=
  {| bus := bus self; coxa_len := coxa_len self; femur_len := femur_len self;
     tibia_len := tibia_len self; servo_ids := servo_ids self;
     servo_dir := servo_dir self; calibration := calibration self;
     leg_positions := lp |}.

Definition joints {V} (coxa femur tibia : V) : gmap string V :=
  list_to_map [("coxa"%string, coxa); ("femur"%string, femur);
               ("tibia"%string, tibia)].

Definition DEFAULT_SERVO_IDS : gmap string (gmap string Z) :=
  list_to_map
    [("L1"%string, joints 1 2 3); ("L2"%string, joints 4 5 6);
     ("L3"%string, joints 7 8 9); ("R1"%string, joints 10 11 12);
     ("R2"%string, joints 13 14 15); ("R3"%string, joints 16 17 18)].

Definition DEFAULT_SERVO_DIR : gmap string (gmap string Z) :=
  list_to_map
    [("L1"%string, joints 1 1 1); ("L2"%string, joints 1 1 1);
     ("L3"%string, joints 1 1 1); ("R1"%string, joints (-1) (-1) (-1));
     ("R2"%string, joints (-1) (-1) (-1));
     ("R3"%string, joints (-1) (-1) (-1))].

(** The keys of [LEG_ANGLES], in order. *)
Definition legs : list string := ["L1"; "R1"; "L2"; "R2"; "L3"; "R3"]%string.

(** The object built by [Hexapod(simulation=True)] when there is no
    configuration file. *)
Definition default_hexapod : hexapod :=
  {| bus := {| LX16A.tx := [] |};
     coxa_len := COXA_LENGTH; femur_len := FEMUR_LENGTH;
     tibia_len := TIBIA_LENGTH;
     servo_ids := DEFAULT_SERVO_IDS;
     servo_dir := DEFAULT_SERVO_DIR;
     calibration := ∅;
     leg_positions :=
       list_to_map (map (fun leg => (leg, (100, 0, -80)%R)) legs) |}.

(** A method call on [self.bus]. *)
Definition on_bus {A} (c : M LX16A.bus A) : M hexapod A :=
  fun self =>
    match c (bus self) with
    | Done a b => Done a (with_bus self b)
    | Raised e b => Raised e (with_bus self b)
    end.

(** [Hexapod._angle_to_position] *)
Definition _angle_to_position (self : hexapod) (angle : R) (servo_id : Z)
                              (leg joint : string) : Z :=
  let direction := get (get (servo_dir self) leg ∅) joint 1 in
  let angle := if direction <? 0 then (240 - angle)%R else angle in
  let position := IK.py_int (angle * 1000 / 240)%R in
  let offset := get (get (calibration self) servo_id ∅) "offset"%string 0 in
  let position := position + offset in
  IK.clamp_int position 0 1000.

(** [self.servo_ids[leg][joint]] *)
Definition servo_id_of (self : hexapod) (leg joint : string) : result Z :=
  getitem2 (servo_ids self) leg joint.

(** [Hexapod.set_servo] *)
Definition set_servo (leg joint : string) (angle : R) (time_ms : Z)
  : M hexapod unit :=
  fun self =>
    (servo_id <~ lift (servo_id_of self leg joint) ;;
     let position := _angle_to_position self angle servo_id leg joint in
     on_bus (LX16A.move servo_id position time_ms)) self.

(** [Hexapod.set_leg_angles] *)
Definition set_leg_angles (leg : string) (coxa femur tibia : R) (time_ms : Z)
  : M hexapod unit :=
  set_servo leg "coxa" coxa time_ms ;;;
  set_servo leg "femur" femur time_ms ;;;
  set_servo leg "tibia" tibia time_ms.

(** [self.leg_positions[leg] = p] *)
Definition store_position (leg : string) (p : position) : M hexapod unit :=
  fun self =>
    Done tt (with_leg_positions self (<[leg := p]> (leg_positions self))).

(** [self.hex.leg_positions[leg]] *)
Definition load_position (leg : string) : M hexapod position :=
  fun self => lift (getitem (leg_positions self) leg) self.

(** [Hexapod.move_leg] *)
Definition move_leg (leg : string) (x y z : R) (time_ms : Z)
  : M hexapod unit :=
  fun self =>
    (angles <~ lift (leg_ik x y z (coxa_len self) (femur_len self)
                            (tibia_len self)) ;;
     match angles with
     | None => ret tt
     | Some (coxa, femur, tibia) =>
         set_leg_angles leg coxa femur tibia time_ms ;;;
         store_position leg (x, y, z)
     end) self.

(** The inner loop of [Hexapod.move_all_legs] for one joint. *)
Definition prepare_joint (leg joint : string) (angle : R) (time_ms : Z)
  : M hexapod unit :=
  fun self =>
    (servo_id <~ lift (servo_id_of self leg joint) ;;
     let position := _angle_to_position self angle servo_id leg joint in
     on_bus (LX16A.move_prepare servo_id position time_ms)) self.

(** The body of the loop of [Hexapod.move_all_legs] for one item. *)
Definition prepare_leg (time_ms : Z) (item : string * position)
  : M hexapod unit :=
  let '(leg, (x, y, z)) := item in
  fun self =>
    (angles <~ lift (leg_ik x y z (coxa_len self) (femur_len self)
                            (tibia_len self)) ;;
     match angles with
     | None => ret tt
     | Some (coxa, femur, tibia) =>
         for_each [("coxa"%string, coxa); ("femur"%string, femur);
                   ("tibia"%string, tibia)]
                  (fun ja => prepare_joint leg (fst ja) (snd ja) time_ms) ;;;
         store_position leg (x, y, z)
     end) self.

(** [Hexapod.move_all_legs] *)
Definition move_all_legs (positions : ODict.t position) (time_ms : Z)
  : M hexapod unit :=
  for_each positions (prepare_leg time_ms) ;;;
  on_bus (LX16A.move_start LX16A.BROADCAST_ID).

(** The attributes of [GaitController] used by the tripod gait. *)
Definition tripod1 : list string := ["L1"; "R2"; "L3"]%string.
Definition tripod2 : list string := ["R1"; "L2"; "R3"]%string.

(** [positions = {}] followed by [for leg in legs: positions[leg] = f(...)],
    reading [self.hex.leg_positions[leg]]. *)
Fixpoint fill (legs : list string) (f : position -> position)
              (positions : ODict.t position)
  : M hexapod (ODict.t position) :=
  match legs with
  | [] => ret positions
  | leg :: rest =>
      p <~ load_position leg ;;
      fill rest f (ODict.setitem positions leg (f p))
  end.

(** [GaitController._tripod_step] *)
Definition _tripod_step (stand_height : R)
                        (swing_legs stance_legs : list string)
                        (dx dy lift_height : R) (move_time : Z)
  : M hexapod unit :=
  positions <~ fill swing_legs (raise_by lift_height) [] ;;
  move_all_legs positions move_time ;;;
  sleep (IZR move_time / 1000) ;;;
  positions <~ fill swing_legs (swing_by dx dy) [] ;;
  positions <~ fill stance_legs (push_by (dx / 2) (dy / 2)) positions ;;
  move_all_legs positions move_time ;;;
  sleep (IZR move_time / 1000) ;;;
  positions <~ fill swing_legs (lower_to stand_height) [] ;;
  move_all_legs positions move_time ;;;
  sleep (IZR move_time / 1000).

(** One iteration of the loop of [GaitController.walk]. *)
Definition walk_cycle (stand_height dx dy sh : R) (move_time : Z)
  : M hexapod unit :=
  _tripod_step stand_height tripod1 tripod2 dx dy sh move_time ;;;
  _tripod_step stand_height tripod2 tripod1 dx dy sh move_time.

(** [Hexapod.move_leg_relative] *)
Definition move_leg_relative (leg : string) (dx dy dz : R) (time_ms : Z)
  : M hexapod unit :=
  p <~ load_position leg ;;
  let '(x, y, z) := p in
  move_leg leg (x + dx) (y + dy) (z + dz) time_ms.

(** [for leg in LEG_ANGLES: for joint in ['coxa', 'femur', 'tibia']:
    servo_id = self.servo_ids[leg][joint]; body(servo_id)] *)
Definition for_each_servo (body : Z -> M LX16A.bus unit) : M hexapod unit :=
  for_each legs (fun leg =>
    for_each ["coxa"; "femur"; "tibia"]%string (fun joint =>
      fun self =>
        (servo_id <~ lift (servo_id_of self leg joint) ;;
         on_bus (body servo_id)) self)).

(** [Hexapod.center_all] *)
Definition center_all (time_ms : Z) : M hexapod unit :=
  for_each_servo (fun servo_id => LX16A.move_prepare servo_id 500 time_ms) ;;;
  on_bus (LX16A.move_start LX16A.BROADCAST_ID).

(** [Hexapod.load_all] and [Hexapod.unload_all] *)
Definition load_all : M hexapod unit := for_each_servo LX16A.load.
Definition unload_all : M hexapod unit := for_each_servo LX16A.unload.

(** [Hexapod.stand].  The attribute [body_height] is passed in, and the
    value assigned to it at the end is returned; [height or
    self.body_height] takes the stored height when [height] is [None] or
    zero. *)
Definition stand (body_height : R) (height : option R) (time_ms : Z)
  : M hexapod R :=
  let h := falsy_or height body_height in
  let positions :=
    fold_left (fun positions leg =>
                 ODict.setitem positions leg (100, 0, - h)%R) legs [] in
  move_all_legs positions time_ms ;;;
  ret h.

(** [GaitController.body_shift] *)
Definition body_shift (dx dy dz : R) (time_ms : Z) : M hexapod unit :=
  positions <~ fill legs (shift_by dx dy dz) [] ;;
  move_all_legs positions time_ms.

(** [GaitController._rotate_tripod] *)
Definition _rotate_tripod (stand_height : R)
                          (swing_legs stance_legs : list string)
                          (rad lift_height : R) (move_time : Z)
  : M hexapod unit :=
  positions <~ fill swing_legs (raise_by lift_height) [] ;;
  move_all_legs positions move_time ;;;
  sleep (IZR move_time / 1000) ;;;
  let cos_r := cos rad in
  let sin_r := sin rad in
  positions <~ fill swing_legs (turn_to cos_r sin_r stand_height) [] ;;
  positions <~ fill stance_legs (turn_back cos_r sin_r) positions ;;
  move_all_legs positions move_time ;;;
  sleep (IZR move_time / 1000).

(** One iteration of the loop of [GaitController.rotate]. *)
Definition rotate_cycle (stand_height rad sh : R) (move_time : Z)
  : M hexapod unit :=
  _rotate_tripod stand_height tripod1 tripod2 rad sh move_time ;;;
  _rotate_tripod stand_height tripod2 tripod1 rad sh move_time.

(** [GaitController.walk].  The attributes [stand_height], [step_length],
    [step_height] and [cycle_time] of the gait controller are passed in;
    [v or self.v] takes the attribute when the argument is [None] or
    zero. *)
Definition walk (stand_height self_step_length self_step_height
                 self_cycle_time : R)
                (direction : R) (steps : nat)
                (step_length step_height cycle_time : option R)
  : M hexapod unit :=
  let sl := falsy_or step_length self_step_length in
  let sh := falsy_or step_height self_step_height in
  let ct := falsy_or cycle_time self_cycle_time in
  let rad := IK.radians direction in
  let dx := (sl * cos rad)%R in
  let dy := (sl * sin rad)%R in
  let half_cycle := (ct / 2)%R in
  let move_time := IK.py_int (half_cycle * 1000 / 3)%R in
  for_each (seq 0 steps) (fun _ =>
    walk_cycle stand_height dx dy sh move_time).

(** The attribute [wave_sequence] of [GaitController]. *)
Definition wave_sequence : list string :=
  ["L1"; "R1"; "L2"; "R2"; "L3"; "R3"]%string.

(** The turn of one leg in [GaitController.wave_walk]: the body of the
    inner loop.  Its [time.sleep] calls get the constant [150 / 1000] and
    cannot fail. *)
Definition wave_leg (stand_height : R) (leg : string) (dx dy sh : R)
                    (move_time : Z) : M hexapod unit :=
  p <~ load_position leg ;;
  let '(x, y, z) := p in
  move_leg leg x y (z + sh) move_time ;;;
  move_leg leg (x + dx) (y + dy) (z + sh) move_time ;;;
  move_leg leg (x + dx) (y + dy) (- stand_height) move_time ;;;
  let push_dx := (- dx / 5)%R in
  let push_dy := (- dy / 5)%R in
  for_each legs (fun other_leg =>
    if decide (other_leg <> leg) then
      q <~ load_position other_leg ;;
      let '(ox, oy, oz) := q in
      move_leg other_leg (ox + push_dx) (oy + push_dy) oz move_time
    else ret tt).

(** One iteration of the outer loop of [GaitController.wave_walk]. *)
Definition wave_cycle (stand_height dx dy sh : R) (move_time : Z)
  : M hexapod unit :=
  for_each wave_sequence (fun leg =>
    wave_leg stand_height leg dx dy sh move_time).

End BigHex.

(** The frame laid out by [_build_packet]. *)
Definition frame_of (servo_id cmd : Z) (params : list Z) : list Z :=
  let body := servo_id :: Z.of_nat (List.length params) + 3 :: cmd :: params in
  LX16A.FRAME_HEADER :: LX16A.FRAME_HEADER :: body
    ++ [Z.land (Z.lnot (sum body)) 0xFF].

(** The parameter bytes of a move: position and duration, clamped, each as
    two little-endian bytes. *)
Definition packed (position time_ms : Z) : list Z :=
  let position := Z.max 0 (Z.min 1000 position) in
  let time_ms := Z.max 0 (Z.min 30000 time_ms) in
  [Z.land position 0xFF; Z.land (Z.shiftr position 8) 0xFF;
   Z.land time_ms 0xFF; Z.land (Z.shiftr time_ms 8) 0xFF].

(** A frame that sets servos in motion when it is received: an immediate
    move, or the start of the prepared moves. *)
Definition is_dispatch (frame : list Z) : bool :=
  match frame !! 4%nat with
  | Some cmd =>
      (cmd =? LX16A.CMD_MOVE_TIME_WRITE) || (cmd =? LX16A.CMD_MOVE_START)
  | None => false
  end.

(** [for leg, p in positions.items(): leg_positions[leg] = p] *)
Definition store_all (positions : ODict.t position)
                     (leg_positions : gmap string position)
  : gmap string position :=
  fold_left (fun m item => <[fst item := snd item]> m) positions leg_positions.

(** The controller after more frames were written to its bus. *)
Definition append_tx (self : BigHex.hexapod) (frames : list (list Z))
  : BigHex.hexapod :=
  BigHex.with_bus self
    {| LX16A.tx := LX16A.tx (BigHex.bus self) ++ frames |}.

(** The controller after [frames] were written to its bus and the stored
    positions became [lp]. *)
Definition advanced (self : BigHex.hexapod) (frames : list (list Z))
                    (lp : gmap string position) : BigHex.hexapod :=
  BigHex.with_leg_positions (append_tx self frames) lp.

(** The frame [Hexapod.set_servo] sends for a joint. *)
Definition move_frame (self : BigHex.hexapod) (leg joint : string)
                      (servo_id : Z) (angle : R) (time_ms : Z) : list Z :=
  frame_of servo_id LX16A.CMD_MOVE_TIME_WRITE
    (packed (BigHex._angle_to_position self angle servo_id leg joint) time_ms).

(** The frame [Hexapod.move_all_legs] sends to prepare a joint. *)
Definition prepare_frame (self : BigHex.hexapod) (leg joint : string)
                         (servo_id : Z) (angle : R) (time_ms : Z) : list Z :=
  frame_of servo_id LX16A.CMD_MOVE_TIME_WAIT_WRITE
    (packed (BigHex._angle_to_position self angle servo_id leg joint) time_ms).

(** The servos of a leg are configured with ids that fit a byte. *)
Definition leg_wired (self : BigHex.hexapod) (leg : string) : Prop :=
  forall joint, joint ∈ ["coxa"; "femur"; "tibia"]%string ->
    exists servo_id, BigHex.servo_id_of self leg joint = Ok servo_id
                     /\ is_byte servo_id = true.

(** Link lengths for which the solver cannot divide by zero. *)
Definition geometry_ok (self : BigHex.hexapod) : Prop :=
  BigHex.femur_len self <> 0%R /\ BigHex.tibia_len self <> 0%R
  /\ BigHex.femur_len self <> BigHex.tibia_len self.

(** The items [fill] appends for [legs], reading the positions [lp]. *)
Fixpoint entries (legs : list string) (f : position -> position)
                 (lp : gmap string position) : ODict.t position :=
  match legs with
  | [] => []
  | leg :: rest =>
      match lp !! leg with
      | Some p => (leg, f p) :: entries rest f lp
      | None => []
      end
  end.

(** The stored positions after one [_tripod_step] of the serial-bus
    robot. *)
Definition tripod_positions (stand_height : R) (swing stance : list string)
    (dx dy lift : R) (lp : gmap string position) : gmap string position :=
  let lp1 := store_all (entries swing (raise_by lift) lp) lp in
  let lp2 :=
    store_all
      (entries swing (swing_by dx dy) lp1
       ++ entries stance (push_by (dx / 2) (dy / 2)) lp1)
      lp1 in
  store_all (entries swing (lower_to stand_height) lp2) lp2.

(** The stored positions after a loop that moves each of [legs] to
    [target] of its stored position, on either model of [leg_positions]. *)
Fixpoint moved {D : Type} `{Lookup string position D}
               `{Insert string position D}
               (legs : list string) (target : position -> position)
               (lp : D) : D :=
  match legs with
  | [] => lp
  | leg :: rest =>
      match lp !! leg with
      | Some p => moved rest target (<[leg := target p]> lp)
      | None => lp
      end
  end.

(** The horizontal displacement of a leg between two position maps. *)
Definition displaced {D : Type} `{Lookup string position D}
                     (before after : D) (leg : string)
                     (ddx ddy : R) : Prop :=
  exists x y z x' y' z',
    before !! leg = Some (x, y, z)
    /\ after !! leg = Some (x', y', z')
    /\ (x' - x = ddx)%R /\ (y' - y = ddy)%R.

(** The stored positions after one [_tripod_step] of the PWM robot. *)
Definition pwm_tripod_positions (stand_height : R)
    (swing stance : list string) (dx dy lift : R)
    (lp : ODict.t position) : ODict.t position :=
  moved swing (lower_to stand_height)
    (moved stance (push_by (dx / 2) (dy / 2))
       (moved swing (swing_by (dx / 2) (dy / 2))
          (moved swing (raise_by lift) lp))).

(** The PWM controller after more [set_pwm] calls and with the stored
    positions [lp]. *)
Definition pwm_advanced (self : Hex.hexapod) (events : list (Z * Z * Z))
                        (lp : ODict.t position) : Hex.hexapod :=
  Hex.with_leg_positions (Hex.with_pwm self (Hex.pwm self ++ events)) lp.

(** The servos of a leg of the PWM robot are configured, and their driver
    exists unless the robot is simulated. *)
Definition pwm_wired (self : Hex.hexapod) (leg : string) : Prop :=
  forall joint, joint ∈ ["coxa"; "femur"; "tibia"]%string ->
    exists pc direction sr,
      getitem2 (Hex.servo_map self) leg joint = Ok pc
      /\ getitem2 (Hex.servo_dir self) leg joint = Ok direction
      /\ getitem2 (Hex.servo_range self) leg joint = Ok sr
      /\ (Hex.simulate self = true
          \/ ((-2 <=? fst pc) && (fst pc <? 2) = true)).

(** A byte stream without two adjacent header bytes. *)
Definition no_header (stream : list Z) : Prop :=
  forall pre rest,
    stream <> pre ++ LX16A.FRAME_HEADER :: LX16A.FRAME_HEADER :: rest.

(** The checksum as the specification words it: over the bytes from the
    length field through the end of the parameters. *)
Definition checksum_from_length_field (length cmd : Z) (params : list Z) : Z :=
  Z.land (Z.lnot (sum (length :: cmd :: params))) 0xFF.

(** Linear interpolation of the angle domain [[a0, a1]] onto the signal
    range [[s0, s1]], as the specification words the conversion. *)
Definition lerp (a a0 a1 s0 s1 : R) : R :=
  (s0 + (a - a0) / (a1 - a0) * (s1 - s0))%R.

(** A servo whose reply to a position request is accepted by
    [_receive]. *)
Definition answers (responses : Z -> list Z) (servo_id : Z) : bool :=
  match LX16A._receive (responses servo_id) with
  | LX16A.RxPacket _ => true
  | _ => false
  end.

(** A byte read as a signed 8-bit number. *)
Definition signed_byte (b : Z) : Z := if b >? 127 then b - 256 else b.

(** The stored positions after the two rotated moves of one
    [_rotate_tripod] step of the serial-bus robot. *)
Definition rotated_positions (stand_height : R) (swing stance : list string)
    (rad lift : R) (lp : gmap string position) : gmap string position :=
  let lp1 := store_all (entries swing (raise_by lift) lp) lp in
  store_all
    (entries swing (turn_to (cos rad) (sin rad) stand_height) lp1
     ++ entries stance (turn_back (cos rad) (sin rad)) lp1)
    lp1.

(** The stored positions after one [_rotate_tripod] step of the PWM
    robot. *)
Definition pwm_rotated_positions (stand_height : R)
    (swing stance : list string) (rad lift : R)
    (lp : ODict.t position) : ODict.t position :=
  moved stance (turn_back (cos rad) (sin rad))
    (moved swing (turn_to (cos rad) (sin rad) stand_height)
       (moved swing (raise_by lift) lp)).

(** The serial-bus robot configured with an id for the femur servo of L1
    that does not fit a byte. *)
Definition miswired_hexapod : BigHex.hexapod :=
  {| BigHex.bus := {| LX16A.tx := [] |};
     BigHex.coxa_len := BigHex.COXA_LENGTH;
     BigHex.femur_len := BigHex.FEMUR_LENGTH;
     BigHex.tibia_len := BigHex.TIBIA_LENGTH;
     BigHex.servo_ids :=
       <["L1"%string := BigHex.joints 1 300 3]> BigHex.DEFAULT_SERVO_IDS;
     BigHex.servo_dir := BigHex.DEFAULT_SERVO_DIR;
     BigHex.calibration := ∅;
     BigHex.leg_positions := BigHex.leg_positions BigHex.default_hexapod |}.

(** The stored positions after the legs [todo] took their turn in a gait
    that moves one leg at a time: the leg goes to [step] of its position,
    then every other leg of [sequence] goes to [push] of its own. *)
Fixpoint rippled {D : Type} `{Lookup string position D}
                 `{Insert string position D}
                 (step push : position -> position)
                 (sequence todo : list string) (lp : D) : D :=
  match todo with
  | [] => lp
  | leg :: rest =>
      match lp !! leg with
      | Some p =>
          rippled step push sequence rest
            (moved (List.filter (fun other => bool_decide (other <> leg))
                                sequence)
                   push (<[leg := step p]> lp))
      | None => lp
      end
  end.

(** What the proofs about the gaits use of a model of [leg_positions]: a
    key reads back what was stored under it, storing leaves the other
    keys alone, and a second store under a key replaces the first. *)
Class Stored (D : Type) `{Lookup string position D}
             `{Insert string position D} : Prop := {
  lookup_stored_eq (lp : D) (k : string) (p : position) :
    <[k := p]> lp !! k = Some p;
  lookup_stored_ne (lp : D) (k k' : string) (p : position) :
    k <> k' -> <[k := p]> lp !! k' = lp !! k';
  stored_twice (lp : D) (k : string) (p q : position) :
    <[k := q]> (<[k := p]> lp) = <[k := q]> lp;
}.
(** * Properties *)

(** ** Protocol codec *)

Section Codec.

Import LX16A.

Lemma bytes_ok (l : list Z) : forallb is_byte l = true -> bytes l = Ok l.
Proof. unfold bytes. now intros ->. Qed.

Lemma is_byte_spec (b : Z) : is_byte b = true <-> 0 <= b < 256.
Proof. unfold is_byte. rewrite andb_true_iff, Z.leb_le, Z.ltb_lt. tauto. Qed.

Lemma land_255 (a : Z) : Z.land a 0xFF = a mod 256.
Proof. change 0xFF with (Z.ones 8). now rewrite Z.land_ones. Qed.

Lemma checksum_is_byte (total : Z) :
  is_byte (Z.land (Z.lnot total) 0xFF) = true.
Proof.
  rewrite land_255. apply is_byte_spec. apply Z.mod_pos_bound. lia.
Qed.

(** The checksum covers the [length] bytes that start at the id field. *)
Lemma checksum_region (h1 h2 length : Z) (body rest : list Z) :
  body !! 1%nat = Some length ->
  Z.of_nat (List.length body) = length ->
  _checksum (h1 :: h2 :: body ++ rest)
  = Ok (Z.land (Z.lnot (sum body)) 0xFF).
Proof.
  intros Hlen Hsize. unfold _checksum, index.
  assert (Hidx : (h1 :: h2 :: body ++ rest) !! 3%nat = Some length).
  { destruct body as [|b0 [|b1 body]]; simpl in *; try discriminate.
    exact Hlen. }
  rewrite Hidx. simpl. unfold slice.
  replace (length + 2 - 2) with length by lia.
  simpl. rewrite <- Hsize, Nat2Z.id.
  rewrite drop_0, take_app_length. reflexivity.
Qed.

Lemma build_packet_ok (servo_id cmd : Z) (params : list Z) :
  is_byte servo_id = true -> is_byte cmd = true ->
  (List.length params <= 252)%nat ->
  _build_packet servo_id cmd params = Ok (frame_of servo_id cmd params).
Proof.
  intros Hid Hcmd Hlen. unfold _build_packet.
  rewrite bytes_ok.
  2:{ simpl. rewrite Hid, Hcmd. simpl.
      replace (is_byte (Z.of_nat (List.length params) + 3)) with true; [easy|].
      symmetry. apply is_byte_spec. lia. }
  cbn [bind].
  pose proof (checksum_region FRAME_HEADER FRAME_HEADER
                (Z.of_nat (List.length params) + 3)
                (servo_id :: Z.of_nat (List.length params) + 3 :: cmd :: params)
                [0] eq_refl) as Hck.
  cbn [app] in Hck |- *. rewrite Hck by (simpl List.length; lia).
  cbn [bind]. rewrite bytes_ok by (simpl; now rewrite checksum_is_byte).
  unfold frame_of. cbn [bind app]. reflexivity.
Qed.

Lemma build_packet_too_long (servo_id cmd : Z) (params : list Z) :
  (252 < List.length params)%nat ->
  _build_packet servo_id cmd params = Raise ValueError.
Proof.
  intros Hlen. unfold _build_packet, bytes.
  replace (forallb _ _) with false; [reflexivity|].
  symmetry. simpl.
  replace (is_byte (Z.of_nat (List.length params) + 3)) with false.
  - now rewrite !andb_false_r.
  - symmetry. apply not_true_is_false. rewrite is_byte_spec. lia.
Qed.

Lemma sum_app (l1 l2 : list Z) : sum (l1 ++ l2) = sum l1 + sum l2.
Proof. unfold sum. induction l1 as [|a l1 IH]; simpl; lia. Qed.

Lemma scan_header_found (rest : list Z) :
  scan_header 0 (FRAME_HEADER :: FRAME_HEADER :: rest) = Some rest.
Proof. reflexivity. Qed.

(** The decoder reads [length] bytes after the length field although a
    frame carries only [length - 1] there: on the bytes of a frame of its
    own encoder, and nothing after them, it reports an incomplete frame. *)
Lemma receive_own_frame_incomplete (servo_id cmd : Z) (params : list Z) :
  _receive (frame_of servo_id cmd params) = RxNone ShortData.
Proof.
  unfold _receive, frame_of. rewrite scan_header_found.
  cbn [app]. unfold read. change (Z.to_nat 2) with 2%nat.
  cbn [firstn skipn].
  replace (_ <? _) with true; [reflexivity|].
  symmetry. apply Z.ltb_lt. rewrite length_take. cbn [List.length].
  rewrite length_app. simpl List.length. lia.
Qed.

(** C3 (amended).  The checksum byte of every encoded frame is the bitwise
    NOT, masked to 8 bits, of the sum of the bytes from the target id field
    through the end of the parameters (id, length, command, parameters). *)
Theorem checksum_covers_id_through_params
    (servo_id cmd : Z) (params : list Z) :
  is_byte servo_id = true -> is_byte cmd = true ->
  (List.length params <= 252)%nat ->
  exists checksum,
    _build_packet servo_id cmd params
    = Ok ([FRAME_HEADER; FRAME_HEADER; servo_id;
           Z.of_nat (List.length params) + 3; cmd] ++ params ++ [checksum])
    /\ checksum
       = Z.land (Z.lnot (sum (servo_id :: Z.of_nat (List.length params) + 3
                                       :: cmd :: params))) 0xFF.
Proof.
  intros Hid Hcmd Hlen. eexists. split; [|reflexivity].
  now rewrite build_packet_ok.
Qed.

Lemma checksum_covers_id_through_params_witness :
  exists checksum,
    _build_packet 1 CMD_POS_READ []
    = Ok ([FRAME_HEADER; FRAME_HEADER; 1; 3; CMD_POS_READ] ++ [] ++ [checksum])
    /\ checksum = Z.land (Z.lnot (sum [1; 3; CMD_POS_READ])) 0xFF.
Proof.
  apply (checksum_covers_id_through_params 1 CMD_POS_READ []);
    [reflexivity | reflexivity | simpl; lia].
Defined.

(** C3, as stated, fails: for the frame [move_start(1)] the checksum byte is
    240, the NOT of 1 + 3 + 11, while the sum from the length field gives
    241. *)
Lemma checksum_from_length_field_cex :
  _build_packet 1 CMD_MOVE_START [] = Ok [85; 85; 1; 3; 11; 240]
  /\ checksum_from_length_field 3 CMD_MOVE_START [] = 241
  /\ List.last [85; 85; 1; 3; 11; 240] 0
     <> checksum_from_length_field 3 CMD_MOVE_START [].
Proof. repeat split. discriminate. Qed.

Lemma build_packet_bad_id (servo_id cmd : Z) (params : list Z) :
  is_byte servo_id = false ->
  _build_packet servo_id cmd params = Raise ValueError.
Proof.
  intros Hid. unfold _build_packet, bytes. cbn [forallb].
  rewrite Hid. now rewrite !andb_false_r.
Qed.

Lemma build_packet_bad_cmd (servo_id cmd : Z) (params : list Z) :
  is_byte cmd = false ->
  _build_packet servo_id cmd params = Raise ValueError.
Proof.
  intros Hcmd. unfold _build_packet, bytes. cbn [forallb].
  rewrite Hcmd. now rewrite !andb_false_r.
Qed.

(** Every outcome of [_build_packet]. *)
Lemma build_packet_cases (servo_id cmd : Z) (params : list Z) :
  _build_packet servo_id cmd params
  = if is_byte servo_id && is_byte cmd
       && (List.length params <=? 252)%nat
    then Ok (frame_of servo_id cmd params)
    else Raise ValueError.
Proof.
  destruct (is_byte servo_id) eqn:Hid;
    [|now rewrite build_packet_bad_id].
  destruct (is_byte cmd) eqn:Hcmd;
    [|now rewrite build_packet_bad_cmd].
  cbn [andb]. destruct (Nat.leb_spec (List.length params) 252) as [Hle|Hgt].
  - now apply build_packet_ok.
  - now apply build_packet_too_long.
Qed.

(** C8 (amended).  Encoding fails, and then with the [ValueError] of
    [bytes], exactly when a field of the frame head does not fit a byte:
    there are more than 252 parameter bytes, so that the length field
    would exceed 255, or the target id or the command code lies outside
    0..255.  Otherwise it builds a frame. *)
Theorem build_packet_fails_iff_field_overflows
    (servo_id cmd : Z) (params : list Z) :
  (_build_packet servo_id cmd params = Raise ValueError
   <-> (252 < List.length params)%nat
       \/ is_byte servo_id = false \/ is_byte cmd = false)
  /\ (forall e, _build_packet servo_id cmd params = Raise e -> e = ValueError)
  /\ ((List.length params <= 252)%nat ->
      is_byte servo_id = true -> is_byte cmd = true ->
      exists frame, _build_packet servo_id cmd params = Ok frame
                    /\ List.length frame = (List.length params + 6)%nat).
Proof.
  rewrite build_packet_cases.
  destruct (is_byte servo_id) eqn:Hid, (is_byte cmd) eqn:Hcmd;
    cbn [andb];
    try (split; [split; [intros _; tauto|reflexivity]|];
         split; [now intros e [= <-]|discriminate]).
  destruct (Nat.leb_spec (List.length params) 252) as [Hle|Hgt].
  - split; [split; [discriminate|]|split; [discriminate|]].
    + intros [Hgt|[H|H]]; [lia|discriminate|discriminate].
    + intros _ _ _. eexists. split; [reflexivity|].
      unfold frame_of. simpl. rewrite length_app. simpl. lia.
  - split; [split; [intros _; now left|reflexivity]|].
    split; [now intros e [= <-]|lia].
Qed.

(** C8, as stated, fails: four parameter bytes are within the limit, yet
    encoding them for the target id 300 fails. *)
Lemma build_packet_within_limit_fails_cex :
  (List.length [244; 1; 0; 0] <= 252)%nat
  /\ _build_packet 300 CMD_MOVE_TIME_WRITE [244; 1; 0; 0] = Raise ValueError.
Proof. split; [simpl; lia|reflexivity]. Qed.

Lemma land_is_byte (a : Z) : is_byte (Z.land a 0xFF) = true.
Proof. rewrite land_255. apply is_byte_spec. apply Z.mod_pos_bound. lia. Qed.

Lemma little_endian_16 (v : Z) :
  0 <= v < 65536 ->
  Z.land v 0xFF + 256 * Z.land (Z.shiftr v 8) 0xFF = v.
Proof.
  intros Hv. rewrite !land_255, Z.shiftr_div_pow2 by lia.
  change (2 ^ 8) with 256. Z.div_mod_to_equations. lia.
Qed.

Lemma send_frame (servo_id cmd : Z) (params : list Z) (s : bus) :
  is_byte servo_id = true -> is_byte cmd = true ->
  (List.length params <= 252)%nat ->
  mbind (lift (_build_packet servo_id cmd params)) _send s
  = Done tt {| tx := tx s ++ [frame_of servo_id cmd params] |}.
Proof.
  intros Hid Hcmd Hlen. unfold mbind, lift.
  now rewrite build_packet_ok.
Qed.

Lemma move_params_ok (position time_ms : Z) :
  move_params position time_ms
  = Ok [Z.land (Z.max 0 (Z.min 1000 position)) 0xFF;
        Z.land (Z.shiftr (Z.max 0 (Z.min 1000 position)) 8) 0xFF;
        Z.land (Z.max 0 (Z.min 30000 time_ms)) 0xFF;
        Z.land (Z.shiftr (Z.max 0 (Z.min 30000 time_ms)) 8) 0xFF].
Proof.
  unfold move_params. apply bytes_ok.
  cbn [forallb]. now rewrite !land_is_byte.
Qed.

(** C10.  [move] and [move_prepare] clamp [position] to [0, 1000] and
    [time_ms] to [0, 30000], pack each as two little-endian bytes into the
    frame parameters, and send the frame whatever the two integers were. *)
Theorem move_clamps_and_packs
    (servo_id position time_ms : Z) (s : bus) :
  is_byte servo_id = true ->
  let p := Z.max 0 (Z.min 1000 position) in
  let t := Z.max 0 (Z.min 30000 time_ms) in
  let params := [Z.land p 0xFF; Z.land (Z.shiftr p 8) 0xFF;
                 Z.land t 0xFF; Z.land (Z.shiftr t 8) 0xFF] in
  move servo_id position time_ms s
  = Done tt {| tx := tx s ++ [frame_of servo_id CMD_MOVE_TIME_WRITE params] |}
  /\ move_prepare servo_id position time_ms s
     = Done tt {| tx := tx s
                        ++ [frame_of servo_id CMD_MOVE_TIME_WAIT_WRITE params] |}
  /\ forallb is_byte params = true
  /\ 0 <= p <= 1000 /\ 0 <= t <= 30000
  /\ (0 <= position <= 1000 -> p = position)
  /\ (0 <= time_ms <= 30000 -> t = time_ms)
  /\ Z.land p 0xFF + 256 * Z.land (Z.shiftr p 8) 0xFF = p
  /\ Z.land t 0xFF + 256 * Z.land (Z.shiftr t 8) 0xFF = t.
Proof.
  intros Hid p t params.
  assert (Hp : 0 <= p <= 1000) by (subst p; lia).
  assert (Ht : 0 <= t <= 30000) by (subst t; lia).
  assert (Hlen : (List.length params <= 252)%nat) by (subst params; simpl; lia).
  split; [|split; [|split; [|split; [|split; [|split; [|split; [|split]]]]]]].
  - unfold move, mbind, lift. rewrite move_params_ok. cbn [bind].
    fold p t params. now rewrite build_packet_ok.
  - unfold move_prepare, mbind, lift. rewrite move_params_ok. cbn [bind].
    fold p t params. now rewrite build_packet_ok.
  - subst params. cbn [forallb]. now rewrite !land_is_byte.
  - exact Hp.
  - exact Ht.
  - intros Hr. subst p. lia.
  - intros Hr. subst t. lia.
  - apply little_endian_16. lia.
  - apply little_endian_16. lia.
Qed.

Lemma move_clamps_and_packs_witness :
  move 1 1500 (-20) {| tx := [] |}
  = Done tt {| tx := [[85; 85; 1; 7; 1; 232; 3; 0; 0; 11]] |}
  /\ move_prepare 1 1500 (-20) {| tx := [] |}
     = Done tt {| tx := [[85; 85; 1; 7; 7; 232; 3; 0; 0; 5]] |}.
Proof.
  pose proof (move_clamps_and_packs 1 1500 (-20) {| tx := [] |} eq_refl)
    as (Hmove & Hprep & _).
  split; [exact Hmove | exact Hprep].
Defined.

(** C4.  The round trip fails on the code.  [_receive] reads [length]
    bytes after the length field although a frame carries only
    [length - 1] there, as the comment at that read says; on the bytes of
    any frame that [_build_packet] returns, and nothing after them, it
    therefore finds the data short and returns [None] instead of the
    packet. *)
Theorem receive_misses_encoded_frame
    (servo_id cmd : Z) (params frame : list Z) :
  _build_packet servo_id cmd params = Ok frame ->
  _receive frame = RxNone ShortData.
Proof.
  rewrite build_packet_cases.
  destruct (_ && _); [|discriminate].
  intros [= <-]. apply receive_own_frame_incomplete.
Qed.

Lemma receive_misses_encoded_frame_witness :
  _build_packet 1 CMD_POS_READ [244; 1] = Ok [85; 85; 1; 5; 28; 244; 1; 232]
  /\ _receive [85; 85; 1; 5; 28; 244; 1; 232] = RxNone ShortData.
Proof.
  split; [reflexivity|].
  apply (receive_misses_encoded_frame 1 CMD_POS_READ [244; 1]); reflexivity.
Defined.

End Codec.

(** ** Kinematics solver *)

Section Kinematics.

Local Open Scope R_scope.

Lemma clamp_bounds (v lo hi : R) : lo <= hi -> lo <= IK.clamp v lo hi <= hi.
Proof.
  intros H. unfold IK.clamp, Rmax, Rmin.
  repeat destruct (Rle_dec _ _); lra.
Qed.

Lemma clamp_lower (v lo hi : R) : lo <= IK.clamp v lo hi.
Proof. unfold IK.clamp. apply Rmax_l. Qed.

Lemma clamp_above (v lo hi : R) : lo <= hi -> hi < v -> IK.clamp v lo hi = hi.
Proof.
  intros H1 H2. unfold IK.clamp, Rmax, Rmin.
  repeat destruct (Rle_dec _ _); lra.
Qed.

Lemma clamp_below (v lo hi : R) : v < lo -> IK.clamp v lo hi = lo.
Proof.
  intros H. unfold IK.clamp, Rmax, Rmin.
  repeat destruct (Rle_dec _ _); lra.
Qed.

Lemma clamp_inside (v lo hi : R) : lo <= v <= hi -> IK.clamp v lo hi = v.
Proof.
  intros H. unfold IK.clamp, Rmax, Rmin.
  repeat destruct (Rle_dec _ _); lra.
Qed.

Lemma clamp_mono (v w lo hi : R) :
  v <= w -> IK.clamp v lo hi <= IK.clamp w lo hi.
Proof.
  intros H. unfold IK.clamp, Rmax, Rmin.
  repeat destruct (Rle_dec _ _); lra.
Qed.

(** The inverse cosine is only ever taken of a clamped argument. *)
Lemma py_acos_clamp (v : R) :
  IK.py_acos (IK.clamp v (-1) 1) = Ok (acos (IK.clamp v (-1) 1)).
Proof.
  pose proof (clamp_bounds v (-1) 1 ltac:(lra)) as [Hlo Hhi].
  unfold IK.py_acos.
  destruct (Rle_dec (-1) (IK.clamp v (-1) 1)); [|contradiction].
  destruct (Rle_dec (IK.clamp v (-1) 1) 1); [reflexivity|contradiction].
Qed.

Lemma py_div_ok (a b : R) : b <> 0 -> IK.py_div a b = Ok (a / b).
Proof.
  intros H. unfold IK.py_div. destruct (Req_dec_T b 0); [contradiction|easy].
Qed.

(** Both arguments of [math.sqrt] in [leg_ik] are non-negative. *)
Lemma sqrt_args_nonneg (a b : R) : 0 <= a ^ 2 + b ^ 2.
Proof. nra. Qed.

Lemma foot_dist_nonneg (x y z coxa_len : R) :
  0 <= IK.foot_dist_of x y z coxa_len.
Proof. unfold IK.foot_dist_of, IK.reach. cbn [snd]. apply sqrt_pos. Qed.

Lemma min_reach_nonneg (f t : R) : 0 <= IK.min_reach f t.
Proof. apply Rabs_pos. Qed.

Lemma reach_window (f t : R) :
  1 <= f -> 1 <= t -> IK.min_reach f t + 1 <= IK.max_reach f t - 1.
Proof.
  intros Hf Ht. unfold IK.min_reach, IK.max_reach, Rabs.
  destruct (Rcase_abs _); lra.
Qed.

Lemma out_of_reach_true (fd f t : R) :
  fd < IK.min_reach f t \/ IK.max_reach f t < fd ->
  IK.out_of_reach fd f t = true.
Proof.
  intros H. unfold IK.out_of_reach.
  destruct (Rlt_dec _ _); [reflexivity|].
  destruct (Rlt_dec _ _); [reflexivity|]. lra.
Qed.

Lemma out_of_reach_false (fd f t : R) :
  IK.min_reach f t <= fd <= IK.max_reach f t ->
  IK.out_of_reach fd f t = false.
Proof.
  intros H. unfold IK.out_of_reach.
  destruct (Rlt_dec _ _); [lra|].
  destruct (Rlt_dec _ _); [lra|reflexivity].
Qed.

(** The reach handed to the law of cosines is never zero, provided the two
    links differ in length. *)
Lemma clamp_reach_nonzero (fd f t : R) :
  0 <= fd -> f <> t -> fst (IK.clamp_reach fd f t) <> 0.
Proof.
  intros Hfd Hft. unfold IK.clamp_reach.
  destruct (IK.out_of_reach fd f t) eqn:Hout; cbn [fst].
  - pose proof (clamp_lower fd (IK.min_reach f t + 1) (IK.max_reach f t - 1)).
    pose proof (min_reach_nonneg f t). lra.
  - unfold IK.out_of_reach in Hout.
    destruct (Rlt_dec _ _); [discriminate|].
    destruct (Rlt_dec _ _); [discriminate|].
    assert (0 < IK.min_reach f t).
    { unfold IK.min_reach. apply Rabs_pos_lt. lra. }
    lra.
Qed.

Lemma joint_angles_ok (xy z fd f t : R) :
  f <> 0 -> t <> 0 -> fd <> 0 ->
  IK.joint_angles xy z fd f t
  = Ok (IK.degrees
          (acos (IK.clamp ((f ^ 2 + t ^ 2 - fd ^ 2) / (2 * f * t)) (-1) 1)),
        IK.degrees (IK.atan2 (- z) xy)
        + IK.degrees
            (acos (IK.clamp ((f ^ 2 + fd ^ 2 - t ^ 2) / (2 * f * fd)) (-1) 1))).
Proof.
  intros Hf Ht Hfd. unfold IK.joint_angles.
  rewrite py_div_ok by nra. cbn [bind].
  rewrite py_acos_clamp. cbn [bind].
  rewrite py_div_ok by nra. cbn [bind].
  rewrite py_acos_clamp. reflexivity.
Qed.

(** [leg_ik] as the composition of its stages. *)
Lemma hex_leg_ik_stages (x y z c f t : R) :
  Hex.leg_ik x y z c f t
  = (angles <- IK.joint_angles (IK.xy_dist_of x y z c) z
                 (fst (IK.clamp_reach (IK.foot_dist_of x y z c) f t)) f t ;;
     Ok (IK.clamp (90 + IK.coxa_angle_of x y z c) 0 180,
         IK.clamp (snd angles) 0 180,
         IK.clamp (180 - fst angles) 0 180,
         snd (IK.clamp_reach (IK.foot_dist_of x y z c) f t)))%py.
Proof.
  unfold Hex.leg_ik, IK.xy_dist_of, IK.foot_dist_of, IK.coxa_angle_of.
  destruct (IK.reach x y z c) as [[ca xy] fd]. cbn [fst snd].
  destruct (IK.clamp_reach fd f t) as [r clamped]. cbn [fst snd].
  destruct (IK.joint_angles xy z r f t) as [[ta fa]|e]; reflexivity.
Qed.

Lemma bighex_leg_ik_stages (x y z c f t : R) :
  BigHex.leg_ik x y z c f t
  = (angles <- IK.joint_angles (IK.xy_dist_of x y z c) z
                 (fst (IK.clamp_reach (IK.foot_dist_of x y z c) f t)) f t ;;
     Ok (Some (IK.clamp (120 + IK.coxa_angle_of x y z c) 0 240,
               IK.clamp (snd angles + 30) 0 240,
               IK.clamp (240 - fst angles) 0 240)))%py.
Proof.
  unfold BigHex.leg_ik, IK.xy_dist_of, IK.foot_dist_of, IK.coxa_angle_of.
  destruct (IK.reach x y z c) as [[ca xy] fd]. cbn [fst snd].
  destruct (IK.clamp_reach fd f t) as [r clamped]. cbn [fst snd].
  destruct (IK.joint_angles xy z r f t) as [[ta fa]|e]; reflexivity.
Qed.

(** With non-degenerate links of different lengths the solver always
    returns a pose. *)
Lemma bighex_leg_ik_total (x y z c f t : R) :
  f <> 0 -> t <> 0 -> f <> t ->
  exists coxa femur tibia,
    BigHex.leg_ik x y z c f t = Ok (Some (coxa, femur, tibia)).
Proof.
  intros Hf Ht Hft. rewrite bighex_leg_ik_stages.
  rewrite joint_angles_ok; try assumption.
  - cbn [bind]. eauto.
  - apply clamp_reach_nonzero; [apply foot_dist_nonneg|assumption].
Qed.

Lemma hex_leg_ik_total (x y z c f t : R) :
  f <> 0 -> t <> 0 -> f <> t ->
  exists coxa femur tibia warned,
    Hex.leg_ik x y z c f t = Ok (coxa, femur, tibia, warned).
Proof.
  intros Hf Ht Hft. rewrite hex_leg_ik_stages.
  rewrite joint_angles_ok; try assumption.
  - cbn [bind]. eauto.
  - apply clamp_reach_nonzero; [apply foot_dist_nonneg|assumption].
Qed.

(** C1 (amended).  With both links at least as long as the 1 mm margin (as
    in both default geometries), for every target whose reach lies outside
    [min_reach, max_reach] the solver of either controller returns, without
    any error, the servo angles computed from the reach clamped to the
    nearest of [min_reach + 1] and [max_reach - 1], which lies strictly
    inside the interval; the solver of the PWM controller prints the
    out-of-reach warning. *)
Theorem leg_ik_clamps_unreachable (x y z coxa_len femur_len tibia_len : R) :
  1 <= femur_len -> 1 <= tibia_len ->
  let coxa_angle := IK.coxa_angle_of x y z coxa_len in
  let xy_dist := IK.xy_dist_of x y z coxa_len in
  let foot_dist := IK.foot_dist_of x y z coxa_len in
  let lo := IK.min_reach femur_len tibia_len in
  let hi := IK.max_reach femur_len tibia_len in
  foot_dist < lo \/ hi < foot_dist ->
  let r := IK.clamp foot_dist (lo + 1) (hi - 1) in
  lo < r < hi
  /\ (foot_dist < lo -> r = lo + 1)
  /\ (hi < foot_dist -> r = hi - 1)
  /\ exists tibia_angle femur_angle,
       IK.joint_angles xy_dist z r femur_len tibia_len
       = Ok (tibia_angle, femur_angle)
       /\ Hex.leg_ik x y z coxa_len femur_len tibia_len
          = Ok (IK.clamp (90 + coxa_angle) 0 180,
                IK.clamp femur_angle 0 180,
                IK.clamp (180 - tibia_angle) 0 180,
                true)
       /\ BigHex.leg_ik x y z coxa_len femur_len tibia_len
          = Ok (Some (IK.clamp (120 + coxa_angle) 0 240,
                      IK.clamp (femur_angle + 30) 0 240,
                      IK.clamp (240 - tibia_angle) 0 240)).
Proof.
  intros Hf Ht coxa_angle xy_dist foot_dist lo hi Hout r.
  pose proof (reach_window femur_len tibia_len Hf Ht) as Hwin.
  fold lo hi in Hwin.
  pose proof (clamp_bounds foot_dist (lo + 1) (hi - 1) ltac:(lra)) as Hr.
  fold r in Hr.
  assert (Hlo : 0 <= lo) by apply min_reach_nonneg.
  assert (Hcr : IK.clamp_reach foot_dist femur_len tibia_len = (r, true)).
  { unfold IK.clamp_reach. now rewrite out_of_reach_true. }
  split; [lra|]. split; [|split].
  - intros H. apply clamp_below. lra.
  - intros H. apply clamp_above; lra.
  - eexists _, _. split; [apply joint_angles_ok; lra|].
    split.
    + rewrite hex_leg_ik_stages. fold foot_dist xy_dist coxa_angle.
      rewrite Hcr. cbn [fst snd].
      rewrite joint_angles_ok by lra. reflexivity.
    + rewrite bighex_leg_ik_stages. fold foot_dist xy_dist coxa_angle.
      rewrite Hcr. cbn [fst snd].
      rewrite joint_angles_ok by lra. reflexivity.
Qed.

Lemma foot_dist_on_axis (x c : R) :
  0 < x -> c <= x -> IK.foot_dist_of x 0 0 c = x - c.
Proof.
  intros Hx Hc. unfold IK.foot_dist_of, IK.reach. cbn [snd].
  destruct (Req_dec_T x 0) as [E|_]; [lra|].
  replace (x ^ 2 + 0 ^ 2) with (x ^ 2) by lra.
  rewrite sqrt_pow2 by lra.
  destruct (Rlt_dec (x - c) 0) as [E|_]; [lra|].
  replace ((x - c) ^ 2 + 0 ^ 2) with ((x - c) ^ 2) by lra.
  apply sqrt_pow2. lra.
Qed.

Lemma leg_ik_clamps_unreachable_witness :
  let coxa_angle := IK.coxa_angle_of 300 0 0 25 in
  let xy_dist := IK.xy_dist_of 300 0 0 25 in
  let foot_dist := IK.foot_dist_of 300 0 0 25 in
  let lo := IK.min_reach 55 75 in
  let hi := IK.max_reach 55 75 in
  let r := IK.clamp foot_dist (lo + 1) (hi - 1) in
  lo < r < hi
  /\ (foot_dist < lo -> r = lo + 1)
  /\ (hi < foot_dist -> r = hi - 1)
  /\ exists tibia_angle femur_angle,
       IK.joint_angles xy_dist 0 r 55 75 = Ok (tibia_angle, femur_angle)
       /\ Hex.leg_ik 300 0 0 25 55 75
          = Ok (IK.clamp (90 + coxa_angle) 0 180,
                IK.clamp femur_angle 0 180,
                IK.clamp (180 - tibia_angle) 0 180,
                true)
       /\ BigHex.leg_ik 300 0 0 25 55 75
          = Ok (Some (IK.clamp (120 + coxa_angle) 0 240,
                      IK.clamp (femur_angle + 30) 0 240,
                      IK.clamp (240 - tibia_angle) 0 240)).
Proof.
  apply (leg_ik_clamps_unreachable 300 0 0 25 55 75); [lra | lra |].
  right. rewrite foot_dist_on_axis by lra. unfold IK.max_reach. lra.
Defined.

(** C1, as stated, fails when a link is shorter than the margin: with
    femur and tibia of 0.5 mm the target (3, 0, 4) has reach 5, beyond
    [max_reach = 1], and the solver continues (and warns) with the reach
    [clamp(5, 1, 0) = 1], which is the boundary itself. *)
Lemma leg_ik_clamp_on_boundary_cex :
  IK.foot_dist_of 3 0 4 0 = 5
  /\ IK.min_reach (1 / 2) (1 / 2) = 0
  /\ IK.max_reach (1 / 2) (1 / 2) = 1
  /\ IK.clamp_reach (IK.foot_dist_of 3 0 4 0) (1 / 2) (1 / 2) = (1, true)
  /\ (exists coxa femur tibia,
        Hex.leg_ik 3 0 4 0 (1 / 2) (1 / 2) = Ok (coxa, femur, tibia, true))
  /\ ~ (IK.min_reach (1 / 2) (1 / 2)
        < fst (IK.clamp_reach (IK.foot_dist_of 3 0 4 0) (1 / 2) (1 / 2))
        < IK.max_reach (1 / 2) (1 / 2)).
Proof.
  assert (Hfd : IK.foot_dist_of 3 0 4 0 = 5).
  { unfold IK.foot_dist_of, IK.reach. cbn [snd].
    destruct (Req_dec_T 3 0) as [E|_]; [lra|].
    replace (3 ^ 2 + 0 ^ 2) with (3 ^ 2) by lra.
    rewrite sqrt_pow2 by lra.
    destruct (Rlt_dec (3 - 0) 0) as [E|_]; [lra|].
    replace ((3 - 0) ^ 2 + 4 ^ 2) with (5 ^ 2) by lra.
    apply sqrt_pow2. lra. }
  assert (Hmin : IK.min_reach (1 / 2) (1 / 2) = 0).
  { unfold IK.min_reach. replace (1 / 2 - 1 / 2) with 0 by lra.
    apply Rabs_R0. }
  assert (Hmax : IK.max_reach (1 / 2) (1 / 2) = 1).
  { unfold IK.max_reach. lra. }
  assert (Hcr : IK.clamp_reach (IK.foot_dist_of 3 0 4 0) (1 / 2) (1 / 2)
                = (1, true)).
  { rewrite Hfd. unfold IK.clamp_reach.
    rewrite out_of_reach_true by (rewrite Hmax; lra).
    rewrite Hmin, Hmax. f_equal.
    unfold IK.clamp, Rmax, Rmin. repeat destruct (Rle_dec _ _); lra. }
  repeat split; try assumption.
  - rewrite hex_leg_ik_stages, Hcr. cbn [fst snd].
    rewrite joint_angles_ok by lra. cbn [bind]. eauto.
  - rewrite Hcr, Hmax. cbn [fst]. lra.
Qed.

End Kinematics.

(** ** Actuator abstraction *)

Section Actuator.

Local Open Scope R_scope.

Lemma Zceil_IZR (k : Z) : Zceil (IZR k) = k.
Proof. unfold Zceil. rewrite ZfloorNZ. lia. Qed.

Lemma py_int_IZR (k : Z) : IK.py_int (IZR k) = k.
Proof.
  unfold IK.py_int. destruct (Rle_dec 0 (IZR k)).
  - apply ZfloorZ.
  - apply Zceil_IZR.
Qed.

(** Truncation towards zero is monotone. *)
Lemma py_int_mono (a b : R) : a <= b -> (IK.py_int a <= IK.py_int b)%Z.
Proof.
  intros Hab. unfold IK.py_int.
  destruct (Rle_dec 0 a) as [Ha|Ha], (Rle_dec 0 b) as [Hb|Hb].
  - now apply Zfloor_le.
  - lra.
  - transitivity 0%Z.
    + pose proof (Zceil_bound a) as [Hc _].
      assert (IZR (Zceil a) < IZR 1) by lra.
      apply lt_IZR in H. lia.
    + now apply Zfloor_lub.
  - now apply Zceil_le.
Qed.

Lemma py_int_between (lo hi : Z) (r : R) :
  IZR lo <= r <= IZR hi -> (lo <= IK.py_int r <= hi)%Z.
Proof.
  intros [Hlo Hhi]. split.
  - rewrite <- (py_int_IZR lo). now apply py_int_mono.
  - rewrite <- (py_int_IZR hi). now apply py_int_mono.
Qed.

Lemma clamp_int_bounds (v lo hi : Z) :
  (lo <= hi)%Z -> (lo <= IK.clamp_int v lo hi <= hi)%Z.
Proof. unfold IK.clamp_int. lia. Qed.

Lemma clamp_int_mono (v w lo hi : Z) :
  (v <= w)%Z -> (IK.clamp_int v lo hi <= IK.clamp_int w lo hi)%Z.
Proof. unfold IK.clamp_int. lia. Qed.

(** The pulse computed by [angle_to_pulse] for a range entry. *)
Lemma angle_to_pulse_entry (self : Hex.hexapod) (leg joint : string)
    (sr : Hex.servo_range_entry) (angle : R) :
  getitem2 (Hex.servo_range self) leg joint = Ok sr ->
  Hex.angle_to_pulse self leg joint angle
  = Ok (IK.py_int (IZR (Hex.range_min sr)
                   + IK.clamp angle 0 180 / 180
                     * (IZR (Hex.range_max sr) - IZR (Hex.range_min sr)))).
Proof. intros Hsr. unfold Hex.angle_to_pulse. now rewrite Hsr. Qed.

Lemma pulse_mono (lo hi : Z) (a b : R) :
  (lo <= hi)%Z -> a <= b ->
  (IK.py_int (IZR lo + IK.clamp a 0 180 / 180 * (IZR hi - IZR lo))
   <= IK.py_int (IZR lo + IK.clamp b 0 180 / 180 * (IZR hi - IZR lo)))%Z.
Proof.
  intros Hr Hab. apply py_int_mono.
  pose proof (clamp_mono a b 0 180 Hab).
  apply IZR_le in Hr.
  apply Rplus_le_compat_l. apply Rmult_le_compat_r; lra.
Qed.

Lemma pulse_bounds (lo hi : Z) (a : R) :
  (lo <= hi)%Z ->
  (lo <= IK.py_int (IZR lo + IK.clamp a 0 180 / 180 * (IZR hi - IZR lo))
   <= hi)%Z.
Proof.
  intros Hr. apply py_int_between.
  pose proof (clamp_bounds a 0 180 ltac:(lra)) as Hc.
  apply IZR_le in Hr.
  set (u := IK.clamp a 0 180 / 180).
  assert (Hu : 0 <= u <= 1) by (subst u; lra).
  assert (0 <= u * (IZR hi - IZR lo)) by (apply Rmult_le_pos; lra).
  assert (0 <= (1 - u) * (IZR hi - IZR lo)) by (apply Rmult_le_pos; lra).
  lra.
Qed.

(** C2.  For a configured joint whose calibration satisfies
    [min <= max], the pulse computed by the PWM controller, and the
    position computed by the serial-bus controller, are non-decreasing in
    the angle when the joint's direction is +1, non-increasing when it is
    -1, and always lie within the native signal range ([min, max] and
    [0, 1000]). *)
Theorem angle_to_signal_monotone_bounded
    (small : Hex.hexapod) (big : BigHex.hexapod) (servo_id : Z)
    (leg joint : string) (pc : Z * Z) (direction : Z)
    (sr : Hex.servo_range_entry) :
  getitem2 (Hex.servo_map small) leg joint = Ok pc ->
  getitem2 (Hex.servo_dir small) leg joint = Ok direction ->
  getitem2 (Hex.servo_range small) leg joint = Ok sr ->
  (Hex.range_min sr <= Hex.range_max sr)%Z ->
  let big_direction := get (get (BigHex.servo_dir big) leg ∅) joint 1%Z in
  let position a := BigHex._angle_to_position big a servo_id leg joint in
  exists pulse : R -> Z,
    (forall a, Hex.servo_pulse small leg joint a = Ok (fst pc, snd pc, pulse a))
    /\ (forall a, (Hex.range_min sr <= pulse a <= Hex.range_max sr)%Z)
    /\ (forall a, (0 <= position a <= 1000)%Z)
    /\ (forall a1 a2, a1 <= a2 ->
          (direction = 1%Z -> (pulse a1 <= pulse a2)%Z)
          /\ (direction = (-1)%Z -> (pulse a2 <= pulse a1)%Z)
          /\ (big_direction = 1%Z -> (position a1 <= position a2)%Z)
          /\ (big_direction = (-1)%Z -> (position a2 <= position a1)%Z)).
Proof.
  intros Hpc Hdir Hsr Hrange big_direction position.
  set (lo := Hex.range_min sr) in *. set (hi := Hex.range_max sr) in *.
  exists (fun a =>
            IK.py_int (IZR lo
                       + IK.clamp (if (direction <? 0)%Z then 180 - a else a)
                                  0 180 / 180 * (IZR hi - IZR lo))).
  split; [|split; [|split]].
  - intros a. unfold Hex.servo_pulse. rewrite Hpc, Hdir. cbn [bind].
    now rewrite (angle_to_pulse_entry _ _ _ sr).
  - intros a. now apply pulse_bounds.
  - intros a. unfold position, BigHex._angle_to_position.
    apply clamp_int_bounds. lia.
  - intros a1 a2 Ha. split; [|split; [|split]].
    + intros ->. cbn. now apply pulse_mono.
    + intros ->. cbn. apply pulse_mono; [assumption|lra].
    + intros Hd. unfold position, BigHex._angle_to_position.
      fold big_direction. rewrite Hd. cbn.
      apply clamp_int_mono. apply Z.add_le_mono_r. apply py_int_mono. lra.
    + intros Hd. unfold position, BigHex._angle_to_position.
      fold big_direction. rewrite Hd. cbn.
      apply clamp_int_mono. apply Z.add_le_mono_r. apply py_int_mono. lra.
Qed.

Lemma angle_to_signal_monotone_bounded_witness :
  let big_direction :=
    get (get (BigHex.servo_dir BigHex.default_hexapod) "R1"%string ∅)
        "femur"%string 1%Z in
  let position a :=
    BigHex._angle_to_position BigHex.default_hexapod a 11 "R1"%string
                              "femur"%string in
  exists pulse : R -> Z,
    (forall a, Hex.servo_pulse Hex.default_hexapod "R1"%string "femur"%string a
               = Ok (0%Z, 10%Z, pulse a))
    /\ (forall a, (500 <= pulse a <= 2500)%Z)
    /\ (forall a, (0 <= position a <= 1000)%Z)
    /\ (forall a1 a2, a1 <= a2 ->
          ((-1)%Z = 1%Z -> (pulse a1 <= pulse a2)%Z)
          /\ ((-1)%Z = (-1)%Z -> (pulse a2 <= pulse a1)%Z)
          /\ (big_direction = 1%Z -> (position a1 <= position a2)%Z)
          /\ (big_direction = (-1)%Z -> (position a2 <= position a1)%Z)).
Proof.
  apply (angle_to_signal_monotone_bounded
           Hex.default_hexapod BigHex.default_hexapod 11
           "R1"%string "femur"%string (0%Z, 10%Z) (-1)%Z Hex.default_range);
    [reflexivity | reflexivity | reflexivity | now vm_compute].
Defined.

Lemma lerp_endpoints (a0 a1 s0 s1 : R) :
  a0 <> a1 -> lerp a0 a0 a1 s0 s1 = s0 /\ lerp a1 a0 a1 s0 s1 = s1.
Proof. intros H. unfold lerp. split; field; lra. Qed.

Lemma lerp_affine (a b a0 a1 s0 s1 : R) :
  a0 <> a1 ->
  lerp b a0 a1 s0 s1 - lerp a a0 a1 s0 s1 = (b - a) * ((s1 - s0) / (a1 - a0)).
Proof. intros H. unfold lerp. field. lra. Qed.

(** C9 (amended).  The serial-bus conversion interpolates the (mirrored)
    angle linearly from [0, 240] onto [0, 1000], truncates, then adds the
    stored per-servo calibration offset and clamps the sum to [0, 1000];
    the PWM conversion interpolates the angle, clamped to [0, 180],
    linearly onto [min, max] and truncates, with no offset term. *)
Theorem angle_to_signal_interpolates
    (small : Hex.hexapod) (big : BigHex.hexapod) (servo_id : Z)
    (leg joint : string) (sr : Hex.servo_range_entry) (angle : R) :
  getitem2 (Hex.servo_range small) leg joint = Ok sr ->
  let direction := get (get (BigHex.servo_dir big) leg ∅) joint 1%Z in
  let offset :=
    get (get (BigHex.calibration big) servo_id ∅) "offset"%string 0%Z in
  let mirrored := if (direction <? 0)%Z then 240 - angle else angle in
  BigHex._angle_to_position big angle servo_id leg joint
  = IK.clamp_int (IK.py_int (lerp mirrored 0 240 0 1000) + offset) 0 1000
  /\ Hex.angle_to_pulse small leg joint angle
     = Ok (IK.py_int (lerp (IK.clamp angle 0 180) 0 180
                           (IZR (Hex.range_min sr)) (IZR (Hex.range_max sr)))).
Proof.
  intros Hsr direction offset mirrored. split.
  - unfold BigHex._angle_to_position. fold direction offset mirrored.
    do 3 f_equal. unfold lerp. field.
  - rewrite (angle_to_pulse_entry _ _ _ sr) by assumption.
    do 2 f_equal. unfold lerp. field.
Qed.

Lemma angle_to_signal_interpolates_witness :
  BigHex._angle_to_position BigHex.default_hexapod 60 11 "R1"%string
                            "femur"%string
  = IK.clamp_int (IK.py_int (lerp (240 - 60) 0 240 0 1000) + 0) 0 1000
  /\ Hex.angle_to_pulse Hex.default_hexapod "R1"%string "femur"%string 60
     = Ok (IK.py_int (lerp (IK.clamp 60 0 180) 0 180 (IZR 500) (IZR 2500))).
Proof.
  exact (angle_to_signal_interpolates
           Hex.default_hexapod BigHex.default_hexapod 11
           "R1"%string "femur"%string Hex.default_range 60 eq_refl).
Defined.

(** C9, as stated, fails for the PWM controller: with a centre of 1600
    recorded for the coxa servo of L1, 100 above the default 1500, the
    pulse for 90 degrees is 1500, the same as with the default centre. *)
Lemma pulse_ignores_stored_centre_cex :
  getitem2 (Hex.servo_range (Hex.recentred_hexapod 1600)) "L1"%string
           "coxa"%string
  = Ok {| Hex.range_min := 500; Hex.range_max := 2500;
          Hex.range_center := 1600 |}
  /\ Hex.angle_to_pulse (Hex.recentred_hexapod 1600) "L1"%string
                        "coxa"%string 90
     = Ok 1500%Z
  /\ Hex.angle_to_pulse Hex.default_hexapod "L1"%string "coxa"%string 90
     = Ok 1500%Z.
Proof.
  assert (Hv : IK.py_int (IZR 500 + IK.clamp 90 0 180 / 180
                                    * (IZR 2500 - IZR 500)) = 1500%Z).
  { rewrite clamp_inside by lra.
    replace (IZR 500 + 90 / 180 * (IZR 2500 - IZR 500)) with (IZR 1500) by lra.
    apply py_int_IZR. }
  split; [reflexivity|]. split.
  - rewrite (angle_to_pulse_entry _ _ _
               {| Hex.range_min := 500; Hex.range_max := 2500;
                  Hex.range_center := 1600 |}) by reflexivity.
    cbn [Hex.range_min Hex.range_max]. now rewrite Hv.
  - rewrite (angle_to_pulse_entry _ _ _ Hex.default_range) by reflexivity.
    change (Hex.range_min Hex.default_range) with 500%Z.
    change (Hex.range_max Hex.default_range) with 2500%Z.
    now rewrite Hv.
Qed.

End Actuator.

(** ** Leg controller of the serial-bus robot *)

Section LegController.

Import LX16A.

Lemma packed_ok (position time_ms : Z) :
  move_params position time_ms = Ok (packed position time_ms).
Proof. apply move_params_ok. Qed.

Lemma packed_length (position time_ms : Z) :
  List.length (packed position time_ms) = 4%nat.
Proof. reflexivity. Qed.

Lemma bus_move_cases (servo_id position time_ms : Z) (b : bus) :
  move servo_id position time_ms b
  = if is_byte servo_id
    then Done tt {| tx := tx b ++ [frame_of servo_id CMD_MOVE_TIME_WRITE
                                            (packed position time_ms)] |}
    else Raised ValueError b.
Proof.
  unfold move, mbind, lift. rewrite packed_ok. cbn [bind].
  destruct (is_byte servo_id) eqn:Hid.
  - rewrite build_packet_ok; [reflexivity|assumption|reflexivity|].
    rewrite packed_length. lia.
  - now rewrite build_packet_bad_id.
Qed.

Lemma bus_move_prepare_cases (servo_id position time_ms : Z) (b : bus) :
  move_prepare servo_id position time_ms b
  = if is_byte servo_id
    then Done tt {| tx := tx b ++ [frame_of servo_id CMD_MOVE_TIME_WAIT_WRITE
                                            (packed position time_ms)] |}
    else Raised ValueError b.
Proof.
  unfold move_prepare, mbind, lift. rewrite packed_ok. cbn [bind].
  destruct (is_byte servo_id) eqn:Hid.
  - rewrite build_packet_ok; [reflexivity|assumption|reflexivity|].
    rewrite packed_length. lia.
  - now rewrite build_packet_bad_id.
Qed.

Lemma bus_move_start_broadcast (b : bus) :
  move_start BROADCAST_ID b
  = Done tt {| tx := tx b ++ [frame_of BROADCAST_ID CMD_MOVE_START []] |}.
Proof. reflexivity. Qed.

Import BigHex.

Lemma with_bus_same (self : hexapod) : with_bus self (bus self) = self.
Proof. now destruct self. Qed.

Lemma append_tx_nil (self : hexapod) : append_tx self [] = self.
Proof.
  unfold append_tx. rewrite app_nil_r.
  destruct self as [[b] ? ? ? ? ? ? ?]. reflexivity.
Qed.

Lemma append_tx_app (self : hexapod) (fs gs : list (list Z)) :
  append_tx (append_tx self fs) gs = append_tx self (fs ++ gs).
Proof. unfold append_tx, with_bus. cbn. now rewrite app_assoc. Qed.

Lemma bighex_leg_ik_cases (x y z c f t : R) :
  (exists e, leg_ik x y z c f t = Raise e)
  \/ (exists coxa femur tibia, leg_ik x y z c f t = Ok (Some (coxa, femur, tibia))).
Proof.
  rewrite bighex_leg_ik_stages.
  destruct (IK.joint_angles _ _ _ _ _) as [angles|e]; cbn [bind]; eauto.
Qed.

Lemma set_servo_cases (leg joint : string) (angle : R) (time_ms : Z)
    (self : hexapod) :
  set_servo leg joint angle time_ms self
  = match servo_id_of self leg joint with
    | Raise e => Raised e self
    | Ok servo_id =>
        if is_byte servo_id
        then Done tt (append_tx self
                        [move_frame self leg joint servo_id angle time_ms])
        else Raised ValueError self
    end.
Proof.
  unfold set_servo, mbind, lift.
  destruct (servo_id_of self leg joint) as [servo_id|e]; [|reflexivity].
  unfold on_bus. rewrite bus_move_cases.
  destruct (is_byte servo_id); [reflexivity|].
  now rewrite with_bus_same.
Qed.

Lemma prepare_joint_cases (leg joint : string) (angle : R) (time_ms : Z)
    (self : hexapod) :
  prepare_joint leg joint angle time_ms self
  = match servo_id_of self leg joint with
    | Raise e => Raised e self
    | Ok servo_id =>
        if is_byte servo_id
        then Done tt (append_tx self
                        [prepare_frame self leg joint servo_id angle time_ms])
        else Raised ValueError self
    end.
Proof.
  unfold prepare_joint, mbind, lift.
  destruct (servo_id_of self leg joint) as [servo_id|e]; [|reflexivity].
  unfold on_bus. rewrite bus_move_prepare_cases.
  destruct (is_byte servo_id); [reflexivity|].
  now rewrite with_bus_same.
Qed.

(** What [set_leg_angles] does: the three frames are written in order, or
    an exception leaves the stored positions as they were. *)
Lemma set_leg_angles_cases (leg : string) (coxa femur tibia : R)
    (time_ms : Z) (self : hexapod) :
  match set_leg_angles leg coxa femur tibia time_ms self with
  | Done _ s' =>
      exists id1 id2 id3,
        servo_id_of self leg "coxa" = Ok id1
        /\ servo_id_of self leg "femur" = Ok id2
        /\ servo_id_of self leg "tibia" = Ok id3
        /\ is_byte id1 = true /\ is_byte id2 = true /\ is_byte id3 = true
        /\ s' = append_tx self
                  [move_frame self leg "coxa" id1 coxa time_ms;
                   move_frame self leg "femur" id2 femur time_ms;
                   move_frame self leg "tibia" id3 tibia time_ms]
  | Raised _ s' => leg_positions s' = leg_positions self
  end.
Proof.
  unfold set_leg_angles, mbind.
  rewrite set_servo_cases.
  destruct (servo_id_of self leg "coxa") as [id1|e1] eqn:H1; [|reflexivity].
  destruct (is_byte id1) eqn:B1; [|reflexivity].
  rewrite set_servo_cases.
  change (servo_id_of (append_tx self _) leg "femur")
    with (servo_id_of self leg "femur").
  destruct (servo_id_of self leg "femur") as [id2|e2] eqn:H2; [|reflexivity].
  destruct (is_byte id2) eqn:B2; [|reflexivity].
  rewrite set_servo_cases.
  change (servo_id_of (append_tx (append_tx self _) _) leg "tibia")
    with (servo_id_of self leg "tibia").
  destruct (servo_id_of self leg "tibia") as [id3|e3] eqn:H3; [|reflexivity].
  destruct (is_byte id3) eqn:B3; [|reflexivity].
  exists id1, id2, id3. repeat (split; [assumption || reflexivity|]).
  rewrite !append_tx_app. reflexivity.
Qed.

(** C7.  [move_leg] stores the requested [(x, y, z)] for the leg exactly
    when the three per-joint move frames have been written to the bus, as
    its last step; if the solver or the dispatch raises, the stored
    positions are as before; the positions of the other legs are never
    touched; and with sound link lengths and configured servo ids the call
    succeeds. *)
Theorem move_leg_stores_after_dispatch
    (leg : string) (x y z : R) (time_ms : Z) (self : hexapod) :
  match move_leg leg x y z time_ms self with
  | Done _ s' =>
      exists coxa femur tibia id1 id2 id3,
        leg_ik x y z (coxa_len self) (femur_len self) (tibia_len self)
        = Ok (Some (coxa, femur, tibia))
        /\ servo_id_of self leg "coxa" = Ok id1
        /\ servo_id_of self leg "femur" = Ok id2
        /\ servo_id_of self leg "tibia" = Ok id3
        /\ tx (bus s')
           = tx (bus self)
             ++ [move_frame self leg "coxa" id1 coxa time_ms;
                 move_frame self leg "femur" id2 femur time_ms;
                 move_frame self leg "tibia" id3 tibia time_ms]
        /\ leg_positions s' = <[leg := (x, y, z)]> (leg_positions self)
  | Raised _ s' => leg_positions s' = leg_positions self
  end
  /\ (forall other, other <> leg ->
        leg_positions (final_state (move_leg leg x y z time_ms self)) !! other
        = leg_positions self !! other)
  /\ (geometry_ok self -> leg_wired self leg ->
      exists s', move_leg leg x y z time_ms self = Done tt s'
                 /\ leg_positions s' !! leg = Some (x, y, z)).
Proof.
  assert (Hcases :
    match move_leg leg x y z time_ms self with
    | Done _ s' =>
        exists coxa femur tibia id1 id2 id3,
          leg_ik x y z (coxa_len self) (femur_len self) (tibia_len self)
          = Ok (Some (coxa, femur, tibia))
          /\ servo_id_of self leg "coxa" = Ok id1
          /\ servo_id_of self leg "femur" = Ok id2
          /\ servo_id_of self leg "tibia" = Ok id3
          /\ tx (bus s')
             = tx (bus self)
               ++ [move_frame self leg "coxa" id1 coxa time_ms;
                   move_frame self leg "femur" id2 femur time_ms;
                   move_frame self leg "tibia" id3 tibia time_ms]
          /\ leg_positions s' = <[leg := (x, y, z)]> (leg_positions self)
    | Raised _ s' => leg_positions s' = leg_positions self
    end).
  { unfold move_leg, mbind, lift.
    destruct (bighex_leg_ik_cases x y z (coxa_len self) (femur_len self)
                (tibia_len self)) as [[e He]|(coxa & femur & tibia & Hik)].
    - now rewrite He.
    - rewrite Hik.
      pose proof (set_leg_angles_cases leg coxa femur tibia time_ms self)
        as Hset.
      destruct (set_leg_angles leg coxa femur tibia time_ms self)
        as [[] s1|e s1]; [|exact Hset].
      destruct Hset as (id1 & id2 & id3 & H1 & H2 & H3 & _ & _ & _ & ->).
      exists coxa, femur, tibia, id1, id2, id3.
      repeat (split; [assumption || reflexivity|]). reflexivity. }
  split; [exact Hcases|]. split.
  - intros other Hne.
    destruct (move_leg leg x y z time_ms self) as [[] s'|e s']; cbn.
    + destruct Hcases as (? & ? & ? & ? & ? & ? & _ & _ & _ & _ & _ & ->).
      now apply lookup_insert_ne.
    + now rewrite Hcases.
  - intros (Hf & Ht & Hft) Hwired.
    destruct (bighex_leg_ik_total x y z (coxa_len self) _ _ Hf Ht Hft)
      as (coxa & femur & tibia & Hik).
    destruct (Hwired "coxa"%string) as (id1 & H1 & B1); [set_solver|].
    destruct (Hwired "femur"%string) as (id2 & H2 & B2); [set_solver|].
    destruct (Hwired "tibia"%string) as (id3 & H3 & B3); [set_solver|].
    unfold move_leg, mbind, lift. rewrite Hik.
    unfold set_leg_angles, mbind.
    rewrite set_servo_cases, H1, B1.
    rewrite set_servo_cases.
    change (servo_id_of (append_tx self _) leg "femur")
      with (servo_id_of self leg "femur").
    rewrite H2, B2. rewrite set_servo_cases.
    change (servo_id_of (append_tx (append_tx self _) _) leg "tibia")
      with (servo_id_of self leg "tibia").
    rewrite H3, B3.
    eexists. split; [reflexivity|]. cbn. apply lookup_insert_eq.
Qed.

Lemma move_leg_stores_after_dispatch_witness :
  exists s',
    move_leg "L1" 120 0 (-80) 500 default_hexapod = Done tt s'
    /\ leg_positions s' !! "L1"%string = Some (120, 0, -80)%R.
Proof.
  destruct (move_leg_stores_after_dispatch
              "L1" 120 0 (-80) 500 default_hexapod) as (_ & _ & Hok).
  apply Hok.
  - unfold geometry_ok. cbn. unfold FEMUR_LENGTH, TIBIA_LENGTH.
    repeat split; lra.
  - intros joint Hj.
    apply list_elem_of_In in Hj. cbn in Hj.
    destruct Hj as [<-|[<-|[<-|[]]]]; eexists; split; reflexivity.
Defined.

Lemma advanced_advanced (self : hexapod) (fs gs : list (list Z))
    (lp lp' : gmap string position) :
  advanced (advanced self fs lp) gs lp' = advanced self (fs ++ gs) lp'.
Proof.
  unfold advanced, append_tx, with_leg_positions, with_bus. cbn.
  now rewrite app_assoc.
Qed.

Lemma advanced_nil (self : hexapod) :
  advanced self [] (leg_positions self) = self.
Proof.
  unfold advanced. rewrite append_tx_nil. now destruct self.
Qed.

Lemma frame_of_command (servo_id cmd : Z) (params : list Z) :
  frame_of servo_id cmd params !! 4%nat = Some cmd.
Proof. reflexivity. Qed.

Lemma frame_of_target (servo_id cmd : Z) (params : list Z) :
  frame_of servo_id cmd params !! 2%nat = Some servo_id.
Proof. reflexivity. Qed.

(** One iteration of the loop of [move_all_legs]: three frames are queued,
    then the position is stored. *)
Lemma prepare_leg_ok (time_ms : Z) (leg : string) (p : position)
    (self : hexapod) :
  geometry_ok self -> leg_wired self leg ->
  exists f1 f2 f3,
    prepare_leg time_ms (leg, p) self
    = Done tt (advanced self [f1; f2; f3] (<[leg := p]> (leg_positions self)))
    /\ Forall (fun f => f !! 4%nat = Some CMD_MOVE_TIME_WAIT_WRITE)
              [f1; f2; f3].
Proof.
  intros (Hf & Ht & Hft) Hwired. destruct p as [[x y] z].
  destruct (bighex_leg_ik_total x y z (coxa_len self) _ _ Hf Ht Hft)
    as (coxa & femur & tibia & Hik).
  destruct (Hwired "coxa"%string) as (id1 & H1 & B1); [set_solver|].
  destruct (Hwired "femur"%string) as (id2 & H2 & B2); [set_solver|].
  destruct (Hwired "tibia"%string) as (id3 & H3 & B3); [set_solver|].
  exists (prepare_frame self leg "coxa" id1 coxa time_ms),
         (prepare_frame self leg "femur" id2 femur time_ms),
         (prepare_frame self leg "tibia" id3 tibia time_ms).
  split.
  - unfold prepare_leg, mbind, lift. rewrite Hik.
    cbn [for_each fst snd]. unfold mbind.
    rewrite prepare_joint_cases, H1, B1.
    rewrite prepare_joint_cases.
    change (servo_id_of (append_tx self _) leg "femur")
      with (servo_id_of self leg "femur").
    rewrite H2, B2. rewrite prepare_joint_cases.
    change (servo_id_of (append_tx (append_tx self _) _) leg "tibia")
      with (servo_id_of self leg "tibia").
    rewrite H3, B3. unfold ret, store_position.
    rewrite !append_tx_app. reflexivity.
  - repeat constructor.
Qed.

Lemma prepare_all_ok (time_ms : Z) (positions : ODict.t position) :
  forall self : hexapod,
    geometry_ok self ->
    (forall item, item ∈ positions -> leg_wired self (fst item)) ->
    exists prepared,
      for_each positions (prepare_leg time_ms) self
      = Done tt (advanced self prepared
                          (store_all positions (leg_positions self)))
      /\ List.length prepared = (3 * List.length positions)%nat
      /\ Forall (fun f => f !! 4%nat = Some CMD_MOVE_TIME_WAIT_WRITE) prepared.
Proof.
  induction positions as [|[leg p] rest IH]; intros self Hgeo Hwired.
  - exists []. cbn. unfold ret. rewrite advanced_nil. auto.
  - destruct (prepare_leg_ok time_ms leg p self Hgeo) as (f1 & f2 & f3 & Hstep & Hfs).
    { apply (Hwired (leg, p)). set_solver. }
    set (s1 := advanced self [f1; f2; f3] (<[leg := p]> (leg_positions self))).
    destruct (IH s1) as (prepared & Hrest & Hlen & Hcmds).
    { exact Hgeo. }
    { intros item Hitem. apply (Hwired item). set_solver. }
    exists ([f1; f2; f3] ++ prepared). split; [|split].
    + cbn [for_each]. unfold mbind at 1. rewrite Hstep. fold s1.
      rewrite Hrest. subst s1. now rewrite advanced_advanced.
    + rewrite length_app, Hlen. simpl List.length. lia.
    + apply Forall_app. split; assumption.
Qed.

(** The state reached by [move_all_legs]. *)
Lemma move_all_legs_ok (positions : ODict.t position) (time_ms : Z)
    (self : hexapod) :
  geometry_ok self ->
  (forall item, item ∈ positions -> leg_wired self (fst item)) ->
  exists prepared,
    move_all_legs positions time_ms self
    = Done tt (advanced self
                 (prepared ++ [frame_of BROADCAST_ID CMD_MOVE_START []])
                 (store_all positions (leg_positions self)))
    /\ List.length prepared = (3 * List.length positions)%nat
    /\ Forall (fun f => f !! 4%nat = Some CMD_MOVE_TIME_WAIT_WRITE) prepared.
Proof.
  intros Hgeo Hwired.
  destruct (prepare_all_ok time_ms positions self Hgeo Hwired)
    as (prepared & Hloop & Hlen & Hcmds).
  exists prepared. split; [|split; assumption].
  unfold move_all_legs, mbind. rewrite Hloop.
  unfold on_bus. rewrite bus_move_start_broadcast.
  unfold advanced, append_tx, with_leg_positions, with_bus. cbn.
  now rewrite app_assoc.
Qed.

Lemma prepared_not_dispatch (prepared : list (list Z)) :
  Forall (fun f => f !! 4%nat = Some CMD_MOVE_TIME_WAIT_WRITE) prepared ->
  List.filter is_dispatch prepared = [].
Proof.
  induction 1 as [|f fs Hf _ IH]; [reflexivity|].
  cbn [List.filter]. unfold is_dispatch at 1. rewrite Hf. exact IH.
Qed.

(** C6.  A multi-leg move queues three prepare frames per leg and then
    writes one start frame addressed to the broadcast id: of the frames
    written, that frame is the only one that sets servos in motion. *)
Theorem move_all_legs_single_broadcast
    (positions : ODict.t position) (time_ms : Z) (self : hexapod) :
  geometry_ok self ->
  (forall item, item ∈ positions -> leg_wired self (fst item)) ->
  exists prepared s',
    move_all_legs positions time_ms self = Done tt s'
    /\ tx (bus s')
       = tx (bus self) ++ prepared
         ++ [frame_of BROADCAST_ID CMD_MOVE_START []]
    /\ List.length prepared = (3 * List.length positions)%nat
    /\ Forall (fun f => f !! 4%nat = Some CMD_MOVE_TIME_WAIT_WRITE) prepared
    /\ List.filter is_dispatch
         (prepared ++ [frame_of BROADCAST_ID CMD_MOVE_START []])
       = [[85; 85; BROADCAST_ID; 3; CMD_MOVE_START; 243]].
Proof.
  intros Hgeo Hwired.
  destruct (move_all_legs_ok positions time_ms self Hgeo Hwired)
    as (prepared & Hrun & Hlen & Hcmds).
  exists prepared. eexists. split; [exact Hrun|].
  split; [reflexivity|]. split; [exact Hlen|]. split; [exact Hcmds|].
  rewrite List.filter_app, prepared_not_dispatch by exact Hcmds.
  reflexivity.
Qed.

Lemma move_all_legs_single_broadcast_witness :
  exists prepared s',
    move_all_legs [("L1"%string, (100, 0, -40)%R)] 200 default_hexapod
    = Done tt s'
    /\ tx (bus s')
       = tx (bus default_hexapod) ++ prepared
         ++ [frame_of BROADCAST_ID CMD_MOVE_START []]
    /\ List.length prepared = (3 * 1)%nat
    /\ Forall (fun f => f !! 4%nat = Some CMD_MOVE_TIME_WAIT_WRITE) prepared
    /\ List.filter is_dispatch
         (prepared ++ [frame_of BROADCAST_ID CMD_MOVE_START []])
       = [[85; 85; BROADCAST_ID; 3; CMD_MOVE_START; 243]].
Proof.
  apply (move_all_legs_single_broadcast
           [("L1"%string, (100, 0, -40)%R)] 200 default_hexapod).
  - unfold geometry_ok. cbn. unfold FEMUR_LENGTH, TIBIA_LENGTH.
    repeat split; lra.
  - intros item Hitem. apply list_elem_of_In in Hitem. cbn in Hitem.
    destruct Hitem as [<-|[]]. intros joint Hj.
    apply list_elem_of_In in Hj. cbn in Hj.
    destruct Hj as [<-|[<-|[<-|[]]]]; eexists; split; reflexivity.
Defined.

End LegController.

(** ** Stored foot positions and pauses *)

Lemma odict_lookup_setitem_eq {V} (d : ODict.t V) (k : string) (v : V) :
  <[k := v]> d !! k = Some v.
Proof.
  unfold insert, odict_insert, lookup, odict_lookup.
  induction d as [|[k' v'] d IH]; cbn [ODict.setitem ODict.lookup].
  - now rewrite decide_True.
  - destruct (decide (k = k')) as [->|Hne]; cbn [ODict.lookup].
    + now rewrite decide_True.
    + now rewrite decide_False.
Qed.

Lemma odict_lookup_setitem_ne {V} (d : ODict.t V) (k k' : string) (v : V) :
  k <> k' -> <[k := v]> d !! k' = d !! k'.
Proof.
  intros Hne. unfold insert, odict_insert, lookup, odict_lookup.
  induction d as [|[k0 v0] d IH]; cbn [ODict.setitem ODict.lookup].
  - now rewrite decide_False by congruence.
  - destruct (decide (k = k0)) as [->|Hk]; cbn [ODict.lookup].
    + now rewrite !decide_False by congruence.
    + destruct (decide (k' = k0)); [reflexivity|apply IH].
Qed.

Lemma odict_setitem_twice {V} (d : ODict.t V) (k : string) (v w : V) :
  <[k := w]> (<[k := v]> d) = <[k := w]> d.
Proof.
  unfold insert, odict_insert.
  induction d as [|[k0 v0] d IH]; cbn [ODict.setitem].
  - now rewrite decide_True.
  - destruct (decide (k = k0)) as [->|Hk]; cbn [ODict.setitem].
    + now rewrite decide_True.
    + rewrite decide_False by assumption. now rewrite IH.
Qed.

(** The keys of a dict are the keys that can be looked up. *)
Lemma odict_lookup_keys {V} (d : ODict.t V) (k : string) :
  is_Some (d !! k) <-> k ∈ ODict.keys d.
Proof.
  unfold lookup, odict_lookup, ODict.keys.
  induction d as [|[k0 v0] d IH]; cbn [ODict.lookup fmap list_fmap fst].
  - split; [now intros [? ?]|set_solver].
  - destruct (decide (k = k0)) as [->|Hk].
    + split; [set_solver|eauto].
    + rewrite IH. set_solver.
Qed.

(** Assigning to a key the dict has leaves its keys as they are. *)
Lemma odict_keys_setitem {V} (d : ODict.t V) (k : string) (v : V) :
  k ∈ ODict.keys d -> ODict.keys (<[k := v]> d) = ODict.keys d.
Proof.
  unfold insert, odict_insert, ODict.keys.
  induction d as [|[k0 v0] d IH]; cbn [ODict.setitem fmap list_fmap fst];
    intros Hk; [set_solver|].
  destruct (decide (k = k0)) as [->|Hne]; [reflexivity|].
  cbn [fmap list_fmap fst]. f_equal. apply IH. set_solver.
Qed.

#[global] Instance gmap_stored : Stored (gmap string position).
Proof.
  split.
  - intros lp k p. apply lookup_insert_eq.
  - intros lp k k' p Hne. now apply lookup_insert_ne.
  - intros lp k p q. apply insert_insert_eq.
Qed.

#[global] Instance odict_stored : Stored (ODict.t position).
Proof.
  split.
  - intros lp k p. apply odict_lookup_setitem_eq.
  - intros lp k k' p Hne. now apply odict_lookup_setitem_ne.
  - intros lp k p q. apply odict_setitem_twice.
Qed.

Section Positions.

Context {D : Type} `{Stored D}.

Lemma moved_is_Some (target : position -> position) (legs : list string) :
  forall (lp : D) (k : string),
    is_Some (lp !! k) -> is_Some (moved legs target lp !! k).
Proof.
  induction legs as [|l rest IH]; intros lp k Hk; [exact Hk|].
  cbn [moved]. destruct (lp !! l) as [p|] eqn:Hp; [|exact Hk].
  apply IH. destruct (decide (l = k)) as [->|Hne].
  - rewrite lookup_stored_eq. eauto.
  - now rewrite lookup_stored_ne.
Qed.

Lemma moved_lookup (target : position -> position) (legs : list string) :
  forall (lp : D) (k : string),
    NoDup legs ->
    (forall l, l ∈ legs -> is_Some (lp !! l)) ->
    moved legs target lp !! k
    = if decide (k ∈ legs) then target <$> lp !! k else lp !! k.
Proof.
  induction legs as [|l rest IH]; intros lp k Hnd Hsome.
  - cbn. destruct (decide (k ∈ [])) as [Hin|_]; [set_solver|reflexivity].
  - apply NoDup_cons in Hnd as [Hl Hnd].
    destruct (Hsome l ltac:(set_solver)) as [p Hp].
    cbn [moved]. rewrite Hp. rewrite IH; [|assumption|].
    2:{ intros l' Hl'. destruct (decide (l = l')) as [->|Hne].
        - rewrite lookup_stored_eq. eauto.
        - rewrite lookup_stored_ne by assumption. apply Hsome. set_solver. }
    destruct (decide (k ∈ rest)) as [Hin|Hout].
    + rewrite decide_True by set_solver.
      rewrite lookup_stored_ne by (intros ->; contradiction). reflexivity.
    + destruct (decide (k = l)) as [->|Hne].
      * rewrite decide_True by set_solver.
        rewrite lookup_stored_eq, Hp. reflexivity.
      * rewrite decide_False by set_solver.
        now apply lookup_stored_ne.
Qed.

Lemma some_displaced (lp lp' : D) (l : string)
    (p q : position) (ddx ddy : R) :
  lp !! l = Some p -> lp' !! l = Some q ->
  (fst (fst q) - fst (fst p) = ddx)%R ->
  (snd (fst q) - snd (fst p) = ddy)%R ->
  displaced lp lp' l ddx ddy.
Proof.
  destruct p as [[x y] z], q as [[x' y'] z']. cbn. intros.
  exists x, y, z, x', y', z'. auto.
Qed.

Lemma displaced_unique (lp lp' : D) (l : string)
    (d1 e1 d2 e2 : R) :
  displaced lp lp' l d1 e1 -> displaced lp lp' l d2 e2 -> d1 = d2 /\ e1 = e2.
Proof.
  intros (x & y & z & x' & y' & z' & Hb & Ha & Hx & Hy)
         (u & v & w & u' & v' & w' & Hb' & Ha' & Hu & Hv).
  rewrite Hb in Hb'. rewrite Ha in Ha'.
  injection Hb' as <- <- <-. injection Ha' as <- <- <-. lra.
Qed.

End Positions.

(** A loop over stored legs of an insertion-ordered dict leaves its keys
    as they are. *)
Lemma keys_moved (target : position -> position) (legs : list string) :
  forall lp : ODict.t position,
    ODict.keys (moved legs target lp) = ODict.keys lp.
Proof.
  induction legs as [|l rest IH]; intros lp; [reflexivity|].
  cbn [moved]. destruct (lp !! l) as [p|] eqn:Hp; [|reflexivity].
  rewrite IH. apply odict_keys_setitem.
  apply odict_lookup_keys. rewrite Hp. eauto.
Qed.

(** A loop over all the keys of an insertion-ordered dict. *)
Lemma moved_keys_lookup (target : position -> position)
    (lp : ODict.t position) (k : string) :
  NoDup (ODict.keys lp) ->
  moved (ODict.keys lp) target lp !! k = target <$> lp !! k.
Proof.
  intros Hnd. rewrite moved_lookup; [|exact Hnd|].
  2:{ intros l Hl. now apply odict_lookup_keys. }
  destruct (decide (k ∈ ODict.keys lp)) as [Hin|Hout]; [reflexivity|].
  destruct (lp !! k) as [p|] eqn:Hp; [|reflexivity].
  exfalso. apply Hout, odict_lookup_keys. rewrite Hp. eauto.
Qed.

Lemma sleep_ok {S} (seconds : R) (s : S) :
  (0 <= seconds)%R -> sleep seconds s = Done tt s.
Proof.
  intros Hs. unfold sleep. destruct (Rlt_dec seconds 0); [lra|reflexivity].
Qed.

Lemma sleep_negative {S} (seconds : R) (s : S) :
  (seconds < 0)%R -> sleep seconds s = Raised ValueError s.
Proof.
  intros Hs. unfold sleep. destruct (Rlt_dec seconds 0); [reflexivity|lra].
Qed.

Lemma sleep_ms_ok {S} (move_time : Z) (s : S) :
  (0 <= move_time)%Z -> sleep (IZR move_time / 1000) s = Done tt s.
Proof.
  intros Hm. apply sleep_ok. apply IZR_le in Hm. lra.
Qed.

Lemma sleep_ms_negative {S} (move_time : Z) (s : S) :
  (move_time < 0)%Z -> sleep (IZR move_time / 1000) s = Raised ValueError s.
Proof.
  intros Hm. apply sleep_negative. apply IZR_lt in Hm. lra.
Qed.

Lemma py_int_nonneg (r : R) : (0 <= r)%R -> (0 <= IK.py_int r)%Z.
Proof.
  intros Hr. unfold IK.py_int.
  destruct (Rle_dec 0 r) as [_|Hn]; [|contradiction].
  now apply Zfloor_lub.
Qed.

Lemma py_int_negative (r : R) : (r <= -1)%R -> (IK.py_int r < 0)%Z.
Proof.
  intros Hr. unfold IK.py_int.
  destruct (Rle_dec 0 r) as [Hp|_]; [lra|].
  unfold Zceil.
  assert (Hf : (1 <= Zfloor (- r))%Z) by (apply Zfloor_lub; lra).
  lia.
Qed.

(** ** Tripod gait *)

Section TripodGait.

Local Open Scope R_scope.

Lemma setitem_fresh {V} (d : ODict.t V) (k : string) (v : V) :
  k ∉ d.*1 -> ODict.setitem d k v = d ++ [(k, v)].
Proof.
  induction d as [|[k' v'] d IH]; intros Hk; [reflexivity|].
  cbn [ODict.setitem]. cbn in Hk.
  destruct (decide (k = k')) as [->|Hne]; [set_solver|].
  cbn [app]. f_equal. apply IH. set_solver.
Qed.

Lemma entries_keys (legs : list string) (f : position -> position)
    (lp : gmap string position) :
  (entries legs f lp).*1 ⊆ legs.
Proof.
  induction legs as [|leg rest IH]; [set_solver|].
  cbn [entries]. destruct (lp !! leg); cbn; set_solver.
Qed.

Lemma store_all_app (d1 d2 : ODict.t position) (m : gmap string position) :
  store_all (d1 ++ d2) m = store_all d2 (store_all d1 m).
Proof. unfold store_all. apply fold_left_app. Qed.

Lemma store_all_cons (k : string) (v : position) (d : ODict.t position)
    (m : gmap string position) :
  store_all ((k, v) :: d) m = store_all d (<[k := v]> m).
Proof. reflexivity. Qed.

Lemma store_all_notin (d : ODict.t position) :
  forall (m : gmap string position) (k : string),
    k ∉ d.*1 -> store_all d m !! k = m !! k.
Proof.
  induction d as [|[k' v'] d IH]; intros m k Hk; [reflexivity|].
  cbn in Hk. rewrite store_all_cons.
  rewrite IH by set_solver. apply lookup_insert_ne. set_solver.
Qed.

(** The positions stored from the items of [entries]. *)
Lemma store_entries_lookup (legs : list string) (f : position -> position)
    (lp : gmap string position) :
  NoDup legs ->
  (forall l, l ∈ legs -> is_Some (lp !! l)) ->
  forall (m : gmap string position) (leg : string),
    store_all (entries legs f lp) m !! leg
    = if decide (leg ∈ legs) then f <$> lp !! leg else m !! leg.
Proof.
  induction legs as [|l rest IH]; intros Hnd Hsome m leg.
  - cbn. destruct (decide (leg ∈ [])) as [H|_]; [set_solver|reflexivity].
  - apply NoDup_cons in Hnd as [Hl Hnd].
    destruct (Hsome l ltac:(set_solver)) as [p Hp].
    cbn [entries]. rewrite Hp.
    rewrite store_all_cons.
    rewrite IH by (try assumption; intros; apply Hsome; set_solver).
    destruct (decide (leg ∈ rest)) as [Hin|Hout].
    + rewrite decide_True by set_solver. reflexivity.
    + destruct (decide (leg = l)) as [->|Hne].
      * rewrite decide_True by set_solver.
        rewrite lookup_insert_eq, Hp. reflexivity.
      * rewrite decide_False by set_solver.
        now apply lookup_insert_ne.
Qed.

Lemma fill_ok (legs : list string) (f : position -> position) :
  forall (d : ODict.t position) (self : BigHex.hexapod),
    NoDup legs ->
    (forall l, l ∈ legs -> l ∉ d.*1) ->
    (forall l, l ∈ legs -> is_Some (BigHex.leg_positions self !! l)) ->
    BigHex.fill legs f d self
    = Done (d ++ entries legs f (BigHex.leg_positions self)) self.
Proof.
  induction legs as [|l rest IH]; intros d self Hnd Hfresh Hsome.
  - cbn. unfold ret. now rewrite app_nil_r.
  - apply NoDup_cons in Hnd as [Hl Hnd].
    destruct (Hsome l ltac:(set_solver)) as [p Hp].
    cbn [BigHex.fill entries]. unfold mbind, BigHex.load_position, lift, getitem.
    rewrite Hp. rewrite setitem_fresh by (apply Hfresh; set_solver).
    rewrite IH.
    + now rewrite <- app_assoc.
    + assumption.
    + intros l' Hl'. rewrite fmap_app. cbn.
      assert (l' <> l) by (intros ->; contradiction).
      specialize (Hfresh l' ltac:(set_solver)). set_solver.
    + intros l' Hl'. apply Hsome. set_solver.
Qed.

Lemma store_all_is_Some (d : ODict.t position) :
  forall (m : gmap string position) (k : string),
    is_Some (m !! k) -> is_Some (store_all d m !! k).
Proof.
  induction d as [|[k' v'] d IH]; intros m k Hk; [exact Hk|].
  rewrite store_all_cons. apply IH.
  destruct (decide (k' = k)) as [->|Hne].
  - rewrite lookup_insert_eq. eauto.
  - now rewrite lookup_insert_ne.
Qed.

Lemma entries_wired (self : BigHex.hexapod) (legs : list string)
    (f : position -> position) (lp : gmap string position) :
  (forall l, l ∈ legs -> leg_wired self l) ->
  forall item, item ∈ entries legs f lp -> leg_wired self (fst item).
Proof.
  intros Hwired item Hitem. apply Hwired.
  apply (entries_keys legs f lp). now apply list_elem_of_fmap_2.
Qed.

Lemma NoDup_app_parts (swing stance : list string) :
  NoDup (swing ++ stance) ->
  NoDup swing /\ NoDup stance /\ (forall l, l ∈ swing -> l ∉ stance).
Proof. intros H. apply NoDup_app in H. tauto. Qed.

(** One [_tripod_step] of the serial-bus robot runs to completion and
    leaves the stored positions [tripod_positions]. *)
Lemma bighex_tripod_step_ok (h : R) (swing stance : list string)
    (dx dy lift : R) (move_time : Z) (self : BigHex.hexapod) :
  (0 <= move_time)%Z ->
  geometry_ok self ->
  NoDup (swing ++ stance) ->
  (forall l, l ∈ swing ++ stance ->
     leg_wired self l /\ is_Some (BigHex.leg_positions self !! l)) ->
  exists frames,
    BigHex._tripod_step h swing stance dx dy lift move_time self
    = Done tt (advanced self frames
                 (tripod_positions h swing stance dx dy lift
                                   (BigHex.leg_positions self))).
Proof.
  intros Htime Hgeo Hnd Hlegs.
  destruct (NoDup_app_parts _ _ Hnd) as (Hsw & Hst & Hdisj).
  assert (Hwsw : forall l, l ∈ swing -> leg_wired self l).
  { intros l Hl. apply Hlegs. set_solver. }
  assert (Hwst : forall l, l ∈ stance -> leg_wired self l).
  { intros l Hl. apply Hlegs. set_solver. }
  assert (Hwall : forall l, l ∈ swing ++ stance -> leg_wired self l).
  { intros l Hl. now apply Hlegs. }
  set (lp := BigHex.leg_positions self).
  assert (Hsome : forall l, l ∈ swing ++ stance -> is_Some (lp !! l)).
  { intros l Hl. now apply Hlegs. }
  unfold tripod_positions. fold lp.
  set (f1 := raise_by lift). set (f2 := swing_by dx dy).
  set (f3 := push_by (dx / 2) (dy / 2)). set (f4 := lower_to h).
  set (lp1 := store_all (entries swing f1 lp) lp).
  set (lp2 := store_all (entries swing f2 lp1 ++ entries stance f3 lp1) lp1).
  assert (Hsome1 : forall l, l ∈ swing ++ stance -> is_Some (lp1 !! l)).
  { intros l Hl. apply store_all_is_Some. now apply Hsome. }
  assert (Hsome2 : forall l, l ∈ swing ++ stance -> is_Some (lp2 !! l)).
  { intros l Hl. apply store_all_is_Some. now apply Hsome1. }
  unfold BigHex._tripod_step. fold f1 f2 f3 f4.
  (* lift *)
  unfold mbind at 1.
  rewrite fill_ok; [|assumption|set_solver|intros; apply Hsome; set_solver].
  cbn [app]. fold lp. unfold mbind at 1.
  destruct (move_all_legs_ok (entries swing f1 lp) move_time self Hgeo)
    as (fr1 & Hrun1 & _).
  { now apply entries_wired. }
  rewrite Hrun1. fold lp lp1.
  set (s1 := advanced self _ lp1).
  unfold mbind at 1. rewrite sleep_ms_ok by exact Htime.
  (* swing and push *)
  unfold mbind at 1.
  rewrite fill_ok; [|assumption|set_solver|intros; apply Hsome1; set_solver].
  cbn [app]. change (BigHex.leg_positions s1) with lp1. unfold mbind at 1.
  rewrite fill_ok; [|assumption| |intros; apply Hsome1; set_solver].
  2:{ intros l Hl Hin. apply (entries_keys swing f2 lp1) in Hin.
      now apply (Hdisj l). }
  change (BigHex.leg_positions s1) with lp1. unfold mbind at 1.
  destruct (move_all_legs_ok
              (entries swing f2 lp1 ++ entries stance f3 lp1) move_time s1 Hgeo)
    as (fr2 & Hrun2 & _).
  { intros item Hitem. apply elem_of_app in Hitem as [Hitem|Hitem].
    - now apply (entries_wired self swing f2 lp1).
    - now apply (entries_wired self stance f3 lp1). }
  rewrite Hrun2. change (BigHex.leg_positions s1) with lp1. fold lp2.
  set (s2 := advanced s1 _ lp2).
  unfold mbind at 1. rewrite sleep_ms_ok by exact Htime.
  (* lower *)
  unfold mbind at 1.
  rewrite fill_ok; [|assumption|set_solver|intros; apply Hsome2; set_solver].
  cbn [app]. change (BigHex.leg_positions s2) with lp2. unfold mbind at 1.
  destruct (move_all_legs_ok (entries swing f4 lp2) move_time s2 Hgeo)
    as (fr3 & Hrun3 & _).
  { now apply (entries_wired self swing f4 lp2). }
  rewrite Hrun3. change (BigHex.leg_positions s2) with lp2.
  rewrite sleep_ms_ok by exact Htime.
  subst s2 s1. rewrite !advanced_advanced. eauto.
Qed.

(** The displacements of one [_tripod_step] of the serial-bus robot. *)
Lemma tripod_positions_displaced (h : R) (swing stance : list string)
    (dx dy lift : R) (lp : gmap string position) :
  NoDup (swing ++ stance) ->
  (forall l, l ∈ swing ++ stance -> is_Some (lp !! l)) ->
  forall l,
    (l ∈ swing ->
       displaced lp (tripod_positions h swing stance dx dy lift lp) l dx dy)
    /\ (l ∈ stance ->
          displaced lp (tripod_positions h swing stance dx dy lift lp) l
                    (- (dx / 2)) (- (dy / 2))).
Proof.
  intros Hnd Hsome l.
  destruct (NoDup_app_parts _ _ Hnd) as (Hsw & Hst & Hdisj).
  unfold tripod_positions.
  set (lp1 := store_all (entries swing (raise_by lift) lp) lp).
  set (lp2 := store_all (entries swing (swing_by dx dy) lp1
                         ++ entries stance (push_by (dx / 2) (dy / 2)) lp1) lp1).
  assert (Hsome1 : forall l, l ∈ swing ++ stance -> is_Some (lp1 !! l)).
  { intros l' Hl. apply store_all_is_Some. now apply Hsome. }
  assert (Hsome2 : forall l, l ∈ swing ++ stance -> is_Some (lp2 !! l)).
  { intros l' Hl. apply store_all_is_Some. now apply Hsome1. }
  assert (H1 : forall k, lp1 !! k
               = if decide (k ∈ swing) then raise_by lift <$> lp !! k
                 else lp !! k).
  { intros k. apply store_entries_lookup; [assumption|].
    intros; apply Hsome; set_solver. }
  assert (H2 : forall k, lp2 !! k
               = if decide (k ∈ stance)
                 then push_by (dx / 2) (dy / 2) <$> lp1 !! k
                 else if decide (k ∈ swing) then swing_by dx dy <$> lp1 !! k
                      else lp1 !! k).
  { intros k. unfold lp2. rewrite store_all_app.
    rewrite store_entries_lookup;
      [|assumption|intros; apply Hsome1; set_solver].
    destruct (decide (k ∈ stance)); [reflexivity|].
    apply store_entries_lookup; [assumption|].
    intros; apply Hsome1; set_solver. }
  assert (H3 : forall k, store_all (entries swing (lower_to h) lp2) lp2 !! k
               = if decide (k ∈ swing) then lower_to h <$> lp2 !! k
                 else lp2 !! k).
  { intros k. apply store_entries_lookup; [assumption|].
    intros; apply Hsome2; set_solver. }
  split; intros Hl.
  - destruct (Hsome l ltac:(set_solver)) as [[[x y] z] Hp].
    assert (Hns : l ∉ stance) by now apply Hdisj.
    eapply some_displaced; [exact Hp| | |].
    + rewrite H3, decide_True by assumption.
      rewrite H2, decide_False, decide_True by assumption.
      rewrite H1, decide_True, Hp by assumption. reflexivity.
    + cbn. lra.
    + cbn. lra.
  - destruct (Hsome l ltac:(set_solver)) as [[[x y] z] Hp].
    assert (Hns : l ∉ swing) by (intros Hin; now apply (Hdisj l)).
    eapply some_displaced; [exact Hp| | |].
    + rewrite H3, decide_False by assumption.
      rewrite H2, decide_True by assumption.
      rewrite H1, decide_False, Hp by assumption. reflexivity.
    + cbn. lra.
    + cbn. lra.
Qed.

Lemma tripod_positions_is_Some (h : R) (swing stance : list string)
    (dx dy lift : R) (lp : gmap string position) (l : string) :
  is_Some (lp !! l) ->
  is_Some (tripod_positions h swing stance dx dy lift lp !! l).
Proof.
  intros H. unfold tripod_positions. now do 3 apply store_all_is_Some.
Qed.

Lemma pwm_advanced_advanced (self : Hex.hexapod)
    (es fs : list (Z * Z * Z)) (lp lp' : ODict.t position) :
  pwm_advanced (pwm_advanced self es lp) fs lp'
  = pwm_advanced self (es ++ fs) lp'.
Proof.
  unfold pwm_advanced, Hex.with_leg_positions, Hex.with_pwm. cbn.
  now rewrite app_assoc.
Qed.

Lemma pwm_advanced_nil (self : Hex.hexapod) :
  pwm_advanced self [] (Hex.leg_positions self) = self.
Proof.
  unfold pwm_advanced, Hex.with_leg_positions, Hex.with_pwm. cbn.
  rewrite app_nil_r. now destruct self.
Qed.

Lemma leg_positions_pwm_advanced (self : Hex.hexapod)
    (es : list (Z * Z * Z)) (lp : ODict.t position) :
  Hex.leg_positions (pwm_advanced self es lp) = lp.
Proof. reflexivity. Qed.

Lemma pwm_wired_advanced (self : Hex.hexapod) (es : list (Z * Z * Z))
    (lp : ODict.t position) (l : string) :
  pwm_wired self l -> pwm_wired (pwm_advanced self es lp) l.
Proof. intros Hw. exact Hw. Qed.

Lemma pwm_set_servo_ok (leg joint : string) (angle : R) (self : Hex.hexapod) :
  pwm_wired self leg -> joint ∈ ["coxa"; "femur"; "tibia"]%string ->
  exists events,
    Hex.set_servo leg joint angle self
    = Done tt (pwm_advanced self events (Hex.leg_positions self)).
Proof.
  intros Hwired Hj.
  destruct (Hwired joint Hj) as (pc & direction & sr & Hpc & Hdir & Hsr & Hpca).
  unfold Hex.set_servo, Hex.servo_pulse. rewrite Hpc, Hdir. cbn [bind].
  rewrite (angle_to_pulse_entry _ _ _ sr) by assumption. cbn [bind].
  destruct (Hex.simulate self) eqn:Hsim.
  - exists []. now rewrite pwm_advanced_nil.
  - destruct Hpca as [Hpca|Hpca]; [discriminate|]. rewrite Hpca.
    eexists. unfold pwm_advanced, Hex.with_leg_positions, Hex.with_pwm. cbn.
    reflexivity.
Qed.

Lemma pwm_move_leg_ok (leg : string) (x y z : R) (self : Hex.hexapod) :
  pwm_wired self leg ->
  exists events,
    Hex.move_leg leg x y z self
    = Done tt (pwm_advanced self events
                 (<[leg := (x, y, z)]> (Hex.leg_positions self))).
Proof.
  intros Hwired.
  destruct (hex_leg_ik_total x y z Hex.COXA_LENGTH Hex.FEMUR_LENGTH
              Hex.TIBIA_LENGTH) as (coxa & femur & tibia & warned & Hik);
    try (unfold Hex.FEMUR_LENGTH, Hex.TIBIA_LENGTH; lra).
  unfold Hex.move_leg. unfold mbind at 1. unfold lift. rewrite Hik.
  unfold mbind at 1.
  destruct (pwm_set_servo_ok leg "coxa" coxa self Hwired) as (e1 & ->);
    [set_solver|].
  set (s1 := pwm_advanced self e1 _).
  unfold mbind at 1.
  destruct (pwm_set_servo_ok leg "femur" femur s1 Hwired) as (e2 & ->);
    [set_solver|].
  set (s2 := pwm_advanced s1 e2 _).
  unfold mbind at 1.
  destruct (pwm_set_servo_ok leg "tibia" tibia s2 Hwired) as (e3 & ->);
    [set_solver|].
  exists (e1 ++ e2 ++ e3). unfold Hex.store_position.
  subst s2 s1. unfold pwm_advanced, Hex.with_leg_positions, Hex.with_pwm. cbn.
  now rewrite <- !app_assoc.
Qed.

Lemma move_each_cons (target : position -> position) (l : string)
    (rest : list string) (self : Hex.hexapod) (p : position) :
  Hex.leg_positions self !! l = Some p ->
  Hex.move_each (l :: rest) target self
  = match Hex.move_leg l (target p).1.1 (target p).1.2 (target p).2 self with
    | Done _ s' => Hex.move_each rest target s'
    | Raised e s' => Raised e s'
    end.
Proof.
  intros Hp. unfold Hex.move_each. cbn [for_each].
  unfold mbind at 1. unfold mbind at 1.
  unfold Hex.load_position, lift, getitem. rewrite Hp.
  now destruct (target p) as [[x y] z].
Qed.

Lemma pwm_move_each_ok (target : position -> position) (legs : list string) :
  forall self : Hex.hexapod,
    (forall l, l ∈ legs -> pwm_wired self l) ->
    (forall l, l ∈ legs -> is_Some (Hex.leg_positions self !! l)) ->
    exists events,
      Hex.move_each legs target self
      = Done tt (pwm_advanced self events
                   (moved legs target (Hex.leg_positions self))).
Proof.
  induction legs as [|l rest IH]; intros self Hwired Hsome.
  - exists []. cbn. unfold ret. now rewrite pwm_advanced_nil.
  - destruct (Hsome l ltac:(set_solver)) as [p Hp].
    rewrite (move_each_cons target l rest self p Hp).
    cbn [moved]. rewrite Hp.
    destruct (pwm_move_leg_ok l (target p).1.1 (target p).1.2 (target p).2 self)
      as (e1 & ->); [apply Hwired; set_solver|].
    replace ((target p).1.1, (target p).1.2, (target p).2) with (target p)
      by now destruct (target p) as [[? ?] ?].
    set (s1 := pwm_advanced self e1 _).
    destruct (IH s1) as (e2 & Hrest).
    { intros l' Hl'. apply (Hwired l'). set_solver. }
    { intros l' Hl'. unfold s1. rewrite leg_positions_pwm_advanced.
      destruct (decide (l = l')) as [->|Hne].
      - rewrite lookup_stored_eq. eauto.
      - rewrite lookup_stored_ne by assumption. apply Hsome. set_solver. }
    rewrite Hrest.
    exists (e1 ++ e2). subst s1. now rewrite pwm_advanced_advanced.
Qed.

(** One [_tripod_step] of the PWM robot runs to completion and leaves the
    stored positions [pwm_tripod_positions]. *)
Lemma pwm_tripod_step_ok (h : R) (swing stance : list string)
    (dx dy lift t : R) (self : Hex.hexapod) :
  0 <= t ->
  (forall l, l ∈ swing ++ stance ->
     pwm_wired self l /\ is_Some (Hex.leg_positions self !! l)) ->
  exists events,
    Hex._tripod_step h swing stance dx dy lift t self
    = Done tt (pwm_advanced self events
                 (pwm_tripod_positions h swing stance dx dy lift
                                       (Hex.leg_positions self))).
Proof.
  intros Htime Hlegs.
  assert (Hpause : 0 <= t / 3) by lra.
  assert (Hwsw : forall l, l ∈ swing -> pwm_wired self l).
  { intros l Hl. apply Hlegs. set_solver. }
  assert (Hwst : forall l, l ∈ stance -> pwm_wired self l).
  { intros l Hl. apply Hlegs. set_solver. }
  set (lp := Hex.leg_positions self).
  assert (Hsome : forall l, l ∈ swing ++ stance -> is_Some (lp !! l)).
  { intros l Hl. now apply Hlegs. }
  unfold pwm_tripod_positions. fold lp.
  set (lp1 := moved swing (raise_by lift) lp).
  set (lp2 := moved swing (swing_by (dx / 2) (dy / 2)) lp1).
  set (lp3 := moved stance (push_by (dx / 2) (dy / 2)) lp2).
  unfold Hex._tripod_step.
  unfold mbind at 1.
  destruct (pwm_move_each_ok (raise_by lift) swing self Hwsw) as (e1 & ->).
  { intros; apply Hsome; set_solver. }
  fold lp lp1. set (s1 := pwm_advanced self e1 lp1).
  unfold mbind at 1. rewrite sleep_ok by exact Hpause.
  unfold mbind at 1.
  destruct (pwm_move_each_ok (swing_by (dx / 2) (dy / 2)) swing s1 Hwsw)
    as (e2 & ->).
  { intros l Hl. apply moved_is_Some. apply Hsome. set_solver. }
  change (Hex.leg_positions s1) with lp1. fold lp2.
  set (s2 := pwm_advanced s1 e2 lp2).
  unfold mbind at 1.
  destruct (pwm_move_each_ok (push_by (dx / 2) (dy / 2)) stance s2 Hwst)
    as (e3 & ->).
  { intros l Hl. do 2 apply moved_is_Some. apply Hsome. set_solver. }
  change (Hex.leg_positions s2) with lp2. fold lp3.
  set (s3 := pwm_advanced s2 e3 lp3).
  unfold mbind at 1. rewrite sleep_ok by exact Hpause.
  unfold mbind at 1.
  destruct (pwm_move_each_ok (lower_to h) swing s3 Hwsw) as (e4 & ->).
  { intros l Hl. do 3 apply moved_is_Some. apply Hsome. set_solver. }
  change (Hex.leg_positions s3) with lp3.
  rewrite sleep_ok by exact Hpause.
  subst s3 s2 s1. rewrite !pwm_advanced_advanced. eauto.
Qed.

(** The displacements of one [_tripod_step] of the PWM robot. *)
Lemma pwm_tripod_positions_displaced (h : R) (swing stance : list string)
    (dx dy lift : R) (lp : ODict.t position) :
  NoDup (swing ++ stance) ->
  (forall l, l ∈ swing ++ stance -> is_Some (lp !! l)) ->
  forall l,
    (l ∈ swing ->
       displaced lp (pwm_tripod_positions h swing stance dx dy lift lp) l
                 (dx / 2) (dy / 2))
    /\ (l ∈ stance ->
          displaced lp (pwm_tripod_positions h swing stance dx dy lift lp) l
                    (- (dx / 2)) (- (dy / 2))).
Proof.
  intros Hnd Hsome l.
  destruct (NoDup_app_parts _ _ Hnd) as (Hsw & Hst & Hdisj).
  unfold pwm_tripod_positions.
  set (lp1 := moved swing (raise_by lift) lp).
  set (lp2 := moved swing (swing_by (dx / 2) (dy / 2)) lp1).
  set (lp3 := moved stance (push_by (dx / 2) (dy / 2)) lp2).
  assert (H1 : forall k, lp1 !! k
               = if decide (k ∈ swing) then raise_by lift <$> lp !! k
                 else lp !! k).
  { intros k. apply moved_lookup; [assumption|].
    intros; apply Hsome; set_solver. }
  assert (H2 : forall k, lp2 !! k
               = if decide (k ∈ swing)
                 then swing_by (dx / 2) (dy / 2) <$> lp1 !! k
                 else lp1 !! k).
  { intros k. apply moved_lookup; [assumption|].
    intros; apply moved_is_Some; apply Hsome; set_solver. }
  assert (H3 : forall k, lp3 !! k
               = if decide (k ∈ stance)
                 then push_by (dx / 2) (dy / 2) <$> lp2 !! k
                 else lp2 !! k).
  { intros k. apply moved_lookup; [assumption|].
    intros; do 2 apply moved_is_Some; apply Hsome; set_solver. }
  assert (H4 : forall k, moved swing (lower_to h) lp3 !! k
               = if decide (k ∈ swing) then lower_to h <$> lp3 !! k
                 else lp3 !! k).
  { intros k. apply moved_lookup; [assumption|].
    intros; do 3 apply moved_is_Some; apply Hsome; set_solver. }
  split; intros Hl.
  - destruct (Hsome l ltac:(set_solver)) as [[[x y] z] Hp].
    assert (Hns : l ∉ stance) by now apply Hdisj.
    eapply some_displaced; [exact Hp| | |].
    + rewrite H4, decide_True by assumption.
      rewrite H3, decide_False by assumption.
      rewrite H2, decide_True by assumption.
      rewrite H1, decide_True, Hp by assumption. reflexivity.
    + cbn. lra.
    + cbn. lra.
  - destruct (Hsome l ltac:(set_solver)) as [[[x y] z] Hp].
    assert (Hns : l ∉ swing) by (intros Hin; now apply (Hdisj l)).
    eapply some_displaced; [exact Hp| | |].
    + rewrite H4, decide_False by assumption.
      rewrite H3, decide_True by assumption.
      rewrite H2, decide_False by assumption.
      rewrite H1, decide_False, Hp by assumption. reflexivity.
    + cbn. lra.
    + cbn. lra.
Qed.

Lemma half_step_length (dx dy : R) :
  sqrt ((- (dx / 2)) ^ 2 + (- (dy / 2)) ^ 2) = sqrt (dx ^ 2 + dy ^ 2) / 2.
Proof.
  replace ((- (dx / 2)) ^ 2 + (- (dy / 2)) ^ 2)
    with ((dx ^ 2 + dy ^ 2) * (1 / 2) ^ 2) by field.
  rewrite sqrt_mult by nra. rewrite sqrt_pow2 by lra. lra.
Qed.

(** The length of the step vector computed by [walk]. *)
Lemma step_vector_length (step_length rad : R) :
  0 <= step_length ->
  sqrt ((step_length * cos rad) ^ 2 + (step_length * sin rad) ^ 2)
  = step_length.
Proof.
  intros H.
  replace ((step_length * cos rad) ^ 2 + (step_length * sin rad) ^ 2)
    with (step_length ^ 2 * ((sin rad)² + (cos rad)²)) by (unfold Rsqr; ring).
  rewrite sin2_cos2, Rmult_1_r. now apply sqrt_pow2.
Qed.

(** With [steps = 1], [walk] runs one cycle on the step vector
    [(step_length * cos rad, step_length * sin rad)]. *)
Lemma walk_single_cycle (h direction step_length step_height cycle_time : R)
    (self : Hex.hexapod) :
  Hex.walk h direction 1 step_length step_height cycle_time self
  = match Hex.walk_cycle h (step_length * cos (IK.radians direction))
                         (step_length * sin (IK.radians direction))
                         step_height (cycle_time / 2) self with
    | Done _ s' => Done tt s'
    | Raised e s' => Raised e s'
    end.
Proof.
  unfold Hex.walk. cbn [seq for_each]. unfold mbind at 1.
  now destruct (Hex.walk_cycle _ _ _ _ _ self).
Qed.

Lemma tripods_partition :
  BigHex.tripod1 = Hex.tripod1 /\ BigHex.tripod2 = Hex.tripod2
  /\ NoDup (Hex.tripod1 ++ Hex.tripod2)
  /\ NoDup (Hex.tripod2 ++ Hex.tripod1)
  /\ (forall l, l ∈ Hex.tripod1 -> l ∉ Hex.tripod2)
  /\ (forall l, l ∈ Hex.tripod1 \/ l ∈ Hex.tripod2 <-> l ∈ Hex.legs)
  /\ (forall l, l ∈ Hex.legs <-> l ∈ BigHex.legs).
Proof.
  split; [reflexivity|]. split; [reflexivity|].
  split; [compute_done|]. split; [compute_done|].
  unfold Hex.tripod1, Hex.tripod2, Hex.legs, BigHex.legs.
  split; [|split]; intros l; set_solver.
Qed.

(** C5 (amended).  The two tripods are disjoint and together are the six
    legs.  In each half of a walk cycle of the serial-bus robot the legs of
    the swinging tripod are displaced horizontally by the full step vector
    [(dx, dy)] and those of the stance tripod by minus half of it, whose
    length is half the step length; in each half of a walk cycle of the PWM
    robot the swinging legs are displaced by half the step vector and the
    stance legs by minus half of it.  The time of a phase is not negative,
    as the pauses between the moves require. *)
Theorem tripod_gait_displacements
    (big : BigHex.hexapod) (small : Hex.hexapod)
    (h dx dy lift : R) (move_time : Z) (t : R) :
  (0 <= move_time)%Z -> 0 <= t ->
  geometry_ok big ->
  (forall l, l ∈ BigHex.legs ->
     leg_wired big l /\ is_Some (BigHex.leg_positions big !! l)) ->
  (forall l, l ∈ Hex.legs ->
     pwm_wired small l /\ is_Some (Hex.leg_positions small !! l)) ->
  (BigHex.tripod1 = Hex.tripod1 /\ BigHex.tripod2 = Hex.tripod2
   /\ (forall l, l ∈ Hex.tripod1 -> l ∉ Hex.tripod2)
   /\ (forall l, l ∈ Hex.tripod1 \/ l ∈ Hex.tripod2 <-> l ∈ Hex.legs)
   /\ (forall l, l ∈ Hex.legs <-> l ∈ BigHex.legs))
  /\ (exists b1 b2,
        BigHex._tripod_step h BigHex.tripod1 BigHex.tripod2 dx dy lift
                            move_time big = Done tt b1
        /\ BigHex._tripod_step h BigHex.tripod2 BigHex.tripod1 dx dy lift
                               move_time b1 = Done tt b2
        /\ BigHex.walk_cycle h dx dy lift move_time big = Done tt b2
        /\ forall l,
             (l ∈ BigHex.tripod1 ->
                displaced (BigHex.leg_positions big) (BigHex.leg_positions b1)
                          l dx dy
                /\ displaced (BigHex.leg_positions b1)
                             (BigHex.leg_positions b2) l
                             (- (dx / 2)) (- (dy / 2)))
             /\ (l ∈ BigHex.tripod2 ->
                   displaced (BigHex.leg_positions big)
                             (BigHex.leg_positions b1) l
                             (- (dx / 2)) (- (dy / 2))
                   /\ displaced (BigHex.leg_positions b1)
                                (BigHex.leg_positions b2) l dx dy))
  /\ (exists s1 s2,
        Hex._tripod_step h Hex.tripod1 Hex.tripod2 dx dy lift t small
        = Done tt s1
        /\ Hex._tripod_step h Hex.tripod2 Hex.tripod1 dx dy lift t s1
           = Done tt s2
        /\ Hex.walk_cycle h dx dy lift t small = Done tt s2
        /\ forall l,
             (l ∈ Hex.tripod1 ->
                displaced (Hex.leg_positions small) (Hex.leg_positions s1)
                          l (dx / 2) (dy / 2)
                /\ displaced (Hex.leg_positions s1) (Hex.leg_positions s2) l
                             (- (dx / 2)) (- (dy / 2)))
             /\ (l ∈ Hex.tripod2 ->
                   displaced (Hex.leg_positions small) (Hex.leg_positions s1)
                             l (- (dx / 2)) (- (dy / 2))
                   /\ displaced (Hex.leg_positions s1) (Hex.leg_positions s2)
                                l (dx / 2) (dy / 2)))
  /\ sqrt ((- (dx / 2)) ^ 2 + (- (dy / 2)) ^ 2) = sqrt (dx ^ 2 + dy ^ 2) / 2.
Proof.
  intros Htime Hpause Hgeo Hbig Hsmall.
  destruct tripods_partition as (E1 & E2 & Hnd12 & Hnd21 & Hdisj & Hcover & Hsame).
  split; [repeat split; try assumption; apply Hcover || apply Hsame|].
  assert (Hin12 : forall l, l ∈ Hex.tripod1 ++ Hex.tripod2 -> l ∈ Hex.legs).
  { intros l Hl. apply Hcover. now apply elem_of_app in Hl. }
  assert (Hin21 : forall l, l ∈ Hex.tripod2 ++ Hex.tripod1 -> l ∈ Hex.legs).
  { intros l Hl. apply Hcover. apply elem_of_app in Hl. tauto. }
  split; [|split; [|apply half_step_length]].
  - rewrite E1, E2.
    destruct (bighex_tripod_step_ok h Hex.tripod1 Hex.tripod2 dx dy lift
                move_time big Htime Hgeo Hnd12) as (fr1 & Hstep1).
    { intros l Hl. apply Hbig, Hsame. now apply Hin12. }
    set (lp := BigHex.leg_positions big) in *.
    set (lp1 := tripod_positions h Hex.tripod1 Hex.tripod2 dx dy lift lp) in *.
    set (b1 := advanced big fr1 lp1) in *.
    assert (Hlegs1 : forall l, l ∈ Hex.legs -> is_Some (lp1 !! l)).
    { intros l Hl. apply tripod_positions_is_Some. now apply Hbig, Hsame. }
    destruct (bighex_tripod_step_ok h Hex.tripod2 Hex.tripod1 dx dy lift
                move_time b1 Htime Hgeo Hnd21) as (fr2 & Hstep2).
    { intros l Hl. split.
      - apply (Hbig l). now apply Hsame, Hin21.
      - apply Hlegs1. now apply Hin21. }
    change (BigHex.leg_positions b1) with lp1 in Hstep2.
    exists b1. eexists. split; [exact Hstep1|]. split; [exact Hstep2|].
    split.
    { unfold BigHex.walk_cycle, mbind. rewrite E1, E2, Hstep1. exact Hstep2. }
    intros l.
    pose proof (tripod_positions_displaced h Hex.tripod1 Hex.tripod2 dx dy
                  lift lp Hnd12) as Hd1.
    pose proof (tripod_positions_displaced h Hex.tripod2 Hex.tripod1 dx dy
                  lift lp1 Hnd21) as Hd2.
    specialize (Hd1 ltac:(intros k Hk; now apply Hbig, Hsame, Hin12) l).
    specialize (Hd2 ltac:(intros k Hk; now apply Hlegs1, Hin21) l).
    fold lp1 in Hd1.
    destruct Hd1 as [Hswing1 Hstance1], Hd2 as [Hswing2 Hstance2].
    split; intros Hl; split.
    + exact (Hswing1 Hl).
    + exact (Hstance2 Hl).
    + exact (Hstance1 Hl).
    + exact (Hswing2 Hl).
  - destruct (pwm_tripod_step_ok h Hex.tripod1 Hex.tripod2 dx dy lift t small
                Hpause) as (e1 & Hstep1).
    { intros l Hl. apply Hsmall. now apply Hin12. }
    set (lp := Hex.leg_positions small) in *.
    set (lp1 := pwm_tripod_positions h Hex.tripod1 Hex.tripod2 dx dy lift lp)
      in *.
    set (s1 := pwm_advanced small e1 lp1) in *.
    assert (Hlegs1 : forall l, l ∈ Hex.legs -> is_Some (lp1 !! l)).
    { intros l Hl. unfold lp1, pwm_tripod_positions.
      do 4 apply moved_is_Some. now apply Hsmall. }
    destruct (pwm_tripod_step_ok h Hex.tripod2 Hex.tripod1 dx dy lift t s1
                Hpause) as (e2 & Hstep2).
    { intros l Hl. split.
      - apply (Hsmall l). now apply Hin21.
      - apply Hlegs1. now apply Hin21. }
    change (Hex.leg_positions s1) with lp1 in Hstep2.
    exists s1. eexists. split; [exact Hstep1|]. split; [exact Hstep2|].
    split.
    { unfold Hex.walk_cycle, mbind. rewrite Hstep1. exact Hstep2. }
    intros l.
    pose proof (pwm_tripod_positions_displaced h Hex.tripod1 Hex.tripod2 dx dy
                  lift lp Hnd12) as Hd1.
    pose proof (pwm_tripod_positions_displaced h Hex.tripod2 Hex.tripod1 dx dy
                  lift lp1 Hnd21) as Hd2.
    specialize (Hd1 ltac:(intros k Hk; now apply Hsmall, Hin12) l).
    specialize (Hd2 ltac:(intros k Hk; now apply Hlegs1, Hin21) l).
    fold lp1 in Hd1.
    destruct Hd1 as [Hswing1 Hstance1], Hd2 as [Hswing2 Hstance2].
    split; intros Hl; split.
    + exact (Hswing1 Hl).
    + exact (Hstance2 Hl).
    + exact (Hstance1 Hl).
    + exact (Hswing2 Hl).
Qed.

Lemma default_serial_ready (l : string) :
  l ∈ BigHex.legs ->
  leg_wired BigHex.default_hexapod l
  /\ is_Some (BigHex.leg_positions BigHex.default_hexapod !! l).
Proof.
  intros Hl. apply list_elem_of_In in Hl. cbn in Hl.
  destruct Hl as [<-|[<-|[<-|[<-|[<-|[<-|[]]]]]]];
    (split; [|eexists; reflexivity]);
    intros joint Hj; apply list_elem_of_In in Hj; cbn in Hj;
    destruct Hj as [<-|[<-|[<-|[]]]]; eexists; split; reflexivity.
Qed.

Lemma default_pwm_ready (l : string) :
  l ∈ Hex.legs ->
  pwm_wired Hex.default_hexapod l
  /\ is_Some (Hex.leg_positions Hex.default_hexapod !! l).
Proof.
  intros Hl. apply list_elem_of_In in Hl. cbn in Hl.
  destruct Hl as [<-|[<-|[<-|[<-|[<-|[<-|[]]]]]]];
    (split; [|eexists; reflexivity]);
    intros joint Hj; apply list_elem_of_In in Hj; cbn in Hj;
    destruct Hj as [<-|[<-|[<-|[]]]];
    eexists _, _, _; repeat split; try reflexivity; now left.
Qed.

(** [leg_positions] as the constructor leaves it: the six legs, each
    once, all of them configured. *)
Lemma default_pwm_dict :
  NoDup (ODict.keys (Hex.leg_positions Hex.default_hexapod))
  /\ (forall l, l ∈ ODict.keys (Hex.leg_positions Hex.default_hexapod) ->
        pwm_wired Hex.default_hexapod l)
  /\ (forall l, l ∈ Hex.legs ->
        l ∈ ODict.keys (Hex.leg_positions Hex.default_hexapod)).
Proof.
  change (ODict.keys (Hex.leg_positions Hex.default_hexapod)) with Hex.legs.
  split; [|split].
  - unfold Hex.legs. repeat (apply NoDup_cons; split; [set_solver|]).
    apply NoDup_nil_2.
  - intros l Hl. now apply default_pwm_ready.
  - auto.
Qed.

Lemma default_geometry_ok : geometry_ok BigHex.default_hexapod.
Proof.
  unfold geometry_ok. cbn. unfold BigHex.FEMUR_LENGTH, BigHex.TIBIA_LENGTH.
  repeat split; lra.
Qed.

Lemma tripod_gait_displacements_witness :
  exists b2 s2,
    BigHex.walk_cycle 50 40 0 30 100 BigHex.default_hexapod = Done tt b2
    /\ Hex.walk_cycle 50 40 0 30 (2 / 10) Hex.default_hexapod = Done tt s2.
Proof.
  destruct (tripod_gait_displacements
              BigHex.default_hexapod Hex.default_hexapod 50 40 0 30 100
              (2 / 10) ltac:(lia) ltac:(lra)
              default_geometry_ok default_serial_ready default_pwm_ready)
    as (_ & (b1 & b2 & _ & _ & Hb & _) & (s1 & s2 & _ & _ & Hs & _) & _).
  exists b2, s2. split; assumption.
Defined.

(** C5, as stated, fails for the PWM robot: in a half-cycle with step
    vector (40, 0) the swinging leg L1 is displaced by (20, 0), half the
    step vector, not by the full (40, 0). *)
Lemma pwm_swing_is_half_step_cex :
  exists s1,
    Hex._tripod_step 50 Hex.tripod1 Hex.tripod2 40 0 30 (2 / 10)
                     Hex.default_hexapod
    = Done tt s1
    /\ "L1"%string ∈ Hex.tripod1
    /\ displaced (Hex.leg_positions Hex.default_hexapod)
                 (Hex.leg_positions s1) "L1" 20 0
    /\ ~ displaced (Hex.leg_positions Hex.default_hexapod)
                   (Hex.leg_positions s1) "L1" 40 0.
Proof.
  destruct tripods_partition as (_ & _ & Hnd12 & _ & _ & Hcover & _).
  assert (Hin12 : forall l, l ∈ Hex.tripod1 ++ Hex.tripod2 -> l ∈ Hex.legs).
  { intros l Hl. apply Hcover. now apply elem_of_app in Hl. }
  destruct (pwm_tripod_step_ok 50 Hex.tripod1 Hex.tripod2 40 0 30 (2 / 10)
              Hex.default_hexapod ltac:(lra)) as (events & Hstep).
  { intros l Hl. now apply default_pwm_ready, Hin12. }
  eexists. split; [exact Hstep|].
  assert (HL1 : "L1"%string ∈ Hex.tripod1) by (unfold Hex.tripod1; set_solver).
  split; [exact HL1|].
  destruct (pwm_tripod_positions_displaced 50 Hex.tripod1 Hex.tripod2 40 0 30
              (Hex.leg_positions Hex.default_hexapod) Hnd12) with (l := "L1"%string)
    as [Hswing _].
  { intros l Hl. now apply default_pwm_ready, Hin12. }
  specialize (Hswing HL1).
  replace (40 / 2) with 20 in Hswing by lra.
  replace (0 / 2) with 0 in Hswing by lra.
  split; [exact Hswing|].
  intros Hfull. destruct (displaced_unique _ _ _ _ _ _ _ Hswing Hfull). lra.
Qed.

End TripodGait.

(** ** More on the protocol codec and the driver commands *)

Section Driver.

Import LX16A.

Lemma frame_of_bytes (servo_id cmd : Z) (params : list Z) :
  is_byte servo_id = true -> is_byte cmd = true ->
  forallb is_byte params = true -> (List.length params <= 252)%nat ->
  forallb is_byte (frame_of servo_id cmd params) = true.
Proof.
  intros Hid Hcmd Hps Hlen. unfold frame_of. cbn [forallb app].
  rewrite Hid, Hcmd. rewrite forallb_app, Hps. cbn [forallb].
  rewrite checksum_is_byte.
  replace (is_byte (Z.of_nat (List.length params) + 3)) with true;
    [reflexivity|].
  symmetry. apply is_byte_spec. lia.
Qed.

(** X1.  A frame built by [_build_packet] from bytes is a sequence of
    bytes that starts with the two header bytes, whose length field counts
    the bytes that follow the id field, and whose bytes from the id through
    the checksum add up to 255 modulo 256. *)
Theorem encoded_frame_well_formed (servo_id cmd : Z) (params : list Z) :
  is_byte servo_id = true -> is_byte cmd = true ->
  forallb is_byte params = true -> (List.length params <= 252)%nat ->
  exists frame,
    _build_packet servo_id cmd params = Ok frame
    /\ forallb is_byte frame = true
    /\ take 2 frame = [FRAME_HEADER; FRAME_HEADER]
    /\ frame !! 3%nat = Some (Z.of_nat (List.length (drop 3 frame)))
    /\ sum (drop 2 frame) mod 256 = 255.
Proof.
  intros Hid Hcmd Hps Hlen. exists (frame_of servo_id cmd params).
  split; [now apply build_packet_ok|].
  split; [now apply frame_of_bytes|].
  split; [reflexivity|]. split.
  - unfold frame_of. cbn [drop app lookup list_lookup].
    cbn [List.length]. rewrite length_app. cbn [List.length].
    f_equal. lia.
  - unfold frame_of. cbn [drop app].
    set (body := servo_id :: _ :: cmd :: params).
    change (servo_id :: _ :: cmd :: params ++ ?t) with (body ++ t).
    rewrite sum_app, land_255. unfold Z.lnot.
    generalize (sum body). intros s. unfold sum. cbn [fold_right].
    Z.div_mod_to_equations. lia.
Qed.

Lemma encoded_frame_well_formed_witness :
  exists frame,
    _build_packet 1 CMD_MOVE_TIME_WRITE [244; 1; 0; 0] = Ok frame
    /\ forallb is_byte frame = true
    /\ take 2 frame = [FRAME_HEADER; FRAME_HEADER]
    /\ frame !! 3%nat = Some (Z.of_nat (List.length (drop 3 frame)))
    /\ sum (drop 2 frame) mod 256 = 255.
Proof.
  apply (encoded_frame_well_formed 1 CMD_MOVE_TIME_WRITE [244; 1; 0; 0]);
    [reflexivity | reflexivity | reflexivity | simpl; lia].
Defined.

Lemma no_header_nil : no_header [].
Proof. intros [|? ?] rest H; discriminate. Qed.

Lemma no_header_single (b : Z) : no_header [b].
Proof. intros [|? [|? ?]] rest H; discriminate. Qed.

Lemma no_header_cons (a b : Z) (l : list Z) :
  no_header (b :: l) -> a <> FRAME_HEADER \/ b <> FRAME_HEADER ->
  no_header (a :: b :: l).
Proof.
  intros Hl Hab [|x pre] rest H.
  - injection H as -> ->. tauto.
  - injection H as -> H. exact (Hl pre rest H).
Qed.

Lemma no_header_cons_other (a : Z) (l : list Z) :
  no_header l -> a <> FRAME_HEADER -> no_header (a :: l).
Proof.
  intros Hl Ha. destruct l as [|b l].
  - apply no_header_single.
  - apply no_header_cons; auto.
Qed.

Lemma scan_header_counted (stream : list Z) :
  scan_header 1 stream = scan_header 0 (FRAME_HEADER :: stream).
Proof. reflexivity. Qed.

(** The header loop, started with no header byte seen ([false]) or with
    one seen ([true]). *)
Lemma scan_header_both (stream : list Z) :
  (match scan_header 0 stream with
   | Some rest =>
       exists pre,
         stream = pre ++ FRAME_HEADER :: FRAME_HEADER :: rest
         /\ no_header (pre ++ [FRAME_HEADER])
   | None => no_header stream
   end)
  /\ (match scan_header 1 stream with
      | Some rest =>
          exists pre,
            FRAME_HEADER :: stream
            = pre ++ FRAME_HEADER :: FRAME_HEADER :: rest
            /\ no_header (pre ++ [FRAME_HEADER])
      | None => no_header (FRAME_HEADER :: stream)
      end).
Proof.
  induction stream as [|b r [IH0 IH1]].
  - split; cbn; [apply no_header_nil | apply no_header_single].
  - assert (Hstep0 : scan_header 0 (b :: r)
                     = if b =? FRAME_HEADER then scan_header 1 r
                       else scan_header 0 r).
    { cbn [scan_header]. now destruct (b =? FRAME_HEADER). }
    assert (Hstep1 : scan_header 1 (b :: r)
                     = if b =? FRAME_HEADER then Some r
                       else scan_header 0 r).
    { cbn [scan_header]. now destruct (b =? FRAME_HEADER). }
    rewrite Hstep0, Hstep1.
    destruct (Z.eqb_spec b FRAME_HEADER) as [->|Hb].
    + split; [exact IH1|].
      exists []. split; [reflexivity|apply no_header_single].
    + split.
      * destruct (scan_header 0 r) as [rest|].
        -- destruct IH0 as (pre & -> & Hpre).
           exists (b :: pre). split; [reflexivity|].
           now apply no_header_cons_other.
        -- now apply no_header_cons_other.
      * destruct (scan_header 0 r) as [rest|].
        -- destruct IH0 as (pre & -> & Hpre).
           exists (FRAME_HEADER :: b :: pre). split; [reflexivity|].
           cbn [app]. destruct pre as [|c pre]; cbn [app] in *.
           ++ apply no_header_cons;
                [apply no_header_cons; [apply no_header_single|auto]|auto].
           ++ apply no_header_cons;
                [apply no_header_cons; [exact Hpre|auto]|auto].
        -- destruct r as [|c r].
           ++ apply no_header_cons; [apply no_header_single|auto].
           ++ apply no_header_cons;
                [apply no_header_cons; [exact IH0|auto]|auto].
Qed.

(** X2.  The header loop of [_receive] stops right after the first two
    adjacent header bytes of the stream, whatever precedes them, and gives
    up exactly when the stream has no two adjacent header bytes. *)
Theorem scan_header_first_header (stream : list Z) :
  match scan_header 0 stream with
  | Some rest =>
      exists pre,
        stream = pre ++ FRAME_HEADER :: FRAME_HEADER :: rest
        /\ no_header (pre ++ [FRAME_HEADER])
  | None => no_header stream
  end.
Proof. exact (proj1 (scan_header_both stream)). Qed.

Lemma checksum_total (data : list Z) :
  (4 <= List.length data)%nat -> exists c, _checksum data = Ok c.
Proof.
  intros H. unfold _checksum, index.
  destruct (data !! 3%nat) as [len|] eqn:E; [cbn; eauto|].
  apply lookup_ge_None in E. lia.
Qed.

(** X3.  Whatever bytes arrive, a packet returned by [_receive] is a
    contiguous part of the stream that begins at the first header pair,
    holds as many bytes after the length field as that field says, and
    ends in the byte that the checksum over the received bytes gives; no
    exception escapes [_receive]. *)
Theorem receive_returns_validated (stream : list Z) :
  match _receive stream with
  | RxPacket packet =>
      exists pre servo_id length data rest,
        stream = pre ++ packet ++ rest
        /\ no_header (pre ++ [FRAME_HEADER])
        /\ packet = FRAME_HEADER :: FRAME_HEADER :: servo_id :: length :: data
        /\ List.length data = Z.to_nat length
        /\ validate packet = RxPacket packet
        /\ _checksum (removelast packet ++ [0]) = Ok (List.last packet 0)
  | RxNone _ => True
  | RxRaise _ => False
  end.
Proof.
  unfold _receive.
  pose proof (proj1 (scan_header_both stream)) as Hscan.
  destruct (scan_header 0 stream) as [after|]; [|exact I].
  destruct Hscan as (pre & -> & Hpre).
  unfold read. change (Z.to_nat 2) with 2%nat.
  destruct after as [|servo_id [|length tail]]; cbn [firstn skipn];
    rewrite ?take_0, ?drop_0; try exact I.
  destruct (Z.of_nat (List.length (take (Z.to_nat length) tail)) <? length)
    eqn:Hshort; [exact I|].
  apply Z.ltb_ge in Hshort.
  set (data := take (Z.to_nat length) tail) in *.
  set (packet := [FRAME_HEADER; FRAME_HEADER; servo_id; length] ++ data).
  assert (Hlen : List.length data = Z.to_nat length).
  { subst data. rewrite length_take in *. lia. }
  destruct (checksum_total (removelast packet ++ [0])) as [c Hc].
  { rewrite length_app. cbn [List.length].
    destruct data as [|d data']; cbn [packet app removelast List.length]; [lia|].
    destruct (data' : list Z); cbn; lia. }
  unfold validate. rewrite Hc.
  destruct (Z.eqb_spec (List.last packet 0) c) as [Heq|Hne]; cbn [negb];
    [|exact I].
  exists pre, servo_id, length, data, (drop (Z.to_nat length) tail).
  split.
  { subst packet data. cbn [app]. now rewrite take_drop. }
  split; [exact Hpre|]. split; [reflexivity|]. split; [exact Hlen|].
  split.
  - unfold validate. rewrite Hc.
    destruct (Z.eqb_spec (List.last packet 0) c); [reflexivity|contradiction].
  - now rewrite Hc, Heq.
Qed.

Lemma scan_header_skips (pre rest : list Z) :
  Forall (fun b => b <> FRAME_HEADER) pre ->
  scan_header 0 (pre ++ FRAME_HEADER :: FRAME_HEADER :: rest) = Some rest.
Proof.
  induction 1 as [|b pre Hb _ IH]; [reflexivity|].
  cbn [app scan_header]. apply Z.eqb_neq in Hb. now rewrite Hb.
Qed.

(** X4.  When the bytes of an encoded frame arrive, after any bytes that are
    not header bytes, and at least one more byte follows, [_receive] takes
    that following byte for the checksum: it returns the frame with that
    byte appended when the byte equals the frame's checksum, and reports a
    checksum mismatch otherwise. *)
Theorem receive_frame_then_byte
    (pre : list Z) (servo_id cmd : Z) (params : list Z) (e : Z)
    (rest : list Z) :
  Forall (fun b => b <> FRAME_HEADER) pre ->
  let checksum :=
    Z.land (Z.lnot (sum (servo_id :: Z.of_nat (List.length params) + 3
                                   :: cmd :: params))) 0xFF in
  List.last (frame_of servo_id cmd params) 0 = checksum
  /\ _receive (pre ++ frame_of servo_id cmd params ++ e :: rest)
     = if e =? checksum
       then RxPacket (frame_of servo_id cmd params ++ [e])
       else RxNone (ChecksumMismatch e checksum).
Proof.
  intros Hpre checksum. split.
  { unfold frame_of.
    change (?a :: ?b :: ?body ++ [?c]) with ((a :: b :: body) ++ [c]).
    apply List.last_last. }
  unfold _receive, frame_of. cbn [app]. rewrite scan_header_skips by exact Hpre.
  unfold read. change (Z.to_nat 2) with 2%nat. cbn [firstn skipn].
  rewrite ?drop_0.
  set (L := Z.of_nat (List.length params) + 3).
  set (body := servo_id :: L :: cmd :: params).
  change (Z.land (Z.lnot (sum body)) 255) with checksum.
  rewrite <- !app_assoc. cbn [app].
  assert (Htake : take (Z.to_nat L) (cmd :: params ++ checksum :: e :: rest)
                  = cmd :: params ++ [checksum; e]).
  { replace (cmd :: params ++ checksum :: e :: rest)
      with ((cmd :: params ++ [checksum; e]) ++ rest)
      by (cbn [app]; now rewrite <- app_assoc).
    replace (Z.to_nat L) with (List.length (cmd :: params ++ [checksum; e])).
    - apply take_app_length.
    - cbn [List.length]. rewrite length_app. cbn [List.length]. subst L. lia. }
  rewrite Htake.
  replace (_ <? L) with false.
  2:{ symmetry. apply Z.ltb_ge. cbn [List.length]. rewrite length_app.
      cbn [List.length]. subst L. lia. }
  unfold validate.
  replace (FRAME_HEADER :: FRAME_HEADER :: servo_id :: L :: cmd
             :: params ++ [checksum; e])
    with ((FRAME_HEADER :: FRAME_HEADER :: body ++ [checksum]) ++ [e])
    by (subst body; cbn [app]; now rewrite <- app_assoc).
  rewrite List.last_last, List.removelast_last.
  cbn [app]. rewrite <- app_assoc.
  rewrite (checksum_region _ _ L body); [|reflexivity|].
  2:{ subst body L. cbn [List.length]. lia. }
  change (Z.land (Z.lnot (sum body)) 255) with checksum.
  destruct (e =? checksum); reflexivity.
Qed.

Lemma receive_frame_then_byte_witness :
  List.last (frame_of 1 CMD_POS_READ []) 0
  = Z.land (Z.lnot (sum [1; 0 + 3; CMD_POS_READ])) 0xFF
  /\ _receive ([0; 7] ++ frame_of 1 CMD_POS_READ [] ++ 223 :: [9])
     = if 223 =? Z.land (Z.lnot (sum [1; 0 + 3; CMD_POS_READ])) 0xFF
       then RxPacket (frame_of 1 CMD_POS_READ [] ++ [223])
       else RxNone (ChecksumMismatch 223
                      (Z.land (Z.lnot (sum [1; 0 + 3; CMD_POS_READ])) 0xFF)).
Proof.
  apply (receive_frame_then_byte [0; 7] 1 CMD_POS_READ [] 223 [9]).
  repeat constructor; discriminate.
Defined.

End Driver.
Section DriverCommands.

Import LX16A.

Lemma lor_shiftl_bytes (lo hi : Z) :
  0 <= lo < 256 -> 0 <= hi ->
  Z.lor lo (Z.shiftl hi 8) = lo + 256 * hi.
Proof.
  intros Hlo Hhi.
  assert (Hdisjoint : Z.land lo (Z.shiftl hi 8) = 0).
  { apply Z.bits_inj_0. intros n. rewrite Z.land_spec.
    destruct (Z.lt_ge_cases n 0) as [Hn|Hn].
    - now rewrite Z.testbit_neg_r.
    - destruct (Z.lt_ge_cases n 8) as [Hn8|Hn8].
      + rewrite (Z.shiftl_spec_low hi 8 n) by assumption.
        apply andb_false_r.
      + replace (Z.testbit lo n) with false; [reflexivity|].
        symmetry. destruct (Z.eq_dec lo 0) as [->|Hne].
        * apply Z.bits_0.
        * apply Z.bits_above_log2; [lia|].
          apply Z.lt_le_trans with 8; [|assumption].
          apply Z.log2_lt_pow2; lia. }
  pose proof (Z.add_lor_land lo (Z.shiftl hi 8)) as Hadd.
  rewrite Hdisjoint, Z.shiftl_mul_pow2 in Hadd by lia.
  rewrite Z.shiftl_mul_pow2 by lia.
  change (2 ^ 8) with 256 in *. lia.
Qed.

(** The decoding of [read_position] inverts the 16-bit two's complement
    split into a low and a high byte. *)
Lemma decode_position_signed16 (v : Z) :
  -32768 <= v <= 32767 ->
  let u := if v <? 0 then 65536 + v else v in
  decode_position (Z.land u 0xFF) (Z.land (Z.shiftr u 8) 0xFF) = v.
Proof.
  intros Hv u. unfold decode_position.
  assert (Hu : 0 <= u < 65536).
  { subst u. destruct (Z.ltb_spec v 0); lia. }
  rewrite lor_shiftl_bytes.
  2:{ rewrite land_255. apply Z.mod_pos_bound. lia. }
  2:{ rewrite land_255. apply Z.mod_pos_bound. lia. }
  rewrite little_endian_16 by exact Hu.
  subst u. destruct (Z.ltb_spec v 0).
  - destruct (Z.gtb_spec (65536 + v) 32767); lia.
  - destruct (Z.gtb_spec v 32767); lia.
Qed.

(** X5.  [set_motor_mode] clamps the speed to [-1000, 1000] and sends it
    as a 16-bit two's complement number, low byte first, after the mode
    bytes 1 and 0; the decoding that [read_position] applies to two such
    bytes gives the clamped speed back. *)
Theorem motor_speed_round_trip (servo_id speed : Z) (b : bus) :
  is_byte servo_id = true ->
  exists lo hi,
    set_motor_mode servo_id speed b
    = Done tt {| tx := tx b ++ [frame_of servo_id CMD_MOTOR_MODE_WRITE
                                         [1; 0; lo; hi]] |}
    /\ is_byte lo = true /\ is_byte hi = true
    /\ decode_position lo hi = Z.max (-1000) (Z.min 1000 speed).
Proof.
  intros Hid.
  set (v := Z.max (-1000) (Z.min 1000 speed)).
  set (u := if v <? 0 then 65536 + v else v).
  exists (Z.land u 0xFF), (Z.land (Z.shiftr u 8) 0xFF).
  split; [|split; [apply land_is_byte|split; [apply land_is_byte|]]].
  - unfold set_motor_mode, send_command, motor_mode_params, mbind, lift.
    fold v. fold u.
    rewrite bytes_ok by (cbn [forallb]; now rewrite !land_is_byte).
    cbn [bind].
    rewrite build_packet_ok; [reflexivity|assumption|reflexivity|cbn; lia].
  - apply decode_position_signed16. subst v. lia.
Qed.

Lemma motor_speed_round_trip_witness :
  exists lo hi,
    set_motor_mode 3 (-5000) {| tx := [] |}
    = Done tt {| tx := [] ++ [frame_of 3 CMD_MOTOR_MODE_WRITE [1; 0; lo; hi]] |}
    /\ is_byte lo = true /\ is_byte hi = true
    /\ decode_position lo hi = Z.max (-1000) (Z.min 1000 (-5000)).
Proof.
  exact (motor_speed_round_trip 3 (-5000) {| tx := [] |} eq_refl).
Defined.

Lemma send_command_ok (servo_id cmd : Z) (params : list Z) (b : bus) :
  is_byte servo_id = true -> is_byte cmd = true ->
  forallb is_byte params = true -> (List.length params <= 252)%nat ->
  send_command servo_id cmd (bytes params) b
  = Done tt {| tx := tx b ++ [frame_of servo_id cmd params] |}.
Proof.
  intros Hid Hcmd Hps Hlen. unfold send_command, mbind, lift.
  rewrite bytes_ok by exact Hps. cbn [bind].
  now rewrite build_packet_ok by assumption.
Qed.

Lemma request_ok (servo_id cmd : Z) (b : bus) :
  is_byte servo_id = true -> is_byte cmd = true ->
  send_command servo_id cmd (Ok []) b
  = Done tt {| tx := tx b ++ [frame_of servo_id cmd []] |}.
Proof.
  intros Hid Hcmd. unfold send_command, mbind, lift. cbn [bind].
  rewrite build_packet_ok; [reflexivity|assumption|assumption|cbn; lia].
Qed.

Lemma removelast_length (a : Z) (l : list Z) :
  List.length (removelast (a :: l)) = List.length l.
Proof.
  revert a. induction l as [|x l IH]; intros y; [reflexivity|].
  change (removelast (y :: x :: l)) with (y :: removelast (x :: l)).
  cbn [List.length]. now rewrite IH.
Qed.

Lemma validate_no_raise (packet : list Z) (e : exn) :
  (4 <= List.length packet)%nat -> validate packet <> RxRaise e.
Proof.
  intros Hlen. unfold validate.
  destruct (checksum_total (removelast packet ++ [0])) as [c ->].
  - rewrite length_app. cbn [List.length].
    destruct packet as [|a l]; cbn [List.length] in Hlen; [lia|].
    rewrite removelast_length. lia.
  - destruct (negb _); discriminate.
Qed.

Lemma receive_no_raise (stream : list Z) (e : exn) :
  _receive stream <> RxRaise e.
Proof.
  unfold _receive. destruct (scan_header 0 stream) as [after|]; [|discriminate].
  unfold read. change (Z.to_nat 2) with 2%nat.
  destruct after as [|servo_id [|length tail]]; cbn [firstn skipn];
    rewrite ?take_0, ?drop_0; try discriminate.
  destruct (_ <? _); [discriminate|].
  apply validate_no_raise. cbn [app List.length]. lia.
Qed.

(** [read_position] first writes its request, then turns to the reply. *)
Lemma read_position_run (servo_id : Z) (stream : list Z) (b : bus) :
  is_byte servo_id = true ->
  read_position servo_id stream b
  = match _receive stream with
    | RxRaise e => Raised e
    | RxNone _ => Done None
    | RxPacket response =>
        match response !! 5%nat, response !! 6%nat with
        | Some pos_low, Some pos_high =>
            Done (Some (decode_position pos_low pos_high))
        | _, _ => Raised IndexError
        end
    end {| tx := tx b ++ [frame_of servo_id CMD_POS_READ []] |}.
Proof.
  intros Hid. unfold read_position, mbind.
  rewrite request_ok by (assumption || reflexivity).
  destruct (_receive stream) as [response|why|e]; try reflexivity.
  unfold lift, index.
  destruct (response !! 5%nat) as [pos_low|]; cbn [bind]; [|reflexivity].
  destruct (response !! 6%nat) as [pos_high|]; reflexivity.
Qed.

(** X6.  [read_position] writes exactly one position request, whatever
    comes back; it returns [None] when [_receive] finds no valid frame, the
    decoded bytes 5 and 6 of the packet otherwise, and raises [IndexError]
    when the validated packet has fewer than seven bytes. *)
Theorem read_position_outcomes
    (servo_id : Z) (stream : list Z) (b : bus) :
  is_byte servo_id = true ->
  let b' := {| tx := tx b ++ [frame_of servo_id CMD_POS_READ []] |} in
  match _receive stream with
  | RxNone _ => read_position servo_id stream b = Done None b'
  | RxPacket response =>
      match response !! 5%nat, response !! 6%nat with
      | Some pos_low, Some pos_high =>
          read_position servo_id stream b
          = Done (Some (decode_position pos_low pos_high)) b'
      | _, _ => read_position servo_id stream b = Raised IndexError b'
      end
  | RxRaise _ => False
  end.
Proof.
  intros Hid b'. rewrite read_position_run by exact Hid. fold b'.
  pose proof (receive_no_raise stream) as Hraise.
  destruct (_receive stream) as [response|why|e];
    [|reflexivity|exact (Hraise e eq_refl)].
  destruct (response !! 5%nat) as [pos_low|]; [|reflexivity].
  destruct (response !! 6%nat) as [pos_high|]; reflexivity.
Qed.

Lemma read_position_outcomes_witness :
  read_position 1 [85; 85; 1; 1; 254] {| tx := [] |}
  = Raised IndexError {| tx := [] ++ [frame_of 1 CMD_POS_READ []] |}.
Proof.
  exact (read_position_outcomes 1 [85; 85; 1; 1; 254] {| tx := [] |} eq_refl).
Defined.

(** X7.  [set_id] writes one frame to the servo that answers to
    [old_id]; the id it carries is always between 1 and 253, so neither 0
    nor the broadcast id 254 nor 255 can be assigned, and an id in that
    range is sent as given. *)
Theorem set_id_never_broadcast (old_id new_id : Z) (b : bus) :
  is_byte old_id = true ->
  exists sent,
    set_id old_id new_id b
    = Done tt {| tx := tx b ++ [frame_of old_id CMD_ID_WRITE [sent]] |}
    /\ 1 <= sent <= 253
    /\ sent <> BROADCAST_ID
    /\ (1 <= new_id <= 253 -> sent = new_id).
Proof.
  intros Hid. exists (Z.max 1 (Z.min 253 new_id)).
  split; [|unfold BROADCAST_ID; lia].
  unfold set_id. apply send_command_ok; try assumption; try reflexivity.
  - cbn [forallb]. rewrite andb_true_r. apply is_byte_spec. lia.
  - cbn. lia.
Qed.

Lemma set_id_never_broadcast_witness :
  exists sent,
    set_id 1 254 {| tx := [] |}
    = Done tt {| tx := [] ++ [frame_of 1 CMD_ID_WRITE [sent]] |}
    /\ 1 <= sent <= 253
    /\ sent <> BROADCAST_ID
    /\ (1 <= 254 <= 253 -> sent = 254).
Proof. exact (set_id_never_broadcast 1 254 {| tx := [] |} eq_refl). Defined.

Lemma offset_byte_signed (offset : Z) :
  is_byte (offset_byte offset) = true
  /\ signed_byte (offset_byte offset) = Z.max (-125) (Z.min 125 offset).
Proof.
  unfold offset_byte, signed_byte.
  set (v := Z.max (-125) (Z.min 125 offset)).
  assert (Hv : -125 <= v <= 125) by (subst v; lia).
  clearbody v. split.
  - apply is_byte_spec. destruct (Z.ltb_spec v 0); lia.
  - destruct (Z.ltb_spec v 0).
    + destruct (Z.gtb_spec (256 + v) 127); lia.
    + destruct (Z.gtb_spec v 127); lia.
Qed.

(** X8.  [set_angle_offset] never fails on the trim it is given: the
    offset is clamped to [-125, 125] and sent as one byte that, read as a
    signed 8-bit number, is the clamped offset. *)
Theorem set_angle_offset_signed_byte (servo_id offset : Z) (b : bus) :
  is_byte servo_id = true ->
  exists sent,
    set_angle_offset servo_id offset b
    = Done tt {| tx := tx b
                       ++ [frame_of servo_id CMD_ANGLE_OFFSET_ADJUST [sent]] |}
    /\ is_byte sent = true
    /\ signed_byte sent = Z.max (-125) (Z.min 125 offset).
Proof.
  intros Hid. exists (offset_byte offset).
  destruct (offset_byte_signed offset) as [Hbyte Hsigned].
  split; [|split; assumption].
  unfold set_angle_offset. apply send_command_ok; try assumption.
  - reflexivity.
  - cbn [forallb]. now rewrite Hbyte.
  - cbn. lia.
Qed.

Lemma set_angle_offset_signed_byte_witness :
  exists sent,
    set_angle_offset 7 (-300) {| tx := [] |}
    = Done tt {| tx := [] ++ [frame_of 7 CMD_ANGLE_OFFSET_ADJUST [sent]] |}
    /\ is_byte sent = true
    /\ signed_byte sent = Z.max (-125) (Z.min 125 (-300)).
Proof.
  exact (set_angle_offset_signed_byte 7 (-300) {| tx := [] |} eq_refl).
Defined.

(** The loop of [scan], as long as no reply is too short to index. *)
Lemma scan_ids_ok (responses : Z -> list Z) (ids : list Z) :
  forall (found : list Z) (b : bus),
    Forall (fun servo_id => is_byte servo_id = true) ids ->
    (forall servo_id response,
       servo_id ∈ ids ->
       _receive (responses servo_id) = RxPacket response ->
       (7 <= List.length response)%nat) ->
    scan_ids ids responses found b
    = Done (found ++ List.filter (answers responses) ids)
           {| tx := tx b
                    ++ map (fun servo_id => frame_of servo_id CMD_POS_READ [])
                           ids |}.
Proof.
  induction ids as [|servo_id rest IH]; intros found b Hbytes Hlong.
  - cbn. unfold ret. rewrite !app_nil_r. now destruct b.
  - apply Forall_cons in Hbytes as [Hid Hbytes].
    cbn [scan_ids]. unfold mbind at 1.
    pose proof (read_position_run servo_id (responses servo_id) b Hid)
      as Hread.
    pose proof (receive_no_raise (responses servo_id)) as Hraise.
    cbn [List.filter map]. unfold answers at 1.
    destruct (_receive (responses servo_id)) as [response|why|e] eqn:Hrx.
    + pose proof (Hlong servo_id response ltac:(set_solver) Hrx) as Hlen.
      destruct (response !! 5%nat) as [pos_low|] eqn:H5.
      2:{ apply lookup_ge_None in H5. lia. }
      destruct (response !! 6%nat) as [pos_high|] eqn:H6.
      2:{ apply lookup_ge_None in H6. lia. }
      rewrite Hread, IH.
      * cbn [tx]. now rewrite <- !app_assoc.
      * assumption.
      * intros id r Hin. apply Hlong. set_solver.
    + rewrite Hread, IH.
      * cbn [tx]. now rewrite <- !app_assoc.
      * assumption.
      * intros id r Hin. apply Hlong. set_solver.
    + exfalso. exact (Hraise e eq_refl).
Qed.

Lemma range_bounds (start stop servo_id : Z) :
  servo_id ∈ range start stop <-> start <= servo_id < stop.
Proof.
  unfold range. rewrite list_elem_of_fmap. split.
  - intros (i & -> & Hi). apply elem_of_seq in Hi. lia.
  - intros H. exists (Z.to_nat (servo_id - start)). split; [lia|].
    apply elem_of_seq. lia.
Qed.

(** X9.  [scan] sends one position request to every id from [start_id]
    to [end_id], in increasing order, and returns exactly the ids whose
    reply [_receive] accepted, in that order; this holds as long as the
    ids fit a byte and no accepted reply is shorter than seven bytes. *)
Theorem scan_finds_answering
    (start_id end_id : Z) (responses : Z -> list Z) (b : bus) :
  0 <= start_id -> end_id <= 255 ->
  (forall servo_id response,
     start_id <= servo_id <= end_id ->
     _receive (responses servo_id) = RxPacket response ->
     (7 <= List.length response)%nat) ->
  scan start_id end_id responses b
  = Done (List.filter (answers responses) (range start_id (end_id + 1)))
         {| tx := tx b
                  ++ map (fun servo_id => frame_of servo_id CMD_POS_READ [])
                         (range start_id (end_id + 1)) |}.
Proof.
  intros Hstart Hend Hlong. unfold scan.
  rewrite scan_ids_ok; [reflexivity| |].
  - apply Forall_forall. intros servo_id Hin.
    apply range_bounds in Hin. apply is_byte_spec. lia.
  - intros servo_id response Hin. apply range_bounds in Hin.
    apply Hlong. lia.
Qed.

Lemma scan_finds_answering_witness :
  scan 1 3 (fun servo_id =>
              if servo_id =? 2
              then frame_of 2 CMD_POS_READ [244; 1] ++ [231]
              else []) {| tx := [] |}
  = Done (List.filter
            (answers (fun servo_id =>
                        if servo_id =? 2
                        then frame_of 2 CMD_POS_READ [244; 1] ++ [231]
                        else []))
            (range 1 (3 + 1)))
         {| tx := [] ++ map (fun servo_id => frame_of servo_id CMD_POS_READ [])
                            (range 1 (3 + 1)) |}.
Proof.
  apply scan_finds_answering; [lia|lia|].
  intros servo_id response Hid.
  destruct (Z.eqb_spec servo_id 2) as [->|Hne].
  - intros Hrx. vm_compute in Hrx.
    first [discriminate Hrx | injection Hrx as <-; cbn; lia].
  - intros Hrx. discriminate Hrx.
Defined.

(** X29.  [set_angle_limits] never fails on the limits it is given: each
    is clamped to [0, 1000] on its own and sent as two little-endian
    bytes, the minimum first; the two are not compared, so a minimum above
    the maximum is sent as it is. *)
Theorem set_angle_limits_sends_clamped
    (servo_id min_pos max_pos : Z) (b : bus) :
  is_byte servo_id = true ->
  exists lo0 lo1 hi0 hi1,
    set_angle_limits servo_id min_pos max_pos b
    = Done tt {| tx := tx b ++ [frame_of servo_id CMD_ANGLE_LIMIT_WRITE
                                         [lo0; lo1; hi0; hi1]] |}
    /\ forallb is_byte [lo0; lo1; hi0; hi1] = true
    /\ lo0 + 256 * lo1 = Z.max 0 (Z.min 1000 min_pos)
    /\ hi0 + 256 * hi1 = Z.max 0 (Z.min 1000 max_pos).
Proof.
  intros Hid.
  set (lo := Z.max 0 (Z.min 1000 min_pos)).
  set (hi := Z.max 0 (Z.min 1000 max_pos)).
  exists (Z.land lo 0xFF), (Z.land (Z.shiftr lo 8) 0xFF),
         (Z.land hi 0xFF), (Z.land (Z.shiftr hi 8) 0xFF).
  assert (Hbytes : forallb is_byte
                     [Z.land lo 0xFF; Z.land (Z.shiftr lo 8) 0xFF;
                      Z.land hi 0xFF; Z.land (Z.shiftr hi 8) 0xFF] = true).
  { cbn [forallb]. now rewrite !land_is_byte. }
  split; [|split; [exact Hbytes|split]].
  - unfold set_angle_limits. fold lo hi.
    apply send_command_ok; [assumption|reflexivity|exact Hbytes|cbn; lia].
  - apply little_endian_16. subst lo. lia.
  - apply little_endian_16. subst hi. lia.
Qed.

Lemma set_angle_limits_sends_clamped_witness :
  exists lo0 lo1 hi0 hi1,
    set_angle_limits 4 900 (-20) {| tx := [] |}
    = Done tt {| tx := [] ++ [frame_of 4 CMD_ANGLE_LIMIT_WRITE
                                       [lo0; lo1; hi0; hi1]] |}
    /\ forallb is_byte [lo0; lo1; hi0; hi1] = true
    /\ lo0 + 256 * lo1 = Z.max 0 (Z.min 1000 900)
    /\ hi0 + 256 * hi1 = Z.max 0 (Z.min 1000 (-20)).
Proof.
  exact (set_angle_limits_sends_clamped 4 900 (-20) {| tx := [] |} eq_refl).
Defined.

End DriverCommands.
(** ** More of the serial-bus controller *)

Section Poses.

Import LX16A.
Import BigHex.

Lemma leg_wired_ids (self : hexapod) (leg : string) :
  leg_wired self leg ->
  exists id1 id2 id3,
    servo_id_of self leg "coxa" = Ok id1
    /\ servo_id_of self leg "femur" = Ok id2
    /\ servo_id_of self leg "tibia" = Ok id3
    /\ is_byte id1 = true /\ is_byte id2 = true /\ is_byte id3 = true.
Proof.
  intros Hwired.
  destruct (Hwired "coxa"%string) as (id1 & H1 & B1); [set_solver|].
  destruct (Hwired "femur"%string) as (id2 & H2 & B2); [set_solver|].
  destruct (Hwired "tibia"%string) as (id3 & H3 & B3); [set_solver|].
  exists id1, id2, id3. auto 7.
Qed.

(** A call of [move_leg] on a configured leg: three immediate moves, then
    the store. *)
Lemma move_leg_ok (leg : string) (x y z : R) (time_ms : Z) (self : hexapod) :
  geometry_ok self -> leg_wired self leg ->
  exists f1 f2 f3,
    move_leg leg x y z time_ms self
    = Done tt (advanced self [f1; f2; f3]
                 (<[leg := (x, y, z)]> (leg_positions self)))
    /\ Forall (fun f => f !! 4%nat = Some CMD_MOVE_TIME_WRITE) [f1; f2; f3].
Proof.
  intros (Hf & Ht & Hft) Hwired.
  destruct (bighex_leg_ik_total x y z (coxa_len self) _ _ Hf Ht Hft)
    as (coxa & femur & tibia & Hik).
  destruct (leg_wired_ids self leg Hwired)
    as (id1 & id2 & id3 & H1 & H2 & H3 & B1 & B2 & B3).
  exists (move_frame self leg "coxa" id1 coxa time_ms),
         (move_frame self leg "femur" id2 femur time_ms),
         (move_frame self leg "tibia" id3 tibia time_ms).
  split; [|repeat constructor].
  unfold move_leg, mbind, lift. rewrite Hik.
  unfold set_leg_angles, mbind.
  rewrite set_servo_cases, H1, B1.
  rewrite set_servo_cases.
  change (servo_id_of (append_tx self _) leg "femur")
    with (servo_id_of self leg "femur").
  rewrite H2, B2. rewrite set_servo_cases.
  change (servo_id_of (append_tx (append_tx self _) _) leg "tibia")
    with (servo_id_of self leg "tibia").
  rewrite H3, B3. unfold store_position.
  rewrite !append_tx_app. reflexivity.
Qed.

Lemma load_position_some (self : hexapod) (leg : string) (p : position) :
  leg_positions self !! leg = Some p -> load_position leg self = Done p self.
Proof. unfold load_position, lift, getitem. now intros ->. Qed.

Lemma load_position_none (self : hexapod) (leg : string) :
  leg_positions self !! leg = None ->
  load_position leg self = Raised KeyError self.
Proof. unfold load_position, lift, getitem. now intros ->. Qed.

(** X10.  [move_leg] on a leg that is not in the servo table raises
    [KeyError] at the first lookup: no frame is written and nothing is
    stored. *)
Theorem move_leg_unknown_leg
    (leg : string) (x y z : R) (time_ms : Z) (self : hexapod) :
  geometry_ok self ->
  servo_ids self !! leg = None ->
  move_leg leg x y z time_ms self = Raised KeyError self.
Proof.
  intros (Hf & Ht & Hft) Hleg.
  destruct (bighex_leg_ik_total x y z (coxa_len self) _ _ Hf Ht Hft)
    as (coxa & femur & tibia & Hik).
  unfold move_leg, mbind, lift. rewrite Hik.
  unfold set_leg_angles, mbind. rewrite set_servo_cases.
  unfold servo_id_of, getitem2, getitem. now rewrite Hleg.
Qed.

Lemma move_leg_unknown_leg_witness :
  move_leg "L4" 100 0 (-80) 500 default_hexapod
  = Raised KeyError default_hexapod.
Proof.
  apply move_leg_unknown_leg.
  - exact default_geometry_ok.
  - reflexivity.
Defined.

(** X11.  [move_leg] does not undo what it has sent: when the coxa servo
    of the leg is configured but the id of its femur servo does not fit a
    byte, the coxa servo has been commanded to move, [ValueError] is
    raised, and the stored position of the leg is still the old one. *)
Theorem move_leg_no_rollback
    (leg : string) (x y z : R) (time_ms : Z) (self : hexapod)
    (id1 id2 : Z) :
  geometry_ok self ->
  servo_id_of self leg "coxa" = Ok id1 -> is_byte id1 = true ->
  servo_id_of self leg "femur" = Ok id2 -> is_byte id2 = false ->
  exists coxa femur tibia,
    leg_ik x y z (coxa_len self) (femur_len self) (tibia_len self)
    = Ok (Some (coxa, femur, tibia))
    /\ move_leg leg x y z time_ms self
       = Raised ValueError
           (append_tx self [move_frame self leg "coxa" id1 coxa time_ms])
    /\ is_dispatch (move_frame self leg "coxa" id1 coxa time_ms) = true.
Proof.
  intros (Hf & Ht & Hft) H1 B1 H2 B2.
  destruct (bighex_leg_ik_total x y z (coxa_len self) _ _ Hf Ht Hft)
    as (coxa & femur & tibia & Hik).
  exists coxa, femur, tibia. split; [exact Hik|]. split; [|reflexivity].
  unfold move_leg, mbind, lift. rewrite Hik.
  unfold set_leg_angles, mbind.
  rewrite set_servo_cases, H1, B1.
  rewrite set_servo_cases.
  change (servo_id_of (append_tx self _) leg "femur")
    with (servo_id_of self leg "femur").
  now rewrite H2, B2.
Qed.

(** X12.  [move_leg_relative] moves a configured leg by the given offsets
    from its stored position, with three immediate moves, and stores the
    sum; a leg without a stored position raises [KeyError] before
    anything is sent. *)
Theorem move_leg_relative_displaces
    (leg : string) (dx dy dz : R) (time_ms : Z) (self : hexapod) :
  geometry_ok self -> leg_wired self leg ->
  match leg_positions self !! leg with
  | Some (x, y, z) =>
      exists f1 f2 f3,
        move_leg_relative leg dx dy dz time_ms self
        = Done tt (advanced self [f1; f2; f3]
                     (<[leg := (x + dx, y + dy, z + dz)%R]>
                        (leg_positions self)))
        /\ Forall (fun f => f !! 4%nat = Some CMD_MOVE_TIME_WRITE)
                  [f1; f2; f3]
  | None => move_leg_relative leg dx dy dz time_ms self = Raised KeyError self
  end.
Proof.
  intros Hgeo Hwired.
  destruct (leg_positions self !! leg) as [[[x y] z]|] eqn:Hp;
    unfold move_leg_relative, mbind.
  - rewrite (load_position_some self leg (x, y, z)) by exact Hp.
    apply move_leg_ok; assumption.
  - now rewrite load_position_none by exact Hp.
Qed.

Lemma move_leg_relative_displaces_witness :
  match leg_positions default_hexapod !! "L1"%string with
  | Some (x, y, z) =>
      exists f1 f2 f3,
        move_leg_relative "L1" 10 0 5 200 default_hexapod
        = Done tt (advanced default_hexapod [f1; f2; f3]
                     (<["L1"%string := (x + 10, y + 0, z + 5)%R]>
                        (leg_positions default_hexapod)))
        /\ Forall (fun f => f !! 4%nat = Some CMD_MOVE_TIME_WRITE)
                  [f1; f2; f3]
  | None =>
      move_leg_relative "L1" 10 0 5 200 default_hexapod
      = Raised KeyError default_hexapod
  end.
Proof.
  apply move_leg_relative_displaces.
  - exact default_geometry_ok.
  - apply default_serial_ready. set_solver.
Defined.

Lemma move_leg_no_rollback_witness :
  exists coxa femur tibia,
    leg_ik 100 0 (-80) (coxa_len miswired_hexapod)
           (femur_len miswired_hexapod) (tibia_len miswired_hexapod)
    = Ok (Some (coxa, femur, tibia))
    /\ move_leg "L1" 100 0 (-80) 500 miswired_hexapod
       = Raised ValueError
           (append_tx miswired_hexapod
              [move_frame miswired_hexapod "L1" "coxa" 1 coxa 500])
    /\ is_dispatch (move_frame miswired_hexapod "L1" "coxa" 1 coxa 500)
       = true.
Proof.
  apply (move_leg_no_rollback "L1" 100 0 (-80) 500 miswired_hexapod 1 300).
  - exact default_geometry_ok.
  - reflexivity.
  - reflexivity.
  - reflexivity.
  - reflexivity.
Defined.

Lemma for_each_cons {S A} (x : A) (rest : list A) (body : A -> M S unit)
    (s : S) :
  for_each (x :: rest) body s
  = match body x s with
    | Done _ s' => for_each rest body s'
    | Raised e s' => Raised e s'
    end.
Proof. reflexivity. Qed.

(** The loop over the three joints of a leg, for a bus command that
    writes one frame. *)
Lemma for_each_joint_ok (body : Z -> M LX16A.bus unit) (frame : Z -> list Z)
    (leg : string) (self : hexapod) (id1 id2 id3 : Z) :
  (forall servo_id b, is_byte servo_id = true ->
     body servo_id b = Done tt {| tx := tx b ++ [frame servo_id] |}) ->
  servo_id_of self leg "coxa" = Ok id1 ->
  servo_id_of self leg "femur" = Ok id2 ->
  servo_id_of self leg "tibia" = Ok id3 ->
  is_byte id1 = true -> is_byte id2 = true -> is_byte id3 = true ->
  for_each ["coxa"; "femur"; "tibia"]%string
    (fun joint self =>
       (servo_id <~ lift (servo_id_of self leg joint) ;;
        on_bus (body servo_id)) self) self
  = Done tt (append_tx self [frame id1; frame id2; frame id3]).
Proof.
  intros Hbody H1 H2 H3 B1 B2 B3.
  cbn [for_each]. unfold mbind, lift, on_bus.
  rewrite H1, (Hbody id1) by exact B1.
  change (servo_id_of (with_bus self _) leg "femur")
    with (servo_id_of self leg "femur").
  rewrite H2. cbn [bus with_bus]. rewrite (Hbody id2) by exact B2.
  change (servo_id_of (with_bus (with_bus self _) _) leg "tibia")
    with (servo_id_of self leg "tibia").
  rewrite H3. cbn [bus with_bus]. rewrite (Hbody id3) by exact B3.
  unfold ret, append_tx, with_bus. cbn. now rewrite <- !app_assoc.
Qed.

(** The loop over all servos, for such a command: one frame per servo, in
    the order of the legs and, within a leg, of the joints. *)
Lemma for_each_legs_ok (body : Z -> M LX16A.bus unit) (frame : Z -> list Z) :
  (forall servo_id b, is_byte servo_id = true ->
     body servo_id b = Done tt {| tx := tx b ++ [frame servo_id] |}) ->
  forall (ls : list string) (self : hexapod),
    (forall l, l ∈ ls -> leg_wired self l) ->
    exists ids,
      Forall2 (fun lj servo_id =>
                 servo_id_of self (fst lj) (snd lj) = Ok servo_id
                 /\ is_byte servo_id = true)
              (list_prod ls ["coxa"; "femur"; "tibia"]%string) ids
      /\ for_each ls (fun leg =>
           for_each ["coxa"; "femur"; "tibia"]%string
             (fun joint self =>
                (servo_id <~ lift (servo_id_of self leg joint) ;;
                 on_bus (body servo_id)) self)) self
         = Done tt (append_tx self (map frame ids)).
Proof.
  intros Hbody. induction ls as [|l ls IH]; intros self Hwired.
  - exists []. split; [constructor|]. cbn. unfold ret.
    now rewrite append_tx_nil.
  - destruct (leg_wired_ids self l (Hwired l ltac:(set_solver)))
      as (id1 & id2 & id3 & H1 & H2 & H3 & B1 & B2 & B3).
    set (s1 := append_tx self [frame id1; frame id2; frame id3]).
    destruct (IH s1) as (ids & Hids & Hrest).
    { intros l' Hl'. exact (Hwired l' ltac:(set_solver)). }
    exists (id1 :: id2 :: id3 :: ids). split.
    + cbn [list_prod map app]. repeat (constructor; [now split|]).
      exact Hids.
    + rewrite for_each_cons.
      rewrite (for_each_joint_ok body frame l self id1 id2 id3) by assumption.
      fold s1. rewrite Hrest. subst s1. now rewrite append_tx_app.
Qed.

Lemma for_each_servo_ok (body : Z -> M LX16A.bus unit) (frame : Z -> list Z)
    (self : hexapod) :
  (forall servo_id b, is_byte servo_id = true ->
     body servo_id b = Done tt {| tx := tx b ++ [frame servo_id] |}) ->
  (forall l, l ∈ legs -> leg_wired self l) ->
  exists ids,
    Forall2 (fun lj servo_id =>
               servo_id_of self (fst lj) (snd lj) = Ok servo_id
               /\ is_byte servo_id = true)
            (list_prod legs ["coxa"; "femur"; "tibia"]%string) ids
    /\ for_each_servo body self = Done tt (append_tx self (map frame ids)).
Proof.
  intros Hbody Hwired. exact (for_each_legs_ok body frame Hbody legs self Hwired).
Qed.

(** X13.  [center_all] queues the position 500 for each of the eighteen
    configured servos, leg by leg and joint by joint, and then broadcasts
    one start: the direction and the calibration offset of a servo play no
    part, and the stored foot positions are left as they were. *)
Theorem center_all_queues_500 (time_ms : Z) (self : hexapod) :
  (forall l, l ∈ legs -> leg_wired self l) ->
  exists ids s',
    Forall2 (fun lj servo_id =>
               servo_id_of self (fst lj) (snd lj) = Ok servo_id)
            (list_prod legs ["coxa"; "femur"; "tibia"]%string) ids
    /\ center_all time_ms self = Done tt s'
    /\ tx (bus s')
       = tx (bus self)
         ++ map (fun servo_id =>
                   frame_of servo_id CMD_MOVE_TIME_WAIT_WRITE
                            (packed 500 time_ms)) ids
         ++ [frame_of BROADCAST_ID CMD_MOVE_START []]
    /\ leg_positions s' = leg_positions self.
Proof.
  intros Hwired.
  destruct (for_each_servo_ok
              (fun servo_id => move_prepare servo_id 500 time_ms)
              (fun servo_id =>
                 frame_of servo_id CMD_MOVE_TIME_WAIT_WRITE
                          (packed 500 time_ms)) self)
    as (ids & Hids & Hloop).
  { intros servo_id b Hid. rewrite bus_move_prepare_cases. now rewrite Hid. }
  { exact Hwired. }
  exists ids. eexists. split; [|split; [|split]].
  - eapply Forall2_impl; [exact Hids|]. now intros lj servo_id [H _].
  - unfold center_all, mbind. rewrite Hloop.
    unfold on_bus. rewrite bus_move_start_broadcast. reflexivity.
  - cbn. now rewrite <- app_assoc.
  - reflexivity.
Qed.

Lemma default_wired (l : string) : l ∈ legs -> leg_wired default_hexapod l.
Proof. intros Hl. now apply default_serial_ready. Qed.

Lemma center_all_queues_500_witness :
  exists ids s',
    Forall2 (fun lj servo_id =>
               servo_id_of default_hexapod (fst lj) (snd lj) = Ok servo_id)
            (list_prod legs ["coxa"; "femur"; "tibia"]%string) ids
    /\ center_all 500 default_hexapod = Done tt s'
    /\ tx (bus s')
       = tx (bus default_hexapod)
         ++ map (fun servo_id =>
                   frame_of servo_id CMD_MOVE_TIME_WAIT_WRITE
                            (packed 500 500)) ids
         ++ [frame_of BROADCAST_ID CMD_MOVE_START []]
    /\ leg_positions s' = leg_positions default_hexapod.
Proof. exact (center_all_queues_500 500 default_hexapod default_wired). Defined.

(** X14.  [load_all] and [unload_all] write one torque frame to each of
    the eighteen configured servos, in the order of the legs and joints,
    with the payload 1 to enable and 0 to disable; unlike the pose
    commands they act at once, without a start broadcast. *)
Theorem load_all_unload_all_frames (self : hexapod) :
  (forall l, l ∈ legs -> leg_wired self l) ->
  exists ids,
    Forall2 (fun lj servo_id =>
               servo_id_of self (fst lj) (snd lj) = Ok servo_id)
            (list_prod legs ["coxa"; "femur"; "tibia"]%string) ids
    /\ load_all self
       = Done tt (append_tx self
                    (map (fun servo_id =>
                            frame_of servo_id CMD_LOAD_OR_UNLOAD_WRITE [1])
                         ids))
    /\ unload_all self
       = Done tt (append_tx self
                    (map (fun servo_id =>
                            frame_of servo_id CMD_LOAD_OR_UNLOAD_WRITE [0])
                         ids)).
Proof.
  intros Hwired.
  destruct (for_each_servo_ok load
              (fun servo_id => frame_of servo_id CMD_LOAD_OR_UNLOAD_WRITE [1])
              self) as (ids & Hids & Hload).
  { intros servo_id b Hid. unfold load.
    apply send_command_ok; [assumption|reflexivity|reflexivity|cbn; lia]. }
  { exact Hwired. }
  destruct (for_each_servo_ok unload
              (fun servo_id => frame_of servo_id CMD_LOAD_OR_UNLOAD_WRITE [0])
              self) as (ids' & Hids' & Hunload).
  { intros servo_id b Hid. unfold unload.
    apply send_command_ok; [assumption|reflexivity|reflexivity|cbn; lia]. }
  { exact Hwired. }
  assert (ids' = ids) as ->.
  { clear Hload Hunload. revert ids' Hids'.
    induction Hids as [|lj servo_id ljs ids [Hid _] _ IH]; intros ids' Hids'.
    - now apply Forall2_nil_inv_l in Hids'.
    - apply Forall2_cons_inv_l in Hids' as (servo_id' & ids'' & [Hid' _] & Hrest & ->).
      rewrite Hid in Hid'. injection Hid' as ->. f_equal. now apply IH. }
  exists ids. split; [|split; assumption].
  eapply Forall2_impl; [exact Hids|]. now intros lj servo_id [H _].
Qed.

Lemma load_all_unload_all_frames_witness :
  exists ids,
    Forall2 (fun lj servo_id =>
               servo_id_of default_hexapod (fst lj) (snd lj) = Ok servo_id)
            (list_prod legs ["coxa"; "femur"; "tibia"]%string) ids
    /\ load_all default_hexapod
       = Done tt (append_tx default_hexapod
                    (map (fun servo_id =>
                            frame_of servo_id CMD_LOAD_OR_UNLOAD_WRITE [1])
                         ids))
    /\ unload_all default_hexapod
       = Done tt (append_tx default_hexapod
                    (map (fun servo_id =>
                            frame_of servo_id CMD_LOAD_OR_UNLOAD_WRITE [0])
                         ids)).
Proof. exact (load_all_unload_all_frames default_hexapod default_wired). Defined.

Lemma store_all_const (ls : list string) (v : position) :
  forall (lp : gmap string position) (k : string),
    store_all (map (fun l => (l, v)) ls) lp !! k
    = if decide (k ∈ ls) then Some v else lp !! k.
Proof.
  induction ls as [|l ls IH]; intros lp k.
  - cbn. now rewrite decide_False by set_solver.
  - cbn [map]. rewrite store_all_cons, IH.
    destruct (decide (k ∈ ls)) as [Hin|Hout].
    + now rewrite decide_True by set_solver.
    + destruct (decide (k = l)) as [->|Hne].
      * rewrite decide_True by set_solver. apply lookup_insert_eq.
      * rewrite decide_False by set_solver. now apply lookup_insert_ne.
Qed.

Lemma stand_positions (h : R) :
  fold_left (fun positions leg =>
               ODict.setitem positions leg (100, 0, - h)%R) legs []
  = map (fun leg => (leg, (100, 0, - h)%R)) legs.
Proof. reflexivity. Qed.

(** X15.  [stand] queues all eighteen servos and broadcasts one start,
    and stores the same position for every leg: 100 mm out, at the chosen
    height below the body.  The chosen height is the one given, except
    that a height of zero, like no height at all, falls back to the
    stored body height; it is what the call leaves in [body_height]. *)
Theorem stand_places_every_leg
    (body_height : R) (height : option R) (time_ms : Z) (self : hexapod) :
  geometry_ok self ->
  (forall l, l ∈ legs -> leg_wired self l) ->
  exists h prepared s',
    stand body_height height time_ms self = Done h s'
    /\ (height = None \/ height = Some 0%R -> h = body_height)
    /\ (forall v, height = Some v -> v <> 0%R -> h = v)
    /\ tx (bus s')
       = tx (bus self) ++ prepared ++ [frame_of BROADCAST_ID CMD_MOVE_START []]
    /\ List.length prepared = 18%nat
    /\ Forall (fun f => f !! 4%nat = Some CMD_MOVE_TIME_WAIT_WRITE) prepared
    /\ (forall l, l ∈ legs ->
          leg_positions s' !! l = Some (100, 0, - h)%R)
    /\ (forall l, l ∉ legs ->
          leg_positions s' !! l = leg_positions self !! l).
Proof.
  intros Hgeo Hwired.
  set (h := falsy_or height body_height).
  destruct (move_all_legs_ok
              (map (fun leg => (leg, (100, 0, - h)%R)) legs) time_ms self Hgeo)
    as (prepared & Hmove & Hlen & Hcmds).
  { intros item Hitem. apply list_elem_of_fmap in Hitem as (l & -> & Hl).
    now apply Hwired. }
  exists h, prepared. eexists.
  split; [|split; [|split; [|split; [|split; [|split; [|split]]]]]].
  - unfold stand. fold h. rewrite stand_positions.
    unfold mbind. rewrite Hmove. reflexivity.
  - intros [->| ->]; subst h; unfold falsy_or; [reflexivity|].
    destruct (Req_dec_T 0 0) as [_|Hne]; [reflexivity|now contradiction Hne].
  - intros v -> Hv. subst h. unfold falsy_or.
    destruct (Req_dec_T v 0) as [Hz|_]; [contradiction|reflexivity].
  - reflexivity.
  - exact Hlen.
  - exact Hcmds.
  - intros l Hl.
    change (store_all (map (fun leg => (leg, (100, 0, - h)%R)) legs)
                      (leg_positions self) !! l = Some (100, 0, - h)%R).
    rewrite store_all_const. now rewrite decide_True by exact Hl.
  - intros l Hl.
    change (store_all (map (fun leg => (leg, (100, 0, - h)%R)) legs)
                      (leg_positions self) !! l = leg_positions self !! l).
    rewrite store_all_const. now rewrite decide_False by exact Hl.
Qed.

Lemma stand_places_every_leg_witness :
  exists h prepared s',
    stand 80 (Some 0%R) 500 default_hexapod = Done h s'
    /\ (Some 0%R = None \/ Some 0%R = Some 0%R -> h = 80%R)
    /\ (forall v, Some 0%R = Some v -> v <> 0%R -> h = v)
    /\ tx (bus s')
       = tx (bus default_hexapod) ++ prepared
         ++ [frame_of BROADCAST_ID CMD_MOVE_START []]
    /\ List.length prepared = 18%nat
    /\ Forall (fun f => f !! 4%nat = Some CMD_MOVE_TIME_WAIT_WRITE) prepared
    /\ (forall l, l ∈ legs ->
          leg_positions s' !! l = Some (100, 0, - h)%R)
    /\ (forall l, l ∉ legs ->
          leg_positions s' !! l = leg_positions default_hexapod !! l).
Proof.
  exact (stand_places_every_leg 80 (Some 0%R) 500 default_hexapod
           default_geometry_ok default_wired).
Defined.

Lemma fill_missing (f : position -> position) (l : string) (ls : list string) :
  forall (d : ODict.t position) (self : hexapod),
    l ∈ ls -> leg_positions self !! l = None ->
    fill ls f d self = Raised KeyError self.
Proof.
  induction ls as [|l0 ls IH]; intros d self Hl Hnone; [set_solver|].
  cbn [fill]. unfold mbind.
  destruct (leg_positions self !! l0) as [p|] eqn:Hp.
  - rewrite (load_position_some self l0 p) by exact Hp.
    apply IH; [|exact Hnone].
    apply elem_of_cons in Hl as [->|Hl]; [congruence|exact Hl].
  - now rewrite load_position_none by exact Hp.
Qed.

(** X16.  [body_shift] reads the stored position of every leg before it
    sends anything: with all six legs stored it queues eighteen moves,
    broadcasts one start and stores each leg's position moved against the
    shift; when a leg has no stored position it raises [KeyError] with
    nothing written and nothing stored. *)
Theorem body_shift_all_or_nothing
    (dx dy dz : R) (time_ms : Z) (self : hexapod) :
  geometry_ok self ->
  (forall l, l ∈ legs -> leg_wired self l) ->
  ((forall l, l ∈ legs -> is_Some (leg_positions self !! l)) ->
   exists prepared s',
     body_shift dx dy dz time_ms self = Done tt s'
     /\ tx (bus s')
        = tx (bus self) ++ prepared
          ++ [frame_of BROADCAST_ID CMD_MOVE_START []]
     /\ List.length prepared = 18%nat
     /\ (forall l, l ∈ legs ->
           leg_positions s' !! l
           = shift_by dx dy dz <$> leg_positions self !! l)
     /\ (forall l, l ∉ legs ->
           leg_positions s' !! l = leg_positions self !! l))
  /\ ((exists l, l ∈ legs /\ leg_positions self !! l = None) ->
      body_shift dx dy dz time_ms self = Raised KeyError self).
Proof.
  intros Hgeo Hwired. split.
  - intros Hsome.
    assert (Hnd : NoDup legs).
    { unfold legs. repeat (apply NoDup_cons; split; [set_solver|]).
      apply NoDup_nil_2. }
    set (positions := entries legs (shift_by dx dy dz) (leg_positions self)).
    destruct (move_all_legs_ok positions time_ms self Hgeo)
      as (prepared & Hmove & Hlen & Hcmds).
    { apply entries_wired. exact Hwired. }
    assert (Hsize : List.length positions = 6%nat).
    { assert (Hgen : forall ls,
                (forall l, l ∈ ls -> is_Some (leg_positions self !! l)) ->
                List.length (entries ls (shift_by dx dy dz)
                                     (leg_positions self))
                = List.length ls).
      { induction ls as [|l0 ls IH]; intros Hs; [reflexivity|].
        cbn [entries]. destruct (Hs l0 ltac:(set_solver)) as [p ->].
        cbn [List.length]. f_equal. apply IH. intros. apply Hs. set_solver. }
      subst positions. now rewrite Hgen. }
    exists prepared. eexists. split; [|split; [|split; [|split]]].
    + unfold body_shift, mbind.
      rewrite fill_ok; [|exact Hnd|set_solver|exact Hsome].
      cbn [app]. fold positions. rewrite Hmove. reflexivity.
    + reflexivity.
    + rewrite Hlen, Hsize. reflexivity.
    + intros l Hl.
      change (store_all positions (leg_positions self) !! l
              = shift_by dx dy dz <$> leg_positions self !! l).
      subst positions. rewrite store_entries_lookup by assumption.
      now rewrite decide_True by exact Hl.
    + intros l Hl.
      change (store_all positions (leg_positions self) !! l
              = leg_positions self !! l).
      subst positions. rewrite store_entries_lookup by assumption.
      now rewrite decide_False by exact Hl.
  - intros (l & Hl & Hnone). unfold body_shift, mbind.
    now rewrite (fill_missing _ l) by assumption.
Qed.

Lemma body_shift_all_or_nothing_witness :
  ((forall l, l ∈ legs -> is_Some (leg_positions default_hexapod !! l)) ->
   exists prepared s',
     body_shift 10 0 (-5) 300 default_hexapod = Done tt s'
     /\ tx (bus s')
        = tx (bus default_hexapod) ++ prepared
          ++ [frame_of BROADCAST_ID CMD_MOVE_START []]
     /\ List.length prepared = 18%nat
     /\ (forall l, l ∈ legs ->
           leg_positions s' !! l
           = shift_by 10 0 (-5) <$> leg_positions default_hexapod !! l)
     /\ (forall l, l ∉ legs ->
           leg_positions s' !! l = leg_positions default_hexapod !! l))
  /\ ((exists l, l ∈ legs /\ leg_positions default_hexapod !! l = None) ->
      body_shift 10 0 (-5) 300 default_hexapod
      = Raised KeyError default_hexapod).
Proof.
  exact (body_shift_all_or_nothing 10 0 (-5) 300 default_hexapod
           default_geometry_ok default_wired).
Defined.

End Poses.
(** ** Whole gait cycles *)

Section Cycles.

Lemma position_eq (x y z x' y' z' : R) :
  x = x' -> y = y' -> z = z' -> Some (x, y, z) = Some (x', y', z').
Proof. now intros -> -> ->. Qed.

Lemma legs_in_tripods (l : string) :
  l ∈ BigHex.legs ->
  (l ∈ Hex.tripod1 /\ l ∉ Hex.tripod2) \/ (l ∈ Hex.tripod2 /\ l ∉ Hex.tripod1).
Proof.
  destruct tripods_partition as (_ & _ & _ & _ & Hdisj & Hcover & Hsame).
  intros Hl. apply Hsame, Hcover in Hl as [H1|H2].
  - left. split; [exact H1|now apply Hdisj].
  - right. split; [exact H2|]. intros H1. exact (Hdisj l H1 H2).
Qed.

Lemma tripods_in_legs (l : string) :
  l ∈ Hex.tripod1 ++ Hex.tripod2 \/ l ∈ Hex.tripod2 ++ Hex.tripod1 ->
  l ∈ BigHex.legs /\ l ∈ Hex.legs.
Proof.
  destruct tripods_partition as (_ & _ & _ & _ & _ & Hcover & Hsame).
  intros Hl. assert (l ∈ Hex.legs) by (apply Hcover; set_solver).
  split; [now apply Hsame|assumption].
Qed.

(** The position stored for a leg after one [_tripod_step] of the
    serial-bus robot. *)
Lemma tripod_positions_lookup (h : R) (swing stance : list string)
    (dx dy lift : R) (lp : gmap string position) (k : string) :
  NoDup (swing ++ stance) ->
  (forall l, l ∈ swing ++ stance -> is_Some (lp !! l)) ->
  tripod_positions h swing stance dx dy lift lp !! k
  = if decide (k ∈ swing)
    then (fun p => lower_to h (swing_by dx dy (raise_by lift p))) <$> lp !! k
    else if decide (k ∈ stance) then push_by (dx / 2) (dy / 2) <$> lp !! k
         else lp !! k.
Proof.
  intros Hnd Hsome.
  destruct (NoDup_app_parts _ _ Hnd) as (Hsw & Hst & Hdisj).
  unfold tripod_positions.
  set (lp1 := store_all (entries swing (raise_by lift) lp) lp).
  set (lp2 := store_all (entries swing (swing_by dx dy) lp1
                         ++ entries stance (push_by (dx / 2) (dy / 2)) lp1) lp1).
  assert (Hsome1 : forall l, l ∈ swing ++ stance -> is_Some (lp1 !! l)).
  { intros l' Hl. apply store_all_is_Some. now apply Hsome. }
  assert (Hsome2 : forall l, l ∈ swing ++ stance -> is_Some (lp2 !! l)).
  { intros l' Hl. apply store_all_is_Some. now apply Hsome1. }
  assert (H1 : lp1 !! k
               = if decide (k ∈ swing) then raise_by lift <$> lp !! k
                 else lp !! k).
  { apply store_entries_lookup; [assumption|].
    intros; apply Hsome; set_solver. }
  assert (H2 : lp2 !! k
               = if decide (k ∈ stance)
                 then push_by (dx / 2) (dy / 2) <$> lp1 !! k
                 else if decide (k ∈ swing) then swing_by dx dy <$> lp1 !! k
                      else lp1 !! k).
  { unfold lp2. rewrite store_all_app.
    rewrite store_entries_lookup;
      [|assumption|intros; apply Hsome1; set_solver].
    destruct (decide (k ∈ stance)); [reflexivity|].
    apply store_entries_lookup; [assumption|].
    intros; apply Hsome1; set_solver. }
  rewrite store_entries_lookup;
    [|assumption|intros; apply Hsome2; set_solver].
  rewrite H2, H1.
  destruct (decide (k ∈ swing)) as [Hin|Hout].
  - rewrite decide_False by now apply Hdisj.
    now destruct (lp !! k).
  - reflexivity.
Qed.

(** The position stored for a leg after one [_tripod_step] of the PWM
    robot. *)
Lemma pwm_tripod_positions_lookup (h : R) (swing stance : list string)
    (dx dy lift : R) (lp : ODict.t position) (k : string) :
  NoDup (swing ++ stance) ->
  (forall l, l ∈ swing ++ stance -> is_Some (lp !! l)) ->
  pwm_tripod_positions h swing stance dx dy lift lp !! k
  = if decide (k ∈ swing)
    then (fun p => lower_to h (swing_by (dx / 2) (dy / 2) (raise_by lift p)))
           <$> lp !! k
    else if decide (k ∈ stance) then push_by (dx / 2) (dy / 2) <$> lp !! k
         else lp !! k.
Proof.
  intros Hnd Hsome.
  destruct (NoDup_app_parts _ _ Hnd) as (Hsw & Hst & Hdisj).
  unfold pwm_tripod_positions.
  set (lp1 := moved swing (raise_by lift) lp).
  set (lp2 := moved swing (swing_by (dx / 2) (dy / 2)) lp1).
  set (lp3 := moved stance (push_by (dx / 2) (dy / 2)) lp2).
  assert (H1 : lp1 !! k
               = if decide (k ∈ swing) then raise_by lift <$> lp !! k
                 else lp !! k).
  { apply moved_lookup; [assumption|].
    intros; apply Hsome; set_solver. }
  assert (H2 : lp2 !! k
               = if decide (k ∈ swing)
                 then swing_by (dx / 2) (dy / 2) <$> lp1 !! k
                 else lp1 !! k).
  { apply moved_lookup; [assumption|].
    intros; apply moved_is_Some; apply Hsome; set_solver. }
  assert (H3 : lp3 !! k
               = if decide (k ∈ stance)
                 then push_by (dx / 2) (dy / 2) <$> lp2 !! k
                 else lp2 !! k).
  { apply moved_lookup; [assumption|].
    intros; do 2 apply moved_is_Some; apply Hsome; set_solver. }
  rewrite moved_lookup;
    [|assumption|intros; do 3 apply moved_is_Some; apply Hsome; set_solver].
  rewrite H3, H2, H1.
  destruct (decide (k ∈ swing)) as [Hin|Hout].
  - rewrite decide_False by now apply Hdisj.
    now destruct (lp !! k).
  - reflexivity.
Qed.

(** *** The serial-bus robot: the stored positions run ahead *)

Lemma serial_cycle_lookup (h dx dy lift : R) (lp : gmap string position)
    (l : string) (x y z : R) :
  (forall k, k ∈ BigHex.legs -> is_Some (lp !! k)) ->
  l ∈ BigHex.legs -> lp !! l = Some (x, y, z) ->
  exists x' y',
    tripod_positions h Hex.tripod2 Hex.tripod1 dx dy lift
      (tripod_positions h Hex.tripod1 Hex.tripod2 dx dy lift lp) !! l
    = Some (x', y', - h)%R
    /\ (x' - x = dx / 2)%R /\ (y' - y = dy / 2)%R.
Proof.
  intros Hsome Hl Hp.
  destruct tripods_partition as (_ & _ & Hnd12 & Hnd21 & _).
  rewrite tripod_positions_lookup; [|exact Hnd21|].
  2:{ intros k Hk. apply tripod_positions_is_Some, Hsome.
      apply tripods_in_legs. now right. }
  rewrite tripod_positions_lookup; [|exact Hnd12|].
  2:{ intros k Hk. apply Hsome. apply tripods_in_legs. now left. }
  unfold position in *. rewrite Hp.
  destruct (legs_in_tripods l Hl) as [[H1 H2]|[H2 H1]].
  - rewrite (decide_False (P := l ∈ Hex.tripod2)) by exact H2.
    rewrite !(decide_True (P := l ∈ Hex.tripod1)) by exact H1.
    eexists _, _. split; [reflexivity|]. split; lra.
  - rewrite !(decide_True (P := l ∈ Hex.tripod2)) by exact H2.
    rewrite (decide_False (P := l ∈ Hex.tripod1)) by exact H1.
    eexists _, _. split; [reflexivity|]. split; lra.
Qed.

Lemma serial_cycle_is_Some (h dx dy lift : R) (lp : gmap string position)
    (l : string) :
  is_Some (lp !! l) ->
  is_Some (tripod_positions h Hex.tripod2 Hex.tripod1 dx dy lift
             (tripod_positions h Hex.tripod1 Hex.tripod2 dx dy lift lp) !! l).
Proof. intros H. now do 2 apply tripod_positions_is_Some. Qed.

Lemma serial_walk_cycle_ok (h dx dy lift : R) (move_time : Z)
    (self : BigHex.hexapod) :
  (0 <= move_time)%Z ->
  geometry_ok self ->
  (forall l, l ∈ BigHex.legs ->
     leg_wired self l /\ is_Some (BigHex.leg_positions self !! l)) ->
  exists frames,
    BigHex.walk_cycle h dx dy lift move_time self
    = Done tt (advanced self frames
                 (tripod_positions h Hex.tripod2 Hex.tripod1 dx dy lift
                    (tripod_positions h Hex.tripod1 Hex.tripod2 dx dy lift
                       (BigHex.leg_positions self)))).
Proof.
  intros Htime Hgeo Hready.
  destruct tripods_partition as (_ & _ & Hnd12 & Hnd21 & _).
  destruct (bighex_tripod_step_ok h Hex.tripod1 Hex.tripod2 dx dy lift
              move_time self Htime Hgeo Hnd12) as (fr1 & Hstep1).
  { intros l Hl. apply Hready. apply tripods_in_legs. now left. }
  set (lp := BigHex.leg_positions self) in *.
  set (lp1 := tripod_positions h Hex.tripod1 Hex.tripod2 dx dy lift lp) in *.
  set (b1 := advanced self fr1 lp1) in *.
  destruct (bighex_tripod_step_ok h Hex.tripod2 Hex.tripod1 dx dy lift
              move_time b1 Htime Hgeo Hnd21) as (fr2 & Hstep2).
  { intros l Hl.
    assert (Hin : l ∈ BigHex.legs) by (apply tripods_in_legs; now right).
    split.
    - exact (proj1 (Hready l Hin)).
    - apply tripod_positions_is_Some. exact (proj2 (Hready l Hin)). }
  change (BigHex.leg_positions b1) with lp1 in Hstep2.
  exists (fr1 ++ fr2).
  unfold BigHex.walk_cycle, mbind.
  change BigHex.tripod1 with Hex.tripod1. change BigHex.tripod2 with Hex.tripod2.
  rewrite Hstep1. fold b1. rewrite Hstep2. subst b1.
  now rewrite advanced_advanced.
Qed.

Lemma leg_positions_advanced (self : BigHex.hexapod) (fs : list (list Z))
    (lp : gmap string position) :
  BigHex.leg_positions (advanced self fs lp) = lp.
Proof. reflexivity. Qed.

Lemma leg_wired_advanced (self : BigHex.hexapod) (fs : list (list Z))
    (lp : gmap string position) (l : string) :
  leg_wired self l -> leg_wired (advanced self fs lp) l.
Proof. intros H. exact H. Qed.

Lemma geometry_ok_advanced (self : BigHex.hexapod) (fs : list (list Z))
    (lp : gmap string position) :
  geometry_ok self -> geometry_ok (advanced self fs lp).
Proof. intros H. exact H. Qed.

Lemma serial_cycles_ok (h dx dy lift : R) (move_time : Z) (n : nat) :
  (0 <= move_time)%Z ->
  forall (a : nat) (self : BigHex.hexapod),
    geometry_ok self ->
    (forall l, l ∈ BigHex.legs ->
       leg_wired self l /\ is_Some (BigHex.leg_positions self !! l)) ->
    exists frames,
      for_each (seq a n)
               (fun _ => BigHex.walk_cycle h dx dy lift move_time) self
      = Done tt
          (advanced self frames
             (Nat.iter n
                (fun lp =>
                   tripod_positions h Hex.tripod2 Hex.tripod1 dx dy lift
                     (tripod_positions h Hex.tripod1 Hex.tripod2 dx dy lift
                        lp))
                (BigHex.leg_positions self))).
Proof.
  intros Htime.
  induction n as [|n IH]; intros a self Hgeo Hready.
  - exists []. cbn. unfold ret. now rewrite advanced_nil.
  - destruct (serial_walk_cycle_ok h dx dy lift move_time self Htime Hgeo
                Hready) as (fr1 & Hcycle).
    destruct (IH (S a)
                (advanced self fr1
                   (tripod_positions h Hex.tripod2 Hex.tripod1 dx dy lift
                      (tripod_positions h Hex.tripod1 Hex.tripod2 dx dy lift
                         (BigHex.leg_positions self)))))
      as (fr2 & Hrest).
    { now apply geometry_ok_advanced. }
    { intros l Hl. split.
      - apply leg_wired_advanced. exact (proj1 (Hready l Hl)).
      - rewrite leg_positions_advanced.
        apply serial_cycle_is_Some. exact (proj2 (Hready l Hl)). }
    rewrite leg_positions_advanced in Hrest.
    exists (fr1 ++ fr2).
    cbn [seq]. rewrite for_each_cons, Hcycle, Hrest.
    rewrite advanced_advanced. now rewrite Nat.iter_succ_r.
Qed.

Lemma serial_cycles_lookup (h dx dy lift : R) (n : nat) :
  forall (lp : gmap string position) (l : string) (x y z : R),
    (forall k, k ∈ BigHex.legs -> is_Some (lp !! k)) ->
    l ∈ BigHex.legs -> lp !! l = Some (x, y, z) ->
    exists x' y' z',
      Nat.iter n
        (fun lp =>
           tripod_positions h Hex.tripod2 Hex.tripod1 dx dy lift
             (tripod_positions h Hex.tripod1 Hex.tripod2 dx dy lift lp))
        lp !! l
      = Some (x', y', z')
      /\ (x' - x = INR n * (dx / 2))%R /\ (y' - y = INR n * (dy / 2))%R
      /\ ((0 < n)%nat -> z' = (- h)%R).
Proof.
  induction n as [|n IH]; intros lp l x y z Hsome Hl Hp.
  - exists x, y, z. cbn [Nat.iter INR]. split; [exact Hp|].
    split; [lra|]. split; [lra|lia].
  - rewrite Nat.iter_succ_r.
    destruct (serial_cycle_lookup h dx dy lift lp l x y z Hsome Hl Hp)
      as (x1 & y1 & Hp1 & Hx1 & Hy1).
    destruct (IH (tripod_positions h Hex.tripod2 Hex.tripod1 dx dy lift
                    (tripod_positions h Hex.tripod1 Hex.tripod2 dx dy lift
                       lp)) l x1 y1 (- h)%R)
      as (x' & y' & z' & Hp' & Hx' & Hy' & Hz');
      [|exact Hl|exact Hp1|].
    { intros k Hk. apply serial_cycle_is_Some. now apply Hsome. }
    exists x', y', z'. split; [exact Hp'|].
    rewrite S_INR. split; [lra|]. split; [lra|]. intros _.
    destruct n as [|n]; [|apply Hz'; lia].
    assert (E : Some (x', y', z') = Some (x1, y1, (- h)%R))
      by (rewrite <- Hp'; exact Hp1).
    now injection E.
Qed.

(** X17.  [walk] of the serial-bus robot runs its cycles to completion,
    and every cycle leaves the stored position of every foot half a step
    vector further along the walking direction: after [steps] cycles each
    of the six stored positions is displaced by [steps] times half of
    [(sl * cos rad, sl * sin rad)], where [sl] is the step length (the
    stored one when none, or zero, is given), and the feet are at the stand
    height.  The swing adds a full step vector and the stance takes back
    only half of it.  The cycle time (the stored one when none, or zero, is
    given) is not negative, as the pauses between the moves require. *)
Theorem serial_walk_drifts
    (stand_height self_step_length self_step_height self_cycle_time : R)
    (direction : R) (steps : nat)
    (step_length step_height cycle_time : option R)
    (self : BigHex.hexapod) :
  (0 <= falsy_or cycle_time self_cycle_time)%R ->
  geometry_ok self ->
  (forall l, l ∈ BigHex.legs ->
     leg_wired self l /\ is_Some (BigHex.leg_positions self !! l)) ->
  (0 < steps)%nat ->
  exists s',
    BigHex.walk stand_height self_step_length self_step_height
                self_cycle_time direction steps
                step_length step_height cycle_time self
    = Done tt s'
    /\ forall l x y z,
         l ∈ BigHex.legs ->
         BigHex.leg_positions self !! l = Some (x, y, z) ->
         exists x' y',
           BigHex.leg_positions s' !! l = Some (x', y', - stand_height)%R
           /\ (x' - x
               = INR steps * (falsy_or step_length self_step_length
                              * cos (IK.radians direction) / 2))%R
           /\ (y' - y
               = INR steps * (falsy_or step_length self_step_length
                              * sin (IK.radians direction) / 2))%R.
Proof.
  intros Hct Hgeo Hready Hsteps. unfold BigHex.walk.
  set (dx := (falsy_or step_length self_step_length
              * cos (IK.radians direction))%R).
  set (dy := (falsy_or step_length self_step_length
              * sin (IK.radians direction))%R).
  set (sh := falsy_or step_height self_step_height).
  set (move_time := IK.py_int _).
  assert (Htime : (0 <= move_time)%Z).
  { apply py_int_nonneg. lra. }
  destruct (serial_cycles_ok stand_height dx dy sh move_time steps Htime
              0%nat self Hgeo Hready) as (frames & Hrun).
  eexists. split; [exact Hrun|].
  intros l x y z Hl Hp.
  destruct (serial_cycles_lookup stand_height dx dy sh steps
              (BigHex.leg_positions self) l x y z)
    as (x' & y' & z' & Hp' & Hx & Hy & Hz); [|exact Hl|exact Hp|].
  { intros k Hk. now apply Hready. }
  exists x', y'. rewrite <- (Hz Hsteps). split; [exact Hp'|].
  split; [exact Hx|exact Hy].
Qed.

Lemma serial_walk_drifts_witness :
  exists s',
    BigHex.walk 80 60 40 (6 / 10) 0 4 None None None BigHex.default_hexapod
    = Done tt s'
    /\ forall l x y z,
         l ∈ BigHex.legs ->
         BigHex.leg_positions BigHex.default_hexapod !! l = Some (x, y, z) ->
         exists x' y',
           BigHex.leg_positions s' !! l = Some (x', y', - 80)%R
           /\ (x' - x
               = INR 4 * (falsy_or None 60 * cos (IK.radians 0) / 2))%R
           /\ (y' - y
               = INR 4 * (falsy_or None 60 * sin (IK.radians 0) / 2))%R.
Proof.
  apply serial_walk_drifts.
  - unfold falsy_or. lra.
  - exact default_geometry_ok.
  - exact default_serial_ready.
  - lia.
Defined.

Lemma entries_length (legs : list string) (f : position -> position)
    (lp : gmap string position) :
  (forall l, l ∈ legs -> is_Some (lp !! l)) ->
  List.length (entries legs f lp) = List.length legs.
Proof.
  induction legs as [|l rest IH]; intros Hsome; [reflexivity|].
  destruct (Hsome l ltac:(set_solver)) as [p Hp].
  cbn [entries]. rewrite Hp. cbn [List.length]. f_equal.
  apply IH. intros k Hk. apply Hsome. set_solver.
Qed.

(** X30.  With a cycle time of -6 ms or less (the stored one when none, or
    zero, is given), [walk] of the serial-bus robot stops at its first
    pause: the time of a move is then negative and [time.sleep] raises
    [ValueError], after the ten frames that lift the first tripod were
    written and the lifted positions stored.  Nothing is undone. *)
Theorem serial_walk_negative_cycle_time
    (stand_height self_step_length self_step_height self_cycle_time : R)
    (direction : R) (steps : nat)
    (step_length step_height cycle_time : option R)
    (self : BigHex.hexapod) :
  (falsy_or cycle_time self_cycle_time <= - (6 / 1000))%R ->
  geometry_ok self ->
  (forall l, l ∈ BigHex.tripod1 ->
     leg_wired self l /\ is_Some (BigHex.leg_positions self !! l)) ->
  (0 < steps)%nat ->
  exists frames s',
    BigHex.walk stand_height self_step_length self_step_height
                self_cycle_time direction steps
                step_length step_height cycle_time self
    = Raised ValueError s'
    /\ LX16A.tx (BigHex.bus s') = LX16A.tx (BigHex.bus self) ++ frames
    /\ List.length frames = 10%nat
    /\ forall l,
         BigHex.leg_positions s' !! l
         = if decide (l ∈ BigHex.tripod1)
           then raise_by (falsy_or step_height self_step_height)
                  <$> BigHex.leg_positions self !! l
           else BigHex.leg_positions self !! l.
Proof.
  intros Hct Hgeo Hready Hsteps. unfold BigHex.walk.
  set (dx := (falsy_or step_length self_step_length
              * cos (IK.radians direction))%R).
  set (dy := (falsy_or step_length self_step_length
              * sin (IK.radians direction))%R).
  set (sh := falsy_or step_height self_step_height).
  set (move_time := IK.py_int _).
  assert (Htime : (move_time < 0)%Z).
  { apply py_int_negative. lra. }
  assert (Hnd : NoDup BigHex.tripod1).
  { unfold BigHex.tripod1. repeat (apply NoDup_cons; split; [set_solver|]).
    apply NoDup_nil_2. }
  assert (Hsome : forall l, l ∈ BigHex.tripod1 ->
                            is_Some (BigHex.leg_positions self !! l)).
  { intros l Hl. now apply Hready. }
  destruct (move_all_legs_ok
              (entries BigHex.tripod1 (raise_by sh) (BigHex.leg_positions self))
              move_time self Hgeo) as (prepared & Hrun & Hlen & _).
  { apply entries_wired. intros l Hl. now apply Hready. }
  rewrite entries_length in Hlen by exact Hsome.
  eexists _, _. split; [|split; [|split]].
  - destruct steps as [|n]; [lia|].
    cbn [seq]. rewrite for_each_cons.
    unfold BigHex.walk_cycle. unfold mbind at 1.
    unfold BigHex._tripod_step. unfold mbind at 1.
    rewrite fill_ok; [|exact Hnd|set_solver|exact Hsome].
    cbn [app]. unfold mbind at 1. rewrite Hrun.
    unfold mbind at 1. rewrite sleep_ms_negative by exact Htime.
    reflexivity.
  - reflexivity.
  - rewrite length_app, Hlen. reflexivity.
  - intros l. rewrite leg_positions_advanced.
    now apply store_entries_lookup.
Qed.

Lemma serial_walk_negative_cycle_time_witness :
  exists frames s',
    BigHex.walk 80 60 40 (6 / 10) 0 4 None None (Some (- (6 / 10))%R)
                BigHex.default_hexapod
    = Raised ValueError s'
    /\ LX16A.tx (BigHex.bus s')
       = LX16A.tx (BigHex.bus BigHex.default_hexapod) ++ frames
    /\ List.length frames = 10%nat
    /\ forall l,
         BigHex.leg_positions s' !! l
         = if decide (l ∈ BigHex.tripod1)
           then raise_by (falsy_or None 40)
                  <$> BigHex.leg_positions BigHex.default_hexapod !! l
           else BigHex.leg_positions BigHex.default_hexapod !! l.
Proof.
  apply serial_walk_negative_cycle_time.
  - unfold falsy_or. destruct (Req_dec_T (- (6 / 10)) 0); lra.
  - exact default_geometry_ok.
  - intros l Hl. apply default_serial_ready.
    unfold BigHex.tripod1, BigHex.legs in *. set_solver.
  - lia.
Defined.

(** *** The PWM robot: the stored positions come back *)

Lemma pwm_cycle_lookup (h dx dy lift : R) (lp : ODict.t position)
    (l : string) :
  (forall k, k ∈ Hex.legs -> is_Some (lp !! k)) ->
  l ∈ Hex.legs ->
  pwm_tripod_positions h Hex.tripod2 Hex.tripod1 dx dy lift
    (pwm_tripod_positions h Hex.tripod1 Hex.tripod2 dx dy lift lp) !! l
  = lower_to h <$> lp !! l.
Proof.
  intros Hsome Hl.
  destruct tripods_partition as (_ & _ & Hnd12 & Hnd21 & _ & _ & Hsame).
  rewrite pwm_tripod_positions_lookup; [|exact Hnd21|].
  2:{ intros k Hk. unfold pwm_tripod_positions. do 4 apply moved_is_Some.
      apply Hsome. apply tripods_in_legs. now right. }
  rewrite pwm_tripod_positions_lookup; [|exact Hnd12|].
  2:{ intros k Hk. apply Hsome. apply tripods_in_legs. now left. }
  destruct (Hsome l Hl) as [[[x y] z] Hp]. unfold position in *. rewrite Hp.
  destruct (legs_in_tripods l (proj1 (Hsame l) Hl)) as [[H1 H2]|[H2 H1]].
  - rewrite (decide_False (P := l ∈ Hex.tripod2)) by exact H2.
    rewrite !(decide_True (P := l ∈ Hex.tripod1)) by exact H1.
    apply position_eq; [lra|lra|reflexivity].
  - rewrite !(decide_True (P := l ∈ Hex.tripod2)) by exact H2.
    rewrite (decide_False (P := l ∈ Hex.tripod1)) by exact H1.
    apply position_eq; [lra|lra|reflexivity].
Qed.

Lemma pwm_cycle_is_Some (h dx dy lift : R) (lp : ODict.t position)
    (l : string) :
  is_Some (lp !! l) ->
  is_Some (pwm_tripod_positions h Hex.tripod2 Hex.tripod1 dx dy lift
             (pwm_tripod_positions h Hex.tripod1 Hex.tripod2 dx dy lift lp)
           !! l).
Proof.
  intros H. unfold pwm_tripod_positions. now do 8 apply moved_is_Some.
Qed.

Lemma pwm_walk_cycle_ok (h dx dy lift t : R) (self : Hex.hexapod) :
  (0 <= t)%R ->
  (forall l, l ∈ Hex.legs ->
     pwm_wired self l /\ is_Some (Hex.leg_positions self !! l)) ->
  exists events,
    Hex.walk_cycle h dx dy lift t self
    = Done tt (pwm_advanced self events
                 (pwm_tripod_positions h Hex.tripod2 Hex.tripod1 dx dy lift
                    (pwm_tripod_positions h Hex.tripod1 Hex.tripod2 dx dy lift
                       (Hex.leg_positions self)))).
Proof.
  intros Htime Hready.
  destruct (pwm_tripod_step_ok h Hex.tripod1 Hex.tripod2 dx dy lift t self
              Htime) as (e1 & Hstep1).
  { intros l Hl. apply Hready. apply tripods_in_legs. now left. }
  set (lp := Hex.leg_positions self) in *.
  set (lp1 := pwm_tripod_positions h Hex.tripod1 Hex.tripod2 dx dy lift lp)
    in *.
  set (s1 := pwm_advanced self e1 lp1) in *.
  destruct (pwm_tripod_step_ok h Hex.tripod2 Hex.tripod1 dx dy lift t s1
              Htime) as (e2 & Hstep2).
  { intros l Hl.
    assert (Hin : l ∈ Hex.legs) by (apply tripods_in_legs; now right).
    split.
    - exact (proj1 (Hready l Hin)).
    - unfold lp1, pwm_tripod_positions. do 4 apply moved_is_Some.
      exact (proj2 (Hready l Hin)). }
  change (Hex.leg_positions s1) with lp1 in Hstep2.
  exists (e1 ++ e2).
  unfold Hex.walk_cycle, mbind. rewrite Hstep1. fold s1. rewrite Hstep2.
  subst s1. now rewrite pwm_advanced_advanced.
Qed.

Lemma pwm_cycles_ok (h dx dy lift t : R) (n : nat) :
  (0 <= t)%R ->
  forall (a : nat) (self : Hex.hexapod),
    (forall l, l ∈ Hex.legs ->
       pwm_wired self l /\ is_Some (Hex.leg_positions self !! l)) ->
    exists events,
      for_each (seq a n) (fun _ => Hex.walk_cycle h dx dy lift t) self
      = Done tt
          (pwm_advanced self events
             (Nat.iter n
                (fun lp =>
                   pwm_tripod_positions h Hex.tripod2 Hex.tripod1 dx dy lift
                     (pwm_tripod_positions h Hex.tripod1 Hex.tripod2 dx dy
                        lift lp))
                (Hex.leg_positions self))).
Proof.
  intros Htime.
  induction n as [|n IH]; intros a self Hready.
  - exists []. cbn. unfold ret. now rewrite pwm_advanced_nil.
  - destruct (pwm_walk_cycle_ok h dx dy lift t self Htime Hready)
      as (e1 & Hcycle).
    destruct (IH (S a) (pwm_advanced self e1
                          (pwm_tripod_positions h Hex.tripod2 Hex.tripod1
                             dx dy lift
                             (pwm_tripod_positions h Hex.tripod1 Hex.tripod2
                                dx dy lift (Hex.leg_positions self)))))
      as (e2 & Hrest).
    { intros l Hl. split.
      - apply pwm_wired_advanced. exact (proj1 (Hready l Hl)).
      - rewrite leg_positions_pwm_advanced.
        apply pwm_cycle_is_Some. exact (proj2 (Hready l Hl)). }
    rewrite leg_positions_pwm_advanced in Hrest.
    exists (e1 ++ e2).
    cbn [seq]. rewrite for_each_cons, Hcycle, Hrest.
    rewrite pwm_advanced_advanced. now rewrite Nat.iter_succ_r.
Qed.

Lemma pwm_cycles_lookup (h dx dy lift : R) (n : nat) :
  forall (lp : ODict.t position) (l : string),
    (forall k, k ∈ Hex.legs -> is_Some (lp !! k)) ->
    l ∈ Hex.legs ->
    Nat.iter (S n)
      (fun lp =>
         pwm_tripod_positions h Hex.tripod2 Hex.tripod1 dx dy lift
           (pwm_tripod_positions h Hex.tripod1 Hex.tripod2 dx dy lift lp))
      lp !! l
    = lower_to h <$> lp !! l.
Proof.
  induction n as [|n IH]; intros lp l Hsome Hl.
  - exact (pwm_cycle_lookup h dx dy lift lp l Hsome Hl).
  - rewrite Nat.iter_succ_r. rewrite IH; [|intros k Hk|exact Hl].
    2:{ apply pwm_cycle_is_Some. now apply Hsome. }
    rewrite pwm_cycle_lookup by assumption.
    now destruct (lp !! l) as [[[x y] z]|].
Qed.

(** X18.  [walk] of the PWM robot runs its cycles to completion and,
    whatever the direction, the step length and the number of cycles,
    brings the stored position of every foot back to where it was in the
    plane, at the stand height: here the swing adds half a step vector
    and the stance takes the same half back.  The cycle time is not
    negative, as the pauses between the moves require. *)
Theorem pwm_walk_returns
    (stand_height direction : R) (steps : nat)
    (step_length step_height cycle_time : R)
    (self : Hex.hexapod) :
  (0 <= cycle_time)%R ->
  (forall l, l ∈ Hex.legs ->
     pwm_wired self l /\ is_Some (Hex.leg_positions self !! l)) ->
  (0 < steps)%nat ->
  exists s',
    Hex.walk stand_height direction steps step_length step_height
             cycle_time self
    = Done tt s'
    /\ forall l, l ∈ Hex.legs ->
         Hex.leg_positions s' !! l
         = lower_to stand_height <$> Hex.leg_positions self !! l.
Proof.
  intros Hct Hready Hsteps. unfold Hex.walk.
  set (dx := (step_length * cos (IK.radians direction))%R).
  set (dy := (step_length * sin (IK.radians direction))%R).
  destruct (pwm_cycles_ok stand_height dx dy step_height (cycle_time / 2)
              steps ltac:(lra) 0%nat self Hready) as (events & Hrun).
  eexists. split; [exact Hrun|].
  intros l Hl. destruct steps as [|n]; [lia|].
  apply pwm_cycles_lookup; [|exact Hl].
  intros k Hk. now apply Hready.
Qed.

Lemma pwm_walk_returns_witness :
  exists s',
    Hex.walk 50 0 4 40 30 (4 / 10) Hex.default_hexapod = Done tt s'
    /\ forall l, l ∈ Hex.legs ->
         Hex.leg_positions s' !! l
         = lower_to 50 <$> Hex.leg_positions Hex.default_hexapod !! l.
Proof.
  apply pwm_walk_returns.
  - lra.
  - exact default_pwm_ready.
  - lia.
Defined.

(** *** Turning on the spot *)

Lemma turn_back_turn_to_x (x y rad : R) :
  ((x * cos rad - y * sin rad) * cos rad
   + (x * sin rad + y * cos rad) * sin rad = x)%R.
Proof.
  pose proof (sin2_cos2 rad) as H. unfold Rsqr in H.
  replace ((x * cos rad - y * sin rad) * cos rad
           + (x * sin rad + y * cos rad) * sin rad)%R
    with (x * (sin rad * sin rad + cos rad * cos rad))%R by ring.
  rewrite H. ring.
Qed.

Lemma turn_back_turn_to_y (x y rad : R) :
  (- (x * cos rad - y * sin rad) * sin rad
   + (x * sin rad + y * cos rad) * cos rad = y)%R.
Proof.
  pose proof (sin2_cos2 rad) as H. unfold Rsqr in H.
  replace (- (x * cos rad - y * sin rad) * sin rad
           + (x * sin rad + y * cos rad) * cos rad)%R
    with (y * (sin rad * sin rad + cos rad * cos rad))%R by ring.
  rewrite H. ring.
Qed.

Lemma turn_to_turn_back_x (x y rad : R) :
  ((x * cos rad + y * sin rad) * cos rad
   - (- x * sin rad + y * cos rad) * sin rad = x)%R.
Proof.
  pose proof (sin2_cos2 rad) as H. unfold Rsqr in H.
  replace ((x * cos rad + y * sin rad) * cos rad
           - (- x * sin rad + y * cos rad) * sin rad)%R
    with (x * (sin rad * sin rad + cos rad * cos rad))%R by ring.
  rewrite H. ring.
Qed.

Lemma turn_to_turn_back_y (x y rad : R) :
  ((x * cos rad + y * sin rad) * sin rad
   + (- x * sin rad + y * cos rad) * cos rad = y)%R.
Proof.
  pose proof (sin2_cos2 rad) as H. unfold Rsqr in H.
  replace ((x * cos rad + y * sin rad) * sin rad
           + (- x * sin rad + y * cos rad) * cos rad)%R
    with (y * (sin rad * sin rad + cos rad * cos rad))%R by ring.
  rewrite H. ring.
Qed.

(** The two moves of a turning step undo each other in the plane. *)
Lemma turn_back_after_turn_to (h lift rad : R) (p : position) :
  turn_back (cos rad) (sin rad)
    (turn_to (cos rad) (sin rad) h (raise_by lift p))
  = lower_to h p.
Proof.
  destruct p as [[x y] z]. cbn [turn_back turn_to raise_by lower_to].
  f_equal. f_equal.
  - apply turn_back_turn_to_x.
  - apply turn_back_turn_to_y.
Qed.

Lemma turn_to_after_turn_back (h lift rad : R) (p : position) :
  turn_to (cos rad) (sin rad) h
    (raise_by lift (turn_back (cos rad) (sin rad) p))
  = lower_to h p.
Proof.
  destruct p as [[x y] z]. cbn [turn_back turn_to raise_by lower_to].
  f_equal. f_equal.
  - apply turn_to_turn_back_x.
  - apply turn_to_turn_back_y.
Qed.

Lemma rotated_positions_lookup (h : R) (swing stance : list string)
    (rad lift : R) (lp : gmap string position) (k : string) :
  NoDup (swing ++ stance) ->
  (forall l, l ∈ swing ++ stance -> is_Some (lp !! l)) ->
  rotated_positions h swing stance rad lift lp !! k
  = if decide (k ∈ swing)
    then (fun p => turn_to (cos rad) (sin rad) h (raise_by lift p))
           <$> lp !! k
    else if decide (k ∈ stance)
         then turn_back (cos rad) (sin rad) <$> lp !! k
         else lp !! k.
Proof.
  intros Hnd Hsome.
  destruct (NoDup_app_parts _ _ Hnd) as (Hsw & Hst & Hdisj).
  unfold rotated_positions.
  set (lp1 := store_all (entries swing (raise_by lift) lp) lp).
  assert (Hsome1 : forall l, l ∈ swing ++ stance -> is_Some (lp1 !! l)).
  { intros l' Hl. apply store_all_is_Some. now apply Hsome. }
  assert (H1 : lp1 !! k
               = if decide (k ∈ swing) then raise_by lift <$> lp !! k
                 else lp !! k).
  { apply store_entries_lookup; [assumption|].
    intros; apply Hsome; set_solver. }
  rewrite store_all_app.
  rewrite store_entries_lookup;
    [|assumption|intros; apply Hsome1; set_solver].
  rewrite store_entries_lookup;
    [|assumption|intros; apply Hsome1; set_solver].
  rewrite H1.
  destruct (decide (k ∈ swing)) as [Hin|Hout].
  - rewrite decide_False by now apply Hdisj.
    now destruct (lp !! k).
  - reflexivity.
Qed.

Lemma rotated_positions_is_Some (h : R) (swing stance : list string)
    (rad lift : R) (lp : gmap string position) (l : string) :
  is_Some (lp !! l) ->
  is_Some (rotated_positions h swing stance rad lift lp !! l).
Proof.
  intros H. unfold rotated_positions. now do 2 apply store_all_is_Some.
Qed.

(** One [_rotate_tripod] of the serial-bus robot runs to completion and
    leaves the stored positions [rotated_positions]. *)
Lemma serial_rotate_step_ok (h : R) (swing stance : list string)
    (rad lift : R) (move_time : Z) (self : BigHex.hexapod) :
  (0 <= move_time)%Z ->
  geometry_ok self ->
  NoDup (swing ++ stance) ->
  (forall l, l ∈ swing ++ stance ->
     leg_wired self l /\ is_Some (BigHex.leg_positions self !! l)) ->
  exists frames,
    BigHex._rotate_tripod h swing stance rad lift move_time self
    = Done tt (advanced self frames
                 (rotated_positions h swing stance rad lift
                                    (BigHex.leg_positions self))).
Proof.
  intros Htime Hgeo Hnd Hlegs.
  destruct (NoDup_app_parts _ _ Hnd) as (Hsw & Hst & Hdisj).
  assert (Hwsw : forall l, l ∈ swing -> leg_wired self l).
  { intros l Hl. apply Hlegs. set_solver. }
  assert (Hwst : forall l, l ∈ stance -> leg_wired self l).
  { intros l Hl. apply Hlegs. set_solver. }
  set (lp := BigHex.leg_positions self).
  assert (Hsome : forall l, l ∈ swing ++ stance -> is_Some (lp !! l)).
  { intros l Hl. now apply Hlegs. }
  unfold rotated_positions. fold lp.
  set (f1 := raise_by lift).
  set (f2 := turn_to (cos rad) (sin rad) h).
  set (f3 := turn_back (cos rad) (sin rad)).
  set (lp1 := store_all (entries swing f1 lp) lp).
  assert (Hsome1 : forall l, l ∈ swing ++ stance -> is_Some (lp1 !! l)).
  { intros l Hl. apply store_all_is_Some. now apply Hsome. }
  unfold BigHex._rotate_tripod. cbv zeta. fold f1 f2 f3.
  unfold mbind at 1.
  rewrite fill_ok; [|assumption|set_solver|intros; apply Hsome; set_solver].
  cbn [app]. fold lp. unfold mbind at 1.
  destruct (move_all_legs_ok (entries swing f1 lp) move_time self Hgeo)
    as (fr1 & Hrun1 & _).
  { now apply entries_wired. }
  rewrite Hrun1. fold lp lp1.
  set (s1 := advanced self _ lp1).
  unfold mbind at 1. rewrite sleep_ms_ok by exact Htime.
  unfold mbind at 1.
  rewrite fill_ok; [|assumption|set_solver|intros; apply Hsome1; set_solver].
  cbn [app]. change (BigHex.leg_positions s1) with lp1. unfold mbind at 1.
  rewrite fill_ok; [|assumption| |intros; apply Hsome1; set_solver].
  2:{ intros l Hl Hin. apply (entries_keys swing f2 lp1) in Hin.
      now apply (Hdisj l). }
  change (BigHex.leg_positions s1) with lp1. unfold mbind at 1.
  destruct (move_all_legs_ok
              (entries swing f2 lp1 ++ entries stance f3 lp1) move_time s1 Hgeo)
    as (fr2 & Hrun2 & _).
  { intros item Hitem. apply elem_of_app in Hitem as [Hitem|Hitem].
    - now apply (entries_wired self swing f2 lp1).
    - now apply (entries_wired self stance f3 lp1). }
  rewrite Hrun2. change (BigHex.leg_positions s1) with lp1.
  rewrite sleep_ms_ok by exact Htime.
  subst s1. rewrite !advanced_advanced. eauto.
Qed.

Lemma serial_rotate_cycle_lookup (h rad lift : R)
    (lp : gmap string position) (l : string) :
  (forall k, k ∈ BigHex.legs -> is_Some (lp !! k)) ->
  l ∈ BigHex.legs ->
  rotated_positions h Hex.tripod2 Hex.tripod1 rad lift
    (rotated_positions h Hex.tripod1 Hex.tripod2 rad lift lp) !! l
  = lower_to h <$> lp !! l.
Proof.
  intros Hsome Hl.
  destruct tripods_partition as (_ & _ & Hnd12 & Hnd21 & _).
  rewrite rotated_positions_lookup; [|exact Hnd21|].
  2:{ intros k Hk. apply rotated_positions_is_Some, Hsome.
      apply tripods_in_legs. now right. }
  rewrite rotated_positions_lookup; [|exact Hnd12|].
  2:{ intros k Hk. apply Hsome. apply tripods_in_legs. now left. }
  destruct (Hsome l Hl) as [p Hp]. rewrite Hp.
  destruct (legs_in_tripods l Hl) as [[H1 H2]|[H2 H1]].
  - rewrite (decide_False (P := l ∈ Hex.tripod2)) by exact H2.
    rewrite !(decide_True (P := l ∈ Hex.tripod1)) by exact H1.
    cbn [fmap option_fmap option_map]. f_equal.
    apply turn_back_after_turn_to.
  - rewrite !(decide_True (P := l ∈ Hex.tripod2)) by exact H2.
    rewrite (decide_False (P := l ∈ Hex.tripod1)) by exact H1.
    cbn [fmap option_fmap option_map]. f_equal.
    apply turn_to_after_turn_back.
Qed.

(** X19.  One cycle of [rotate] of the serial-bus robot runs to
    completion and is closed in the plane: each tripod is turned by [rad]
    while it swings and turned back by [rad] while it is in stance, so
    every stored foot position ends where it started, at the stand
    height.  The time of a move is not negative, as the pauses between
    the moves require. *)
Theorem serial_rotate_cycle_returns
    (stand_height rad step_height : R) (move_time : Z)
    (self : BigHex.hexapod) :
  (0 <= move_time)%Z ->
  geometry_ok self ->
  (forall l, l ∈ BigHex.legs ->
     leg_wired self l /\ is_Some (BigHex.leg_positions self !! l)) ->
  exists s',
    BigHex.rotate_cycle stand_height rad step_height move_time self
    = Done tt s'
    /\ forall l, l ∈ BigHex.legs ->
         BigHex.leg_positions s' !! l
         = lower_to stand_height <$> BigHex.leg_positions self !! l.
Proof.
  intros Htime Hgeo Hready.
  destruct tripods_partition as (_ & _ & Hnd12 & Hnd21 & _).
  destruct (serial_rotate_step_ok stand_height Hex.tripod1 Hex.tripod2 rad
              step_height move_time self Htime Hgeo Hnd12) as (fr1 & Hstep1).
  { intros l Hl. apply Hready. apply tripods_in_legs. now left. }
  destruct (serial_rotate_step_ok stand_height Hex.tripod2 Hex.tripod1 rad
              step_height move_time
              (advanced self fr1
                 (rotated_positions stand_height Hex.tripod1 Hex.tripod2 rad
                    step_height (BigHex.leg_positions self))))
    as (fr2 & Hstep2);
    [exact Htime|now apply geometry_ok_advanced|exact Hnd21| |].
  { intros l Hl.
    assert (Hin : l ∈ BigHex.legs) by (apply tripods_in_legs; now right).
    split.
    - apply leg_wired_advanced. exact (proj1 (Hready l Hin)).
    - rewrite leg_positions_advanced. apply rotated_positions_is_Some.
      exact (proj2 (Hready l Hin)). }
  rewrite leg_positions_advanced in Hstep2.
  eexists. split.
  - unfold BigHex.rotate_cycle, mbind.
    change BigHex.tripod1 with Hex.tripod1.
    change BigHex.tripod2 with Hex.tripod2.
    rewrite Hstep1. exact Hstep2.
  - intros l Hl. rewrite leg_positions_advanced.
    apply serial_rotate_cycle_lookup; [|exact Hl].
    intros k Hk. now apply Hready.
Qed.

Lemma serial_rotate_cycle_returns_witness :
  exists s',
    BigHex.rotate_cycle 80 (PI / 12) 40 150 BigHex.default_hexapod
    = Done tt s'
    /\ forall l, l ∈ BigHex.legs ->
         BigHex.leg_positions s' !! l
         = lower_to 80
             <$> BigHex.leg_positions BigHex.default_hexapod !! l.
Proof.
  apply serial_rotate_cycle_returns.
  - lia.
  - exact default_geometry_ok.
  - exact default_serial_ready.
Defined.

Lemma pwm_rotated_positions_lookup (h : R) (swing stance : list string)
    (rad lift : R) (lp : ODict.t position) (k : string) :
  NoDup (swing ++ stance) ->
  (forall l, l ∈ swing ++ stance -> is_Some (lp !! l)) ->
  pwm_rotated_positions h swing stance rad lift lp !! k
  = if decide (k ∈ swing)
    then (fun p => turn_to (cos rad) (sin rad) h (raise_by lift p))
           <$> lp !! k
    else if decide (k ∈ stance)
         then turn_back (cos rad) (sin rad) <$> lp !! k
         else lp !! k.
Proof.
  intros Hnd Hsome.
  destruct (NoDup_app_parts _ _ Hnd) as (Hsw & Hst & Hdisj).
  unfold pwm_rotated_positions.
  set (lp1 := moved swing (raise_by lift) lp).
  set (lp2 := moved swing (turn_to (cos rad) (sin rad) h) lp1).
  assert (H1 : lp1 !! k
               = if decide (k ∈ swing) then raise_by lift <$> lp !! k
                 else lp !! k).
  { apply moved_lookup; [assumption|].
    intros; apply Hsome; set_solver. }
  assert (H2 : lp2 !! k
               = if decide (k ∈ swing)
                 then turn_to (cos rad) (sin rad) h <$> lp1 !! k
                 else lp1 !! k).
  { apply moved_lookup; [assumption|].
    intros; apply moved_is_Some; apply Hsome; set_solver. }
  rewrite moved_lookup;
    [|assumption|intros; do 2 apply moved_is_Some; apply Hsome; set_solver].
  rewrite H2, H1.
  destruct (decide (k ∈ swing)) as [Hin|Hout].
  - rewrite decide_False by now apply Hdisj.
    now destruct (lp !! k).
  - reflexivity.
Qed.

Lemma pwm_rotated_positions_is_Some (h : R) (swing stance : list string)
    (rad lift : R) (lp : ODict.t position) (l : string) :
  is_Some (lp !! l) ->
  is_Some (pwm_rotated_positions h swing stance rad lift lp !! l).
Proof.
  intros H. unfold pwm_rotated_positions. now do 3 apply moved_is_Some.
Qed.

(** One [_rotate_tripod] of the PWM robot runs to completion and leaves
    the stored positions [pwm_rotated_positions]. *)
Lemma pwm_rotate_step_ok (h : R) (swing stance : list string)
    (rad lift t : R) (self : Hex.hexapod) :
  (0 <= t)%R ->
  (forall l, l ∈ swing ++ stance ->
     pwm_wired self l /\ is_Some (Hex.leg_positions self !! l)) ->
  exists events,
    Hex._rotate_tripod h swing stance rad lift t self
    = Done tt (pwm_advanced self events
                 (pwm_rotated_positions h swing stance rad lift
                                        (Hex.leg_positions self))).
Proof.
  intros Htime Hlegs.
  assert (Hpause : (0 <= t / 2)%R) by lra.
  assert (Hwsw : forall l, l ∈ swing -> pwm_wired self l).
  { intros l Hl. apply Hlegs. set_solver. }
  assert (Hwst : forall l, l ∈ stance -> pwm_wired self l).
  { intros l Hl. apply Hlegs. set_solver. }
  assert (Hsome : forall l, l ∈ swing ++ stance ->
                            is_Some (Hex.leg_positions self !! l)).
  { intros l Hl. now apply Hlegs. }
  unfold pwm_rotated_positions, Hex._rotate_tripod. cbv zeta.
  unfold mbind at 1.
  destruct (pwm_move_each_ok (raise_by lift) swing self Hwsw) as (e1 & ->).
  { intros; apply Hsome; set_solver. }
  unfold mbind at 1. rewrite sleep_ok by exact Hpause.
  unfold mbind at 1.
  destruct (pwm_move_each_ok (turn_to (cos rad) (sin rad) h) swing
              (pwm_advanced self e1
                 (moved swing (raise_by lift) (Hex.leg_positions self))))
    as (e2 & ->).
  { intros l Hl. apply pwm_wired_advanced. now apply Hwsw. }
  { intros l Hl. rewrite leg_positions_pwm_advanced.
    apply moved_is_Some. apply Hsome. set_solver. }
  rewrite leg_positions_pwm_advanced. unfold mbind at 1.
  destruct (pwm_move_each_ok (turn_back (cos rad) (sin rad)) stance
              (pwm_advanced
                 (pwm_advanced self e1
                    (moved swing (raise_by lift) (Hex.leg_positions self)))
                 e2
                 (moved swing (turn_to (cos rad) (sin rad) h)
                    (moved swing (raise_by lift) (Hex.leg_positions self)))))
    as (e3 & ->).
  { intros l Hl. do 2 apply pwm_wired_advanced. now apply Hwst. }
  { intros l Hl. rewrite leg_positions_pwm_advanced.
    do 2 apply moved_is_Some. apply Hsome. set_solver. }
  rewrite leg_positions_pwm_advanced.
  rewrite sleep_ok by exact Hpause.
  rewrite !pwm_advanced_advanced. eauto.
Qed.

(** X20.  One cycle of [rotate] of the PWM robot runs to completion and
    is closed in the plane: every stored foot position ends where it
    started, at the stand height.  The time of a half cycle is not
    negative, as the pauses between the moves require. *)
Theorem pwm_rotate_cycle_returns
    (stand_height rad step_height half_cycle : R) (self : Hex.hexapod) :
  (0 <= half_cycle)%R ->
  (forall l, l ∈ Hex.legs ->
     pwm_wired self l /\ is_Some (Hex.leg_positions self !! l)) ->
  exists s',
    Hex.rotate_cycle stand_height rad step_height half_cycle self
    = Done tt s'
    /\ forall l, l ∈ Hex.legs ->
         Hex.leg_positions s' !! l
         = lower_to stand_height <$> Hex.leg_positions self !! l.
Proof.
  intros Htime Hready.
  destruct tripods_partition as (_ & _ & Hnd12 & Hnd21 & _ & _ & Hsame).
  destruct (pwm_rotate_step_ok stand_height Hex.tripod1 Hex.tripod2 rad
              step_height half_cycle self Htime) as (e1 & Hstep1).
  { intros l Hl. apply Hready. apply tripods_in_legs. now left. }
  destruct (pwm_rotate_step_ok stand_height Hex.tripod2 Hex.tripod1 rad
              step_height half_cycle
              (pwm_advanced self e1
                 (pwm_rotated_positions stand_height Hex.tripod1 Hex.tripod2
                    rad step_height (Hex.leg_positions self))) Htime)
    as (e2 & Hstep2).
  { intros l Hl.
    assert (Hin : l ∈ Hex.legs) by (apply tripods_in_legs; now right).
    split.
    - apply pwm_wired_advanced. exact (proj1 (Hready l Hin)).
    - rewrite leg_positions_pwm_advanced.
      apply pwm_rotated_positions_is_Some. exact (proj2 (Hready l Hin)). }
  rewrite leg_positions_pwm_advanced in Hstep2.
  eexists. split.
  - unfold Hex.rotate_cycle, mbind. rewrite Hstep1. exact Hstep2.
  - intros l Hl. rewrite leg_positions_pwm_advanced.
    rewrite pwm_rotated_positions_lookup; [|exact Hnd21|].
    2:{ intros k Hk. apply pwm_rotated_positions_is_Some.
        apply Hready. apply tripods_in_legs. now right. }
    rewrite pwm_rotated_positions_lookup; [|exact Hnd12|].
    2:{ intros k Hk. apply Hready. apply tripods_in_legs. now left. }
    destruct (proj2 (Hready l Hl)) as [p Hp]. rewrite Hp.
    destruct (legs_in_tripods l (proj1 (Hsame l) Hl)) as [[H1 H2]|[H2 H1]].
    + rewrite (decide_False (P := l ∈ Hex.tripod2)) by exact H2.
      rewrite !(decide_True (P := l ∈ Hex.tripod1)) by exact H1.
      cbn [fmap option_fmap option_map]. f_equal.
      apply turn_back_after_turn_to.
    + rewrite !(decide_True (P := l ∈ Hex.tripod2)) by exact H2.
      rewrite (decide_False (P := l ∈ Hex.tripod1)) by exact H1.
      cbn [fmap option_fmap option_map]. f_equal.
      apply turn_to_after_turn_back.
Qed.

Lemma pwm_rotate_cycle_returns_witness :
  exists s',
    Hex.rotate_cycle 50 (PI / 12) 25 (2 / 10) Hex.default_hexapod
    = Done tt s'
    /\ forall l, l ∈ Hex.legs ->
         Hex.leg_positions s' !! l
         = lower_to 50 <$> Hex.leg_positions Hex.default_hexapod !! l.
Proof.
  exact (pwm_rotate_cycle_returns 50 (PI / 12) 25 (2 / 10) _ ltac:(lra)
           default_pwm_ready).
Defined.

(** *** The wave gait of the PWM robot *)

Lemma pwm_load_position (self : Hex.hexapod) (leg : string) (p : position) :
  Hex.leg_positions self !! leg = Some p ->
  Hex.load_position leg self = Done p self.
Proof. unfold Hex.load_position, lift, getitem. now intros ->. Qed.

(** [_single_leg_step] on a configured leg: of its three moves only the
    last one shows in the stored position. *)
Lemma pwm_single_leg_step_ok (h : R) (leg : string) (dx dy lift t : R)
    (self : Hex.hexapod) (p : position) :
  (0 <= t)%R ->
  pwm_wired self leg ->
  Hex.leg_positions self !! leg = Some p ->
  exists events,
    Hex._single_leg_step h leg dx dy lift t self
    = Done tt (pwm_advanced self events
                 (<[leg := lower_to h (swing_by dx dy p)]>
                    (Hex.leg_positions self))).
Proof.
  intros Htime Hwired Hp.
  assert (Hpause : (0 <= t / 3)%R) by lra.
  destruct p as [[x y] z].
  unfold Hex._single_leg_step. unfold mbind at 1.
  rewrite (pwm_load_position self leg (x, y, z)) by exact Hp.
  cbv iota beta. unfold mbind at 1.
  destruct (pwm_move_leg_ok leg x y (z + lift) self Hwired) as (e1 & ->).
  unfold mbind at 1. rewrite sleep_ok by exact Hpause.
  unfold mbind at 1.
  destruct (pwm_move_leg_ok leg (x + dx) (y + dy) (z + lift)
              (pwm_advanced self e1
                 (<[leg := (x, y, z + lift)%R]> (Hex.leg_positions self))))
    as (e2 & ->).
  { now apply pwm_wired_advanced. }
  rewrite leg_positions_pwm_advanced.
  unfold mbind at 1. rewrite sleep_ok by exact Hpause.
  unfold mbind at 1.
  destruct (pwm_move_leg_ok leg (x + dx) (y + dy) (- h)
              (pwm_advanced
                 (pwm_advanced self e1
                    (<[leg := (x, y, z + lift)%R]> (Hex.leg_positions self)))
                 e2
                 (<[leg := (x + dx, y + dy, z + lift)%R]>
                    (<[leg := (x, y, z + lift)%R]>
                       (Hex.leg_positions self)))))
    as (e3 & ->).
  { now do 2 apply pwm_wired_advanced. }
  rewrite leg_positions_pwm_advanced.
  rewrite sleep_ok by exact Hpause.
  rewrite !pwm_advanced_advanced, !stored_twice.
  eexists. reflexivity.
Qed.

(** The legs of a wave, one after the other. *)
Lemma pwm_wave_ok (h dx dy lift t : R) (sequence : list string) :
  (0 <= t)%R ->
  forall self : Hex.hexapod,
    (forall l, l ∈ sequence -> pwm_wired self l) ->
    (forall l, l ∈ sequence -> is_Some (Hex.leg_positions self !! l)) ->
    exists events,
      for_each sequence (fun leg => Hex._single_leg_step h leg dx dy lift t)
               self
      = Done tt (pwm_advanced self events
                   (moved sequence (fun p => lower_to h (swing_by dx dy p))
                          (Hex.leg_positions self))).
Proof.
  intros Htime.
  induction sequence as [|l rest IH]; intros self Hwired Hsome.
  - exists []. cbn. unfold ret. now rewrite pwm_advanced_nil.
  - destruct (Hsome l ltac:(set_solver)) as [p Hp].
    destruct (pwm_single_leg_step_ok h l dx dy lift t self p Htime)
      as (e1 & Hstep); [apply Hwired; set_solver|exact Hp|].
    destruct (IH (pwm_advanced self e1
                    (<[l := lower_to h (swing_by dx dy p)]>
                       (Hex.leg_positions self))))
      as (e2 & Hrest).
    { intros l' Hl'. apply pwm_wired_advanced. apply Hwired. set_solver. }
    { intros l' Hl'. rewrite leg_positions_pwm_advanced.
      destruct (decide (l = l')) as [->|Hne].
      - rewrite lookup_stored_eq. eauto.
      - rewrite lookup_stored_ne by assumption. apply Hsome. set_solver. }
    rewrite leg_positions_pwm_advanced in Hrest.
    exists (e1 ++ e2).
    rewrite for_each_cons, Hstep, Hrest, pwm_advanced_advanced.
    cbn [moved]. now rewrite Hp.
Qed.

(** The loop over all stored legs. *)
Lemma pwm_move_every_ok (target : position -> position)
    (self : Hex.hexapod) :
  (forall l, l ∈ ODict.keys (Hex.leg_positions self) -> pwm_wired self l) ->
  exists events,
    Hex.move_every target self
    = Done tt (pwm_advanced self events
                 (moved (ODict.keys (Hex.leg_positions self)) target
                        (Hex.leg_positions self))).
Proof.
  intros Hwired. unfold Hex.move_every.
  apply pwm_move_each_ok; [exact Hwired|].
  intros l Hl. now apply odict_lookup_keys.
Qed.

(** X21.  One cycle of [wave_walk] of the PWM robot runs to completion
    and is closed in the plane for the six legs: each of them steps
    forward by the step vector once, then every stored leg is shifted back
    by it, so the stored positions of the six legs end where they started,
    at the stand height; any other entry of [leg_positions] ends one step
    vector back.  Every stored leg has its servos configured, and the leg
    time is not negative, as the pauses between the moves require. *)
Theorem pwm_wave_cycle_returns
    (stand_height dx dy step_height leg_time : R) (self : Hex.hexapod) :
  (0 <= leg_time)%R ->
  NoDup (ODict.keys (Hex.leg_positions self)) ->
  (forall l, l ∈ ODict.keys (Hex.leg_positions self) -> pwm_wired self l) ->
  (forall l, l ∈ Hex.legs -> l ∈ ODict.keys (Hex.leg_positions self)) ->
  exists s',
    Hex.wave_cycle stand_height dx dy step_height leg_time self = Done tt s'
    /\ (forall l, l ∈ Hex.legs ->
          Hex.leg_positions s' !! l
          = lower_to stand_height <$> Hex.leg_positions self !! l)
    /\ (forall l, l ∉ Hex.legs ->
          Hex.leg_positions s' !! l
          = swing_by (- dx) (- dy) <$> Hex.leg_positions self !! l).
Proof.
  intros Htime Hnd Hwired Hlegs.
  set (sequence := ["R3"; "R2"; "R1"; "L3"; "L2"; "L1"]%string).
  assert (Hseq : forall l, l ∈ sequence <-> l ∈ Hex.legs).
  { intros l. unfold sequence, Hex.legs. set_solver. }
  assert (Hnds : NoDup sequence).
  { unfold sequence. repeat (apply NoDup_cons; split; [set_solver|]).
    apply NoDup_nil_2. }
  set (lp := Hex.leg_positions self) in *.
  set (step := fun p => lower_to stand_height (swing_by dx dy p)).
  assert (Hsome : forall l, l ∈ sequence -> is_Some (lp !! l)).
  { intros l Hl. now apply odict_lookup_keys, Hlegs, Hseq. }
  destruct (pwm_wave_ok stand_height dx dy step_height leg_time sequence
              Htime self) as (e1 & Hwave).
  { intros l Hl. now apply Hwired, Hlegs, Hseq. }
  { exact Hsome. }
  fold lp step in Hwave.
  destruct (pwm_move_every_ok (swing_by (- dx) (- dy))
              (pwm_advanced self e1 (moved sequence step lp)))
    as (e2 & Hshift).
  { intros l Hl. rewrite leg_positions_pwm_advanced, keys_moved in Hl.
    apply pwm_wired_advanced. now apply Hwired. }
  rewrite leg_positions_pwm_advanced in Hshift.
  assert (Hfinal : forall l,
            moved (ODict.keys (moved sequence step lp))
                  (swing_by (- dx) (- dy)) (moved sequence step lp) !! l
            = swing_by (- dx) (- dy)
                <$> (if decide (l ∈ sequence) then step <$> lp !! l
                     else lp !! l)).
  { intros l. rewrite moved_keys_lookup by (now rewrite keys_moved).
    now rewrite moved_lookup by assumption. }
  eexists. split; [|split].
  - unfold Hex.wave_cycle. unfold mbind at 1. fold sequence. rewrite Hwave.
    unfold Hex._shift_all_legs. unfold mbind at 1. rewrite Hshift.
    apply sleep_ok. exact Htime.
  - intros l Hl. rewrite leg_positions_pwm_advanced, Hfinal.
    rewrite decide_True by now apply Hseq.
    destruct (lp !! l) as [[[x y] z]|]; [|reflexivity].
    apply position_eq; [lra|lra|reflexivity].
  - intros l Hl. rewrite leg_positions_pwm_advanced, Hfinal.
    rewrite decide_False by (intros Hin; now apply Hl, Hseq).
    reflexivity.
Qed.

Lemma pwm_wave_cycle_returns_witness :
  exists s',
    Hex.wave_cycle 50 30 0 30 (15 / 100) Hex.default_hexapod = Done tt s'
    /\ (forall l, l ∈ Hex.legs ->
          Hex.leg_positions s' !! l
          = lower_to 50 <$> Hex.leg_positions Hex.default_hexapod !! l)
    /\ (forall l, l ∉ Hex.legs ->
          Hex.leg_positions s' !! l
          = swing_by (- 30) (- 0)
              <$> Hex.leg_positions Hex.default_hexapod !! l).
Proof.
  destruct default_pwm_dict as (Hnd & Hwired & Hlegs).
  exact (pwm_wave_cycle_returns 50 30 0 30 (15 / 100) _ ltac:(lra)
           Hnd Hwired Hlegs).
Defined.

End Cycles.
(** ** More of the kinematics solver and of the actuators *)

Section Knee.

Local Open Scope R_scope.

Lemma radians_degrees (a : R) : IK.radians (IK.degrees a) = a.
Proof.
  unfold IK.radians, IK.degrees. pose proof PI_neq0. field. assumption.
Qed.

Lemma degrees_acos_bounds (v : R) : 0 <= IK.degrees (acos v) <= 180.
Proof.
  pose proof (acos_bound v) as [Hlo Hhi]. pose proof PI_RGT_0 as Hpi.
  unfold IK.degrees.
  assert (Hk : 0 < 180 / PI) by (apply Rdiv_lt_0_compat; lra).
  split.
  - apply Rmult_le_pos; lra.
  - replace 180 with (PI * (180 / PI)) at 2 by (field; lra).
    apply Rmult_le_compat_r; lra.
Qed.

(** Within reach, the cosine given by the law of cosines is a cosine. *)
Lemma knee_cosine_in_range (f t d : R) :
  0 < f -> 0 < t -> IK.min_reach f t <= d <= IK.max_reach f t ->
  -1 <= (f ^ 2 + t ^ 2 - d ^ 2) / (2 * f * t) <= 1.
Proof.
  intros Hf Ht [Hlo Hhi]. unfold IK.min_reach, IK.max_reach in *.
  assert (Hd : 0 <= d) by (pose proof (Rabs_pos (f - t)); lra).
  assert (Hsq_lo : (f - t) ^ 2 <= d ^ 2).
  { unfold Rabs in Hlo. destruct (Rcase_abs (f - t)); nra. }
  assert (Hsq_hi : d ^ 2 <= (f + t) ^ 2) by nra.
  assert (Hft : 0 < 2 * f * t) by nra.
  assert (Hq : (f ^ 2 + t ^ 2 - d ^ 2) / (2 * f * t) * (2 * f * t)
               = f ^ 2 + t ^ 2 - d ^ 2)
    by (field; first [lra | split; lra]).
  split.
  - apply Rmult_le_reg_r with (2 * f * t); [exact Hft|]. rewrite Hq. nra.
  - apply Rmult_le_reg_r with (2 * f * t); [exact Hft|]. rewrite Hq. nra.
Qed.

Lemma within_reach_not_clamped (f t d : R) :
  IK.min_reach f t <= d <= IK.max_reach f t ->
  IK.clamp_reach d f t = (d, false).
Proof.
  intros H. unfold IK.clamp_reach. now rewrite out_of_reach_false.
Qed.

Lemma within_reach_nonzero (f t d : R) :
  f <> t -> IK.min_reach f t <= d -> d <> 0.
Proof.
  intros Hft Hlo. unfold IK.min_reach in Hlo.
  assert (0 < Rabs (f - t)) by (apply Rabs_pos_lt; lra). lra.
Qed.

(** The knee angle of a solved pose, read as the angle between the femur
    and the tibia. *)
Lemma knee_angle (f t d : R) :
  0 < f -> 0 < t -> IK.min_reach f t <= d <= IK.max_reach f t ->
  let knee :=
    IK.degrees
      (acos (IK.clamp ((f ^ 2 + t ^ 2 - d ^ 2) / (2 * f * t)) (-1) 1)) in
  0 <= knee <= 180
  /\ f ^ 2 + t ^ 2 - 2 * f * t * cos (IK.radians knee) = d ^ 2.
Proof.
  intros Hf Ht Hd knee. subst knee.
  pose proof (knee_cosine_in_range f t d Hf Ht Hd) as Hv.
  rewrite clamp_inside by exact Hv.
  split; [apply degrees_acos_bounds|].
  rewrite radians_degrees, cos_acos by exact Hv.
  field; first [lra | split; lra].
Qed.

(** X22.  For a target within reach of links of different positive
    lengths, [leg_ik] of either robot returns a pose, without clamping the
    reach (the PWM solver prints no warning) and without clamping the
    tibia servo angle, and the knee angle it commands obeys the law of
    cosines: the triangle of femur and tibia closed by that angle has the
    distance from the femur pivot to the foot as its third side. *)
Theorem knee_law_of_cosines (x y z c f t : R) :
  0 < f -> 0 < t -> f <> t ->
  IK.min_reach f t <= IK.foot_dist_of x y z c <= IK.max_reach f t ->
  (exists coxa femur tibia,
     BigHex.leg_ik x y z c f t = Ok (Some (coxa, femur, tibia))
     /\ 60 <= tibia <= 240
     /\ f ^ 2 + t ^ 2 - 2 * f * t * cos (IK.radians (240 - tibia))
        = IK.foot_dist_of x y z c ^ 2)
  /\ (exists coxa femur tibia,
        Hex.leg_ik x y z c f t = Ok (coxa, femur, tibia, false)
        /\ 0 <= tibia <= 180
        /\ f ^ 2 + t ^ 2 - 2 * f * t * cos (IK.radians (180 - tibia))
           = IK.foot_dist_of x y z c ^ 2).
Proof.
  intros Hf Ht Hft Hd.
  set (d := IK.foot_dist_of x y z c) in *.
  pose proof (knee_angle f t d Hf Ht Hd) as [Hknee Hlaw].
  cbv zeta in Hknee, Hlaw.
  set (knee := IK.degrees
                 (acos (IK.clamp ((f ^ 2 + t ^ 2 - d ^ 2) / (2 * f * t))
                                 (-1) 1))) in *.
  assert (Hnz : d <> 0) by (apply (within_reach_nonzero f t); tauto).
  split.
  - rewrite bighex_leg_ik_stages. fold d.
    rewrite (within_reach_not_clamped f t d Hd). cbn [fst snd].
    rewrite joint_angles_ok by lra. cbn [bind fst snd]. fold knee.
    eexists _, _, _. split; [reflexivity|].
    rewrite clamp_inside by lra.
    split; [lra|].
    replace (240 - (240 - knee)) with knee by lra. exact Hlaw.
  - rewrite hex_leg_ik_stages. fold d.
    rewrite (within_reach_not_clamped f t d Hd). cbn [fst snd].
    rewrite joint_angles_ok by lra. cbn [bind fst snd]. fold knee.
    eexists _, _, _. split; [reflexivity|].
    rewrite clamp_inside by lra.
    split; [lra|].
    replace (180 - (180 - knee)) with knee by lra. exact Hlaw.
Qed.

Lemma knee_law_of_cosines_witness :
  (exists coxa femur tibia,
     BigHex.leg_ik 150 0 0 50 80 120 = Ok (Some (coxa, femur, tibia))
     /\ 60 <= tibia <= 240
     /\ 80 ^ 2 + 120 ^ 2 - 2 * 80 * 120 * cos (IK.radians (240 - tibia))
        = IK.foot_dist_of 150 0 0 50 ^ 2)
  /\ (exists coxa femur tibia,
        Hex.leg_ik 150 0 0 50 80 120 = Ok (coxa, femur, tibia, false)
        /\ 0 <= tibia <= 180
        /\ 80 ^ 2 + 120 ^ 2 - 2 * 80 * 120 * cos (IK.radians (180 - tibia))
           = IK.foot_dist_of 150 0 0 50 ^ 2).
Proof.
  apply knee_law_of_cosines; try lra.
  rewrite foot_dist_on_axis by lra.
  unfold IK.min_reach, IK.max_reach, Rabs.
  destruct (Rcase_abs (80 - 120)); lra.
Defined.

(** X23.  With links of different non-zero lengths, [leg_ik] returns for
    every target, reachable or not, and every angle it returns can be
    commanded: each lies in [0, 240] for the serial-bus robot and in
    [0, 180] for the PWM robot. *)
Theorem leg_ik_angles_in_servo_range (x y z c f t : R) :
  f <> 0 -> t <> 0 -> f <> t ->
  (exists coxa femur tibia,
     BigHex.leg_ik x y z c f t = Ok (Some (coxa, femur, tibia))
     /\ 0 <= coxa <= 240 /\ 0 <= femur <= 240 /\ 0 <= tibia <= 240)
  /\ (exists coxa femur tibia warned,
        Hex.leg_ik x y z c f t = Ok (coxa, femur, tibia, warned)
        /\ 0 <= coxa <= 180 /\ 0 <= femur <= 180 /\ 0 <= tibia <= 180).
Proof.
  intros Hf Ht Hft.
  assert (Hnz : fst (IK.clamp_reach (IK.foot_dist_of x y z c) f t) <> 0).
  { apply clamp_reach_nonzero; [apply foot_dist_nonneg|assumption]. }
  split.
  - rewrite bighex_leg_ik_stages, joint_angles_ok by assumption.
    cbn [bind fst snd]. eexists _, _, _. split; [reflexivity|].
    repeat split; apply clamp_bounds; lra.
  - rewrite hex_leg_ik_stages, joint_angles_ok by assumption.
    cbn [bind fst snd]. eexists _, _, _, _. split; [reflexivity|].
    repeat split; apply clamp_bounds; lra.
Qed.

Lemma leg_ik_angles_in_servo_range_witness :
  (exists coxa femur tibia,
     BigHex.leg_ik 1000 0 0 50 80 120 = Ok (Some (coxa, femur, tibia))
     /\ 0 <= coxa <= 240 /\ 0 <= femur <= 240 /\ 0 <= tibia <= 240)
  /\ (exists coxa femur tibia warned,
        Hex.leg_ik 1000 0 0 50 80 120 = Ok (coxa, femur, tibia, warned)
        /\ 0 <= coxa <= 180 /\ 0 <= femur <= 180 /\ 0 <= tibia <= 180).
Proof. apply leg_ik_angles_in_servo_range; lra. Defined.

Lemma py_int_half (n : Z) : IK.py_int (IZR n / 2) = Z.quot n 2.
Proof.
  unfold IK.py_int.
  destruct (Rle_dec 0 (IZR n / 2)) as [Hpos|Hneg].
  - assert (Hn : (0 <= n)%Z) by (apply le_IZR; lra).
    rewrite Z.quot_div_nonneg by lia.
    apply Zfloor_eq.
    pose proof (Z.div_mod n 2 ltac:(lia)) as Hdm.
    pose proof (Z.mod_pos_bound n 2 ltac:(lia)) as Hm.
    assert (Hr : IZR n = 2 * IZR (n / 2) + IZR (n mod 2)).
    { rewrite Hdm at 1. rewrite plus_IZR, mult_IZR. reflexivity. }
    assert (0 <= IZR (n mod 2) <= 1).
    { split; [apply IZR_le; lia|apply IZR_le; lia]. }
    lra.
  - assert (Hn : (n < 0)%Z) by (apply lt_IZR; lra).
    replace n with (- (- n))%Z at 2 by lia.
    rewrite Z.quot_opp_l by lia. rewrite Z.quot_div_nonneg by lia.
    apply Zceil_eq.
    pose proof (Z.div_mod (- n) 2 ltac:(lia)) as Hdm.
    pose proof (Z.mod_pos_bound (- n) 2 ltac:(lia)) as Hm.
    assert (Hr : - IZR n = 2 * IZR (- n / 2) + IZR ((- n) mod 2)).
    { rewrite <- opp_IZR. rewrite Hdm at 1.
      rewrite plus_IZR, mult_IZR. reflexivity. }
    assert (0 <= IZR ((- n) mod 2) <= 1).
    { split; [apply IZR_le; lia|apply IZR_le; lia]. }
    rewrite opp_IZR. lra.
Qed.

(** X24.  Commanding 90 degrees on the PWM robot, as [center_all] does
    for every servo, sends the midpoint of the servo's pulse range
    (truncated towards zero), whichever way the servo is mounted and
    whatever centre the calibration records for it. *)
Theorem centre_pulse_is_midpoint
    (self : Hex.hexapod) (leg joint : string)
    (pc : Z * Z) (direction : Z) (sr : Hex.servo_range_entry) :
  getitem2 (Hex.servo_map self) leg joint = Ok pc ->
  getitem2 (Hex.servo_dir self) leg joint = Ok direction ->
  getitem2 (Hex.servo_range self) leg joint = Ok sr ->
  Hex.servo_pulse self leg joint 90
  = Ok (fst pc, snd pc,
        Z.quot (Hex.range_min sr + Hex.range_max sr) 2).
Proof.
  intros Hpc Hdir Hsr. unfold Hex.servo_pulse.
  rewrite Hpc, Hdir. cbn [bind].
  replace (if (direction <? 0)%Z then 180 - 90 else 90) with 90
    by (destruct (direction <? 0)%Z; lra).
  rewrite (angle_to_pulse_entry self leg joint sr) by exact Hsr.
  cbn [bind]. rewrite clamp_inside by lra.
  replace (IZR (Hex.range_min sr)
           + 90 / 180 * (IZR (Hex.range_max sr) - IZR (Hex.range_min sr)))
    with (IZR (Hex.range_min sr + Hex.range_max sr) / 2)
    by (rewrite plus_IZR; lra).
  now rewrite py_int_half.
Qed.

Lemma centre_pulse_is_midpoint_witness :
  Hex.servo_pulse (Hex.recentred_hexapod 1400) "L1" "coxa" 90
  = Ok (fst (0%Z, 0%Z), snd (0%Z, 0%Z),
        Z.quot (Hex.range_min
                  {| Hex.range_min := Hex.SERVO_MIN;
                     Hex.range_max := Hex.SERVO_MAX;
                     Hex.range_center := 1400 |}
                + Hex.range_max
                    {| Hex.range_min := Hex.SERVO_MIN;
                       Hex.range_max := Hex.SERVO_MAX;
                       Hex.range_center := 1400 |}) 2).
Proof.
  apply (centre_pulse_is_midpoint (Hex.recentred_hexapod 1400) "L1" "coxa"
           (0%Z, 0%Z) 1%Z); reflexivity.
Defined.

End Knee.
(** ** More of the PWM controller *)

Section PwmLeg.

(** What one [set_servo] of the PWM robot can do: at most one [set_pwm]
    call, and none at all when it raises or when the robot is
    simulated. *)
Lemma pwm_set_servo_cases (leg joint : string) (angle : R)
    (self : Hex.hexapod) :
  match Hex.set_servo leg joint angle self with
  | Done _ s' =>
      exists events,
        s' = pwm_advanced self events (Hex.leg_positions self)
        /\ List.length events = if Hex.simulate self then 0%nat else 1%nat
  | Raised _ s' => s' = self
  end.
Proof.
  unfold Hex.set_servo.
  destruct (Hex.servo_pulse self leg joint angle) as [[[pca_idx channel] pulse]|e];
    [|reflexivity].
  destruct (Hex.simulate self) eqn:Hsim.
  - exists []. split; [|reflexivity]. now rewrite pwm_advanced_nil.
  - destruct ((-2 <=? pca_idx) && (pca_idx <? 2)); [|reflexivity].
    exists [(pca_idx, channel, pulse)]. split; [|reflexivity].
    unfold pwm_advanced, Hex.with_leg_positions, Hex.with_pwm. cbn.
    reflexivity.
Qed.

Lemma simulate_pwm_advanced (self : Hex.hexapod) (es : list (Z * Z * Z))
    (lp : ODict.t position) :
  Hex.simulate (pwm_advanced self es lp) = Hex.simulate self.
Proof. reflexivity. Qed.

(** X25.  [move_leg] of the PWM robot stores the target only after the
    three servos were set, in the order coxa, femur, tibia: on success
    exactly three [set_pwm] calls were made (none when simulated) and the
    target is stored; if a servo lookup or a driver index fails, the
    stored positions are as before, although up to two servos may already
    have been set.  The solver itself cannot fail, its link lengths being
    the module constants. *)
Theorem pwm_move_leg_stores_last
    (leg : string) (x y z : R) (self : Hex.hexapod) :
  match Hex.move_leg leg x y z self with
  | Done _ s' =>
      exists events,
        s' = pwm_advanced self events
               (<[leg := (x, y, z)]> (Hex.leg_positions self))
        /\ List.length events = if Hex.simulate self then 0%nat else 3%nat
  | Raised _ s' =>
      exists events,
        s' = pwm_advanced self events (Hex.leg_positions self)
        /\ (List.length events <= 2)%nat
        /\ (Hex.simulate self = true -> events = [])
  end.
Proof.
  destruct (hex_leg_ik_total x y z Hex.COXA_LENGTH Hex.FEMUR_LENGTH
              Hex.TIBIA_LENGTH) as (coxa & femur & tibia & warned & Hik);
    try (unfold Hex.FEMUR_LENGTH, Hex.TIBIA_LENGTH; lra).
  unfold Hex.move_leg. unfold mbind at 1. unfold lift. rewrite Hik.
  unfold mbind at 1.
  pose proof (pwm_set_servo_cases leg "coxa" coxa self) as H1.
  destruct (Hex.set_servo leg "coxa" coxa self) as [[] s1|e1 s1].
  2:{ exists []. subst s1. rewrite pwm_advanced_nil. cbn. auto with arith. }
  destruct H1 as (ev1 & -> & Hlen1).
  unfold mbind at 1.
  pose proof (pwm_set_servo_cases leg "femur" femur
                (pwm_advanced self ev1 (Hex.leg_positions self))) as H2.
  destruct (Hex.set_servo leg "femur" femur _) as [[] s2|e2 s2].
  2:{ exists ev1. subst s2. split; [reflexivity|].
      destruct (Hex.simulate self).
      - destruct ev1; [|discriminate]. cbn. auto with arith.
      - rewrite Hlen1. split; [lia|discriminate]. }
  destruct H2 as (ev2 & -> & Hlen2).
  rewrite simulate_pwm_advanced in Hlen2.
  rewrite leg_positions_pwm_advanced, pwm_advanced_advanced.
  unfold mbind at 1.
  pose proof (pwm_set_servo_cases leg "tibia" tibia
                (pwm_advanced self (ev1 ++ ev2) (Hex.leg_positions self)))
    as H3.
  destruct (Hex.set_servo leg "tibia" tibia _) as [[] s3|e3 s3].
  2:{ exists (ev1 ++ ev2). subst s3. split; [reflexivity|].
      rewrite length_app, Hlen1, Hlen2.
      destruct (Hex.simulate self).
      - destruct ev1; [|discriminate]. destruct ev2; [|discriminate].
        cbn. auto with arith.
      - split; [lia|discriminate]. }
  destruct H3 as (ev3 & -> & Hlen3).
  rewrite simulate_pwm_advanced in Hlen3.
  rewrite leg_positions_pwm_advanced, pwm_advanced_advanced.
  exists ((ev1 ++ ev2) ++ ev3). split.
  - unfold Hex.store_position, pwm_advanced, Hex.with_leg_positions,
      Hex.with_pwm. cbn. reflexivity.
  - rewrite !length_app, Hlen1, Hlen2, Hlen3.
    now destruct (Hex.simulate self).
Qed.

(** X28.  [GaitController.stand] of the PWM robot moves every leg stored
    in [leg_positions], in the order of its keys: it keeps each foot where
    it is in the plane and puts it at the chosen height below the body;
    the chosen height is the one given, except that a height of zero, like
    no height at all, means the stored stand height.  Every stored leg has
    its servos configured. *)
Theorem pwm_stand_keeps_plane
    (stand_height : R) (height : option R) (self : Hex.hexapod) :
  NoDup (ODict.keys (Hex.leg_positions self)) ->
  (forall l, l ∈ ODict.keys (Hex.leg_positions self) -> pwm_wired self l) ->
  exists s',
    Hex.stand stand_height height self = Done tt s'
    /\ (forall l,
          Hex.leg_positions s' !! l
          = lower_to (falsy_or height stand_height)
              <$> Hex.leg_positions self !! l)
    /\ ODict.keys (Hex.leg_positions s') = ODict.keys (Hex.leg_positions self)
    /\ falsy_or (Some 0%R) stand_height = stand_height.
Proof.
  intros Hnd Hwired.
  destruct (pwm_move_every_ok (lower_to (falsy_or height stand_height))
              self Hwired) as (events & Hrun).
  eexists. split; [exact Hrun|]. split; [|split].
  - intros l. rewrite leg_positions_pwm_advanced.
    now apply moved_keys_lookup.
  - rewrite leg_positions_pwm_advanced. apply keys_moved.
  - unfold falsy_or.
    destruct (Req_dec_T 0 0) as [_|Hne]; [reflexivity|now contradiction Hne].
Qed.

Lemma pwm_stand_keeps_plane_witness :
  exists s',
    Hex.stand 50 (Some 0%R) Hex.default_hexapod = Done tt s'
    /\ (forall l,
          Hex.leg_positions s' !! l
          = lower_to (falsy_or (Some 0%R) 50)
              <$> Hex.leg_positions Hex.default_hexapod !! l)
    /\ ODict.keys (Hex.leg_positions s')
       = ODict.keys (Hex.leg_positions Hex.default_hexapod)
    /\ falsy_or (Some 0%R) 50 = 50%R.
Proof.
  destruct default_pwm_dict as (Hnd & Hwired & _).
  exact (pwm_stand_keeps_plane 50 (Some 0%R) _ Hnd Hwired).
Defined.

End PwmLeg.
(** ** Gaits that move one leg at a time *)

Section OneLeg.

Lemma elem_of_others (leg k : string) (sequence : list string) :
  k ∈ List.filter (fun other => bool_decide (other <> leg)) sequence
  <-> k ∈ sequence /\ k <> leg.
Proof.
  rewrite !list_elem_of_In, filter_In, bool_decide_eq_true. reflexivity.
Qed.

Lemma NoDup_others (leg : string) (sequence : list string) :
  NoDup sequence ->
  NoDup (List.filter (fun other => bool_decide (other <> leg)) sequence).
Proof.
  intros H. apply NoDup_ListNoDup. apply List.NoDup_filter.
  now apply NoDup_ListNoDup.
Qed.

Section Turns.

Context {D : Type} `{Stored D}.

(** The turn of one leg, seen from any leg of the sequence. *)
Lemma turn_lookup (step push : position -> position)
    (sequence : list string) (lp : D)
    (leg : string) (p : position) (k : string) :
  NoDup sequence ->
  (forall l, l ∈ sequence -> is_Some (lp !! l)) ->
  lp !! leg = Some p -> k ∈ sequence ->
  moved (List.filter (fun other => bool_decide (other <> leg)) sequence)
        push (<[leg := step p]> lp) !! k
  = if decide (k = leg) then Some (step p) else push <$> lp !! k.
Proof.
  intros Hnd Hsome Hp Hk.
  rewrite moved_lookup; [|now apply NoDup_others|].
  2:{ intros l Hl. apply elem_of_others in Hl as [Hl Hne].
      rewrite lookup_stored_ne by congruence. now apply Hsome. }
  destruct (decide (k = leg)) as [->|Hne].
  - rewrite decide_False by (rewrite elem_of_others; tauto).
    apply lookup_stored_eq.
  - rewrite decide_True by (rewrite elem_of_others; tauto).
    now rewrite lookup_stored_ne by congruence.
Qed.

Lemma turn_is_Some (step push : position -> position)
    (sequence : list string) (lp : D)
    (leg : string) (p : position) (k : string) :
  is_Some (lp !! k) ->
  is_Some (moved (List.filter (fun other => bool_decide (other <> leg))
                              sequence)
                 push (<[leg := step p]> lp) !! k).
Proof.
  intros Hk. apply moved_is_Some.
  destruct (decide (leg = k)) as [->|Hne].
  - rewrite lookup_stored_eq. eauto.
  - now rewrite lookup_stored_ne.
Qed.

Lemma rippled_is_Some (step push : position -> position)
    (sequence todo : list string) :
  forall (lp : D) (k : string),
    is_Some (lp !! k) ->
    is_Some (rippled step push sequence todo lp !! k).
Proof.
  induction todo as [|leg rest IH]; intros lp k Hk; [exact Hk|].
  cbn [rippled]. destruct (lp !! leg) as [p|]; [|exact Hk].
  apply IH. now apply turn_is_Some.
Qed.

(** Where a leg of the sequence is after the legs [todo] took their
    turn: it was pushed once for every other leg of [todo], and it
    stepped once if it is itself in [todo]. *)
Lemma rippled_lookup (step push : position -> position)
    (h ddx ddy pdx pdy : R) (sequence : list string) :
  (forall x y z, step (x, y, z) = (x + ddx, y + ddy, - h)%R) ->
  (forall x y z, push (x, y, z) = (x - pdx, y - pdy, z)%R) ->
  NoDup sequence ->
  forall (todo : list string) (lp : D)
         (l : string) (x y z : R),
    NoDup todo ->
    (forall k, k ∈ todo -> k ∈ sequence) ->
    (forall k, k ∈ sequence -> is_Some (lp !! k)) ->
    l ∈ sequence -> lp !! l = Some (x, y, z) ->
    exists x' y' z',
      rippled step push sequence todo lp !! l = Some (x', y', z')
      /\ (x' - x
          = (if decide (l ∈ todo) then ddx else 0)
            - INR (List.length todo - (if decide (l ∈ todo) then 1 else 0))
              * pdx)%R
      /\ (y' - y
          = (if decide (l ∈ todo) then ddy else 0)
            - INR (List.length todo - (if decide (l ∈ todo) then 1 else 0))
              * pdy)%R
      /\ z' = if decide (l ∈ todo) then (- h)%R else z.
Proof.
  intros Hstep Hpush Hnd.
  induction todo as [|leg rest IH]; intros lp l x y z Hndt Hsub Hsome Hl Hp.
  - exists x, y, z. split; [exact Hp|].
    destruct (decide (l ∈ [])) as [Hin|_]; [set_solver|].
    change (INR (List.length (@nil string) - 0)) with 0%R.
    repeat split; lra.
  - apply NoDup_cons in Hndt as [Hleg Hndr].
    destruct (Hsome leg ltac:(apply Hsub; set_solver)) as [[[lx ly] lz] Hlp].
    cbn [rippled]. unfold position in *. rewrite Hlp.
    set (lp1 := moved _ push _).
    assert (Hsome1 : forall k, k ∈ sequence -> is_Some (lp1 !! k)).
    { intros k Hk. apply turn_is_Some. now apply Hsome. }
    assert (Hl1 : lp1 !! l
                  = if decide (l = leg) then Some (step (lx, ly, lz))
                    else push <$> lp !! l).
    { apply turn_lookup; assumption. }
    assert (Hsubr : forall k, k ∈ rest -> k ∈ sequence).
    { intros k Hk. apply Hsub. set_solver. }
    destruct (decide (l = leg)) as [->|Hne].
    + rewrite Hlp in Hp. injection Hp as -> -> ->.
      rewrite Hstep in Hl1.
      destruct (IH lp1 leg (x + ddx)%R (y + ddy)%R (- h)%R Hndr Hsubr Hsome1
                   Hl Hl1) as (x' & y' & z' & Hr & Hx & Hy & Hz).
      destruct (decide (leg ∈ rest)) as [Hin|_]; [contradiction|].
      exists x', y', z'. split; [exact Hr|].
      destruct (decide (leg ∈ leg :: rest)) as [_|Hout]; [|set_solver].
      cbn [List.length]. rewrite Nat.sub_0_r in Hx, Hy.
      replace (S (List.length rest) - 1)%nat with (List.length rest) by lia.
      repeat split; [lra|lra|exact Hz].
    + rewrite Hp in Hl1. cbn [fmap option_fmap option_map] in Hl1.
      rewrite Hpush in Hl1.
      destruct (IH lp1 l (x - pdx)%R (y - pdy)%R z Hndr Hsubr Hsome1 Hl Hl1)
        as (x' & y' & z' & Hr & Hx & Hy & Hz).
      exists x', y', z'. split; [exact Hr|].
      destruct (decide (l ∈ rest)) as [Hin|Hout].
      * destruct (decide (l ∈ leg :: rest)) as [_|Hout]; [|set_solver].
        assert (Hpos : (1 <= List.length rest)%nat).
        { destruct rest; [set_solver|cbn; lia]. }
        cbn [List.length].
        replace (S (List.length rest) - 1)%nat
          with (S (List.length rest - 1)) by lia.
        rewrite S_INR. repeat split; [lra|lra|exact Hz].
      * destruct (decide (l ∈ leg :: rest)) as [Hin|_]; [set_solver|].
        cbn [List.length]. rewrite Nat.sub_0_r in *.
        rewrite S_INR. repeat split; [lra|lra|exact Hz].
Qed.

End Turns.

(** *** The ripple gait of the PWM robot *)

Lemma pwm_step_leg_ok (h : R) (leg : string) (dx dy lift t : R)
    (self : Hex.hexapod) (p : position) :
  (0 <= t)%R ->
  pwm_wired self leg ->
  Hex.leg_positions self !! leg = Some p ->
  exists events,
    Hex._step_leg h leg dx dy lift t self
    = Done tt (pwm_advanced self events
                 (<[leg := lower_to h (swing_by dx dy p)]>
                    (Hex.leg_positions self))).
Proof.
  intros Htime Hwired Hp. destruct p as [[x y] z].
  unfold Hex._step_leg. unfold mbind at 1.
  rewrite (pwm_load_position self leg (x, y, z)) by exact Hp.
  cbv iota beta. unfold mbind at 1.
  destruct (pwm_move_leg_ok leg (x + dx) (y + dy) (z + lift) self Hwired)
    as (e1 & ->).
  unfold mbind at 1. rewrite sleep_ok by exact Htime.
  unfold mbind at 1.
  destruct (pwm_move_leg_ok leg (x + dx) (y + dy) (- h)
              (pwm_advanced self e1
                 (<[leg := (x + dx, y + dy, z + lift)%R]>
                    (Hex.leg_positions self))))
    as (e2 & ->).
  { now apply pwm_wired_advanced. }
  rewrite leg_positions_pwm_advanced.
  rewrite sleep_ok by lra.
  rewrite !pwm_advanced_advanced, !stored_twice.
  eexists. reflexivity.
Qed.

(** The inner loop of [RippleGait.walk]: every leg but [leg] is shifted
    back. *)
Lemma pwm_push_others_ok (dx dy : R) (leg : string) (sequence : list string) :
  forall self : Hex.hexapod,
    (forall l, l ∈ sequence -> pwm_wired self l) ->
    (forall l, l ∈ sequence -> is_Some (Hex.leg_positions self !! l)) ->
    exists events,
      for_each sequence (fun other =>
        if decide (other <> leg) then
          q <~ Hex.load_position other ;;
          let '(x, y, z) := q in
          Hex.move_leg other (x - dx / 6) (y - dy / 6) z
        else ret tt) self
      = Done tt
          (pwm_advanced self events
             (moved (List.filter (fun other => bool_decide (other <> leg))
                                 sequence)
                    (push_by (dx / 6) (dy / 6))
                    (Hex.leg_positions self))).
Proof.
  induction sequence as [|o rest IH]; intros self Hwired Hsome.
  - exists []. cbn. unfold ret. now rewrite pwm_advanced_nil.
  - rewrite for_each_cons. cbn [List.filter].
    destruct (decide (o <> leg)) as [Hne|Heq].
    + rewrite bool_decide_eq_true_2 by exact Hne.
      destruct (Hsome o ltac:(set_solver)) as [[[x y] z] Hp].
      unfold mbind at 1.
      rewrite (pwm_load_position self o (x, y, z)) by exact Hp.
      cbv iota beta.
      destruct (pwm_move_leg_ok o (x - dx / 6) (y - dy / 6) z self)
        as (e1 & ->); [apply Hwired; set_solver|].
      destruct (IH (pwm_advanced self e1
                      (<[o := (x - dx / 6, y - dy / 6, z)%R]>
                         (Hex.leg_positions self))))
        as (e2 & Hrest).
      { intros l Hl. apply pwm_wired_advanced. apply Hwired. set_solver. }
      { intros l Hl. rewrite leg_positions_pwm_advanced.
        destruct (decide (o = l)) as [->|Hol].
        - rewrite lookup_stored_eq. eauto.
        - rewrite lookup_stored_ne by assumption. apply Hsome. set_solver. }
      rewrite leg_positions_pwm_advanced in Hrest.
      exists (e1 ++ e2). rewrite Hrest, pwm_advanced_advanced.
      cbn [moved]. unfold position in *. now rewrite Hp.
    + rewrite bool_decide_eq_false_2 by exact Heq.
      unfold ret at 1.
      apply IH; intros l Hl; [apply Hwired|apply Hsome]; set_solver.
Qed.

Lemma pwm_ripple_ok (h dx dy lift t : R) (todo : list string) :
  (0 <= t)%R ->
  forall self : Hex.hexapod,
    (forall l, l ∈ todo -> l ∈ Hex.ripple_sequence) ->
    (forall l, l ∈ Hex.ripple_sequence ->
       pwm_wired self l /\ is_Some (Hex.leg_positions self !! l)) ->
    exists events,
      for_each todo (fun leg =>
        mbind (Hex._step_leg h leg dx dy lift t) (fun _ =>
          for_each Hex.ripple_sequence (fun other =>
            if decide (other <> leg) then
              q <~ Hex.load_position other ;;
              let '(x, y, z) := q in
              Hex.move_leg other (x - dx / 6) (y - dy / 6) z
            else ret tt))) self
      = Done tt
          (pwm_advanced self events
             (rippled (fun p => lower_to h (swing_by dx dy p))
                      (push_by (dx / 6) (dy / 6))
                      Hex.ripple_sequence todo (Hex.leg_positions self))).
Proof.
  intros Htime.
  induction todo as [|leg rest IH]; intros self Hsub Hready.
  - exists []. cbn. unfold ret. now rewrite pwm_advanced_nil.
  - assert (Hleg : leg ∈ Hex.ripple_sequence) by (apply Hsub; set_solver).
    destruct (proj2 (Hready leg Hleg)) as [p Hp].
    destruct (pwm_step_leg_ok h leg dx dy lift t self p Htime)
      as (e1 & Hstep); [now apply Hready|exact Hp|].
    destruct (pwm_push_others_ok dx dy leg Hex.ripple_sequence
                (pwm_advanced self e1
                   (<[leg := lower_to h (swing_by dx dy p)]>
                      (Hex.leg_positions self))))
      as (e2 & Hpush).
    { intros l Hl. apply pwm_wired_advanced. now apply Hready. }
    { intros l Hl. rewrite leg_positions_pwm_advanced.
      destruct (decide (leg = l)) as [->|Hne].
      - rewrite lookup_stored_eq. eauto.
      - rewrite lookup_stored_ne by assumption. now apply Hready. }
    rewrite leg_positions_pwm_advanced, pwm_advanced_advanced in Hpush.
    destruct (IH (pwm_advanced self (e1 ++ e2)
                    (moved (List.filter
                              (fun other => bool_decide (other <> leg))
                              Hex.ripple_sequence)
                           (push_by (dx / 6) (dy / 6))
                           (<[leg := lower_to h (swing_by dx dy p)]>
                              (Hex.leg_positions self)))))
      as (e3 & Hrest).
    { intros l Hl. apply Hsub. set_solver. }
    { intros l Hl. split.
      - apply pwm_wired_advanced. now apply Hready.
      - rewrite leg_positions_pwm_advanced. apply turn_is_Some.
        now apply Hready. }
    rewrite leg_positions_pwm_advanced, pwm_advanced_advanced in Hrest.
    exists ((e1 ++ e2) ++ e3).
    rewrite for_each_cons. unfold mbind at 1. rewrite Hstep, Hpush, Hrest.
    cbn [rippled]. now rewrite Hp.
Qed.

(** X26.  One cycle of [RippleGait.walk] runs to completion and lets the
    stored foot positions creep ahead: every leg steps forward by the step
    vector once and is shifted back by a sixth of it for each of the five
    other legs, so after the cycle each of the six stored positions is
    one sixth of the step vector further along the walking direction, at
    the stand height.  The phase time is not negative, as the pauses
    between the moves require. *)
Theorem pwm_ripple_cycle_creeps
    (stand_height dx dy step_height phase_time : R) (self : Hex.hexapod) :
  (0 <= phase_time)%R ->
  (forall l, l ∈ Hex.legs ->
     pwm_wired self l /\ is_Some (Hex.leg_positions self !! l)) ->
  exists s',
    Hex.ripple_cycle stand_height dx dy step_height phase_time self
    = Done tt s'
    /\ forall l x y z,
         l ∈ Hex.legs ->
         Hex.leg_positions self !! l = Some (x, y, z) ->
         exists x' y',
           Hex.leg_positions s' !! l = Some (x', y', - stand_height)%R
           /\ (x' - x = dx / 6)%R /\ (y' - y = dy / 6)%R.
Proof.
  intros Htime Hready.
  assert (Hseq : forall l, l ∈ Hex.ripple_sequence <-> l ∈ Hex.legs).
  { intros l. unfold Hex.ripple_sequence, Hex.legs. set_solver. }
  assert (Hnd : NoDup Hex.ripple_sequence).
  { unfold Hex.ripple_sequence.
    repeat (apply NoDup_cons; split; [set_solver|]). apply NoDup_nil_2. }
  destruct (pwm_ripple_ok stand_height dx dy step_height phase_time
              Hex.ripple_sequence Htime self) as (events & Hrun).
  { auto. }
  { intros l Hl. now apply Hready, Hseq. }
  eexists. split; [exact Hrun|].
  intros l x y z Hl Hp. rewrite leg_positions_pwm_advanced.
  destruct (rippled_lookup
              (fun p => lower_to stand_height (swing_by dx dy p))
              (push_by (dx / 6) (dy / 6))
              stand_height dx dy (dx / 6)%R (dy / 6)%R Hex.ripple_sequence)
    with (todo := Hex.ripple_sequence) (lp := Hex.leg_positions self)
         (l := l) (x := x) (y := y) (z := z)
    as (x' & y' & z' & Hr & Hx & Hy & Hz); try assumption.
  { reflexivity. }
  { reflexivity. }
  { auto. }
  { intros k Hk. now apply Hready, Hseq. }
  { now apply Hseq. }
  destruct (decide (l ∈ Hex.ripple_sequence)) as [_|Hout];
    [|now apply Hseq in Hl].
  change (List.length Hex.ripple_sequence - 1)%nat with 5%nat in Hx, Hy.
  cbn [INR] in Hx, Hy.
  exists x', y'. subst z'. split; [exact Hr|]. split; lra.
Qed.

Lemma pwm_ripple_cycle_creeps_witness :
  exists s',
    Hex.ripple_cycle 50 25 0 25 (1 / 10) Hex.default_hexapod = Done tt s'
    /\ forall l x y z,
         l ∈ Hex.legs ->
         Hex.leg_positions Hex.default_hexapod !! l = Some (x, y, z) ->
         exists x' y',
           Hex.leg_positions s' !! l = Some (x', y', - 50)%R
           /\ (x' - x = 25 / 6)%R /\ (y' - y = 0 / 6)%R.
Proof.
  exact (pwm_ripple_cycle_creeps 50 25 0 25 (1 / 10) _ ltac:(lra)
           default_pwm_ready).
Defined.

(** *** The wave gait of the serial-bus robot *)

Lemma serial_wave_step_ok (h : R) (leg : string) (dx dy sh : R)
    (move_time : Z) (self : BigHex.hexapod) (p : position) :
  geometry_ok self -> leg_wired self leg ->
  BigHex.leg_positions self !! leg = Some p ->
  exists frames,
    mbind (BigHex.load_position leg) (fun p =>
      let '(x, y, z) := p in
      mbind (BigHex.move_leg leg x y (z + sh) move_time) (fun _ =>
      mbind (BigHex.move_leg leg (x + dx) (y + dy) (z + sh) move_time)
            (fun _ =>
      BigHex.move_leg leg (x + dx) (y + dy) (- h) move_time))) self
    = Done tt (advanced self frames
                 (<[leg := lower_to h (swing_by dx dy p)]>
                    (BigHex.leg_positions self))).
Proof.
  intros Hgeo Hwired Hp. destruct p as [[x y] z].
  unfold mbind at 1.
  rewrite (load_position_some self leg (x, y, z)) by exact Hp.
  cbv iota beta. unfold mbind at 1.
  destruct (move_leg_ok leg x y (z + sh) move_time self Hgeo Hwired)
    as (a1 & a2 & a3 & -> & _).
  unfold mbind at 1.
  destruct (move_leg_ok leg (x + dx) (y + dy) (z + sh) move_time
              (advanced self [a1; a2; a3]
                 (<[leg := (x, y, z + sh)%R]> (BigHex.leg_positions self))))
    as (b1 & b2 & b3 & -> & _).
  { now apply geometry_ok_advanced. }
  { now apply leg_wired_advanced. }
  rewrite leg_positions_advanced.
  destruct (move_leg_ok leg (x + dx) (y + dy) (- h) move_time
              (advanced
                 (advanced self [a1; a2; a3]
                    (<[leg := (x, y, z + sh)%R]> (BigHex.leg_positions self)))
                 [b1; b2; b3]
                 (<[leg := (x + dx, y + dy, z + sh)%R]>
                    (<[leg := (x, y, z + sh)%R]>
                       (BigHex.leg_positions self)))))
    as (c1 & c2 & c3 & -> & _).
  { now do 2 apply geometry_ok_advanced. }
  { now do 2 apply leg_wired_advanced. }
  rewrite leg_positions_advanced.
  rewrite !advanced_advanced, !insert_insert_eq.
  eexists. reflexivity.
Qed.

Lemma serial_push_others_ok (dx dy : R) (move_time : Z) (leg : string)
    (sequence : list string) :
  forall self : BigHex.hexapod,
    geometry_ok self ->
    (forall l, l ∈ sequence -> leg_wired self l) ->
    (forall l, l ∈ sequence -> is_Some (BigHex.leg_positions self !! l)) ->
    exists frames,
      for_each sequence (fun other_leg =>
        if decide (other_leg <> leg) then
          q <~ BigHex.load_position other_leg ;;
          let '(ox, oy, oz) := q in
          BigHex.move_leg other_leg (ox + - dx / 5) (oy + - dy / 5) oz
                          move_time
        else ret tt) self
      = Done tt
          (advanced self frames
             (moved (List.filter (fun other => bool_decide (other <> leg))
                                 sequence)
                    (swing_by (- dx / 5) (- dy / 5))
                    (BigHex.leg_positions self))).
Proof.
  induction sequence as [|o rest IH]; intros self Hgeo Hwired Hsome.
  - exists []. cbn. unfold ret. now rewrite advanced_nil.
  - rewrite for_each_cons. cbn [List.filter].
    destruct (decide (o <> leg)) as [Hne|Heq].
    + rewrite bool_decide_eq_true_2 by exact Hne.
      destruct (Hsome o ltac:(set_solver)) as [[[x y] z] Hp].
      unfold mbind at 1.
      rewrite (load_position_some self o (x, y, z)) by exact Hp.
      cbv iota beta.
      destruct (move_leg_ok o (x + - dx / 5) (y + - dy / 5) z move_time self
                  Hgeo) as (f1 & f2 & f3 & -> & _);
        [apply Hwired; set_solver|].
      destruct (IH (advanced self [f1; f2; f3]
                      (<[o := (x + - dx / 5, y + - dy / 5, z)%R]>
                         (BigHex.leg_positions self))))
        as (fr & Hrest).
      { now apply geometry_ok_advanced. }
      { intros l Hl. apply leg_wired_advanced. apply Hwired. set_solver. }
      { intros l Hl. rewrite leg_positions_advanced.
        destruct (decide (o = l)) as [->|Hol].
        - rewrite lookup_insert_eq. eauto.
        - rewrite lookup_insert_ne by assumption. apply Hsome. set_solver. }
      rewrite leg_positions_advanced in Hrest.
      exists ([f1; f2; f3] ++ fr). rewrite Hrest, advanced_advanced.
      cbn [moved]. unfold position in *. now rewrite Hp.
    + rewrite bool_decide_eq_false_2 by exact Heq.
      unfold ret at 1.
      apply IH; [exact Hgeo| |]; intros l Hl;
        [apply Hwired|apply Hsome]; set_solver.
Qed.

Lemma serial_wave_ok (h dx dy sh : R) (move_time : Z) (todo : list string) :
  forall self : BigHex.hexapod,
    geometry_ok self ->
    (forall l, l ∈ todo -> l ∈ BigHex.legs) ->
    (forall l, l ∈ BigHex.legs ->
       leg_wired self l /\ is_Some (BigHex.leg_positions self !! l)) ->
    exists frames,
      for_each todo (fun leg => BigHex.wave_leg h leg dx dy sh move_time) self
      = Done tt
          (advanced self frames
             (rippled (fun p => lower_to h (swing_by dx dy p))
                      (swing_by (- dx / 5) (- dy / 5))
                      BigHex.legs todo (BigHex.leg_positions self))).
Proof.
  induction todo as [|leg rest IH]; intros self Hgeo Hsub Hready.
  - exists []. cbn. unfold ret. now rewrite advanced_nil.
  - assert (Hleg : leg ∈ BigHex.legs) by (apply Hsub; set_solver).
    destruct (proj2 (Hready leg Hleg)) as [p Hp].
    destruct (serial_wave_step_ok h leg dx dy sh move_time self p Hgeo)
      as (fr1 & Hstep); [now apply Hready|exact Hp|].
    destruct (serial_push_others_ok dx dy move_time leg BigHex.legs
                (advanced self fr1
                   (<[leg := lower_to h (swing_by dx dy p)]>
                      (BigHex.leg_positions self))))
      as (fr2 & Hpush).
    { now apply geometry_ok_advanced. }
    { intros l Hl. apply leg_wired_advanced. now apply Hready. }
    { intros l Hl. rewrite leg_positions_advanced.
      destruct (decide (leg = l)) as [->|Hne].
      - rewrite lookup_insert_eq. eauto.
      - rewrite lookup_insert_ne by assumption. now apply Hready. }
    rewrite leg_positions_advanced, advanced_advanced in Hpush.
    destruct (IH (advanced self (fr1 ++ fr2)
                    (moved (List.filter
                              (fun other => bool_decide (other <> leg))
                              BigHex.legs)
                           (swing_by (- dx / 5) (- dy / 5))
                           (<[leg := lower_to h (swing_by dx dy p)]>
                              (BigHex.leg_positions self)))))
      as (fr3 & Hrest).
    { now apply geometry_ok_advanced. }
    { intros l Hl. apply Hsub. set_solver. }
    { intros l Hl. split.
      - apply leg_wired_advanced. now apply Hready.
      - rewrite leg_positions_advanced. apply turn_is_Some.
        now apply Hready. }
    rewrite leg_positions_advanced, advanced_advanced in Hrest.
    exists ((fr1 ++ fr2) ++ fr3).
    rewrite for_each_cons.
    assert (Hturn : BigHex.wave_leg h leg dx dy sh move_time self
                    = Done tt
                        (advanced self (fr1 ++ fr2)
                           (moved (List.filter
                                     (fun other => bool_decide (other <> leg))
                                     BigHex.legs)
                                  (swing_by (- dx / 5) (- dy / 5))
                                  (<[leg := lower_to h (swing_by dx dy p)]>
                                     (BigHex.leg_positions self))))).
    { rewrite <- Hpush. clear Hpush Hrest IH.
      destruct p as [[x y] z].
      unfold BigHex.wave_leg. unfold mbind at 1.
      rewrite (load_position_some self leg (x, y, z)) by exact Hp.
      cbv iota beta zeta.
      unfold mbind at 1 in Hstep.
      rewrite (load_position_some self leg (x, y, z)) in Hstep by exact Hp.
      cbv iota beta in Hstep.
      unfold mbind at 1. unfold mbind at 1 in Hstep.
      destruct (BigHex.move_leg leg x y (z + sh) move_time self)
        as [[] s1|e s1]; [|discriminate].
      unfold mbind at 1. unfold mbind at 1 in Hstep.
      destruct (BigHex.move_leg leg (x + dx) (y + dy) (z + sh) move_time s1)
        as [[] s2|e s2]; [|discriminate].
      unfold mbind at 1. now rewrite Hstep. }
    rewrite Hturn, Hrest. cbn [rippled]. now rewrite Hp.
Qed.

(** X27.  One cycle of [wave_walk] of the serial-bus robot runs to
    completion and is closed in the plane: every leg steps forward by the
    step vector once and is pushed back by a fifth of it for each of the
    five other legs, so every stored foot position ends where it started,
    at the stand height. *)
Theorem serial_wave_cycle_returns
    (stand_height dx dy sh : R) (move_time : Z) (self : BigHex.hexapod) :
  geometry_ok self ->
  (forall l, l ∈ BigHex.legs ->
     leg_wired self l /\ is_Some (BigHex.leg_positions self !! l)) ->
  exists s',
    BigHex.wave_cycle stand_height dx dy sh move_time self = Done tt s'
    /\ forall l, l ∈ BigHex.legs ->
         BigHex.leg_positions s' !! l
         = lower_to stand_height <$> BigHex.leg_positions self !! l.
Proof.
  intros Hgeo Hready.
  assert (Hnd : NoDup BigHex.legs).
  { unfold BigHex.legs.
    repeat (apply NoDup_cons; split; [set_solver|]). apply NoDup_nil_2. }
  destruct (serial_wave_ok stand_height dx dy sh move_time
              BigHex.wave_sequence self Hgeo) as (frames & Hrun).
  { auto. }
  { exact Hready. }
  eexists. split; [exact Hrun|].
  intros l Hl. rewrite leg_positions_advanced.
  destruct (proj2 (Hready l Hl)) as [[[x y] z] Hp].
  destruct (rippled_lookup (D := gmap string position)
              (fun p => lower_to stand_height (swing_by dx dy p))
              (swing_by (- dx / 5) (- dy / 5))
              stand_height dx dy (dx / 5)%R (dy / 5)%R BigHex.legs)
    with (todo := BigHex.wave_sequence) (lp := BigHex.leg_positions self)
         (l := l) (x := x) (y := y) (z := z)
    as (x' & y' & z' & Hr & Hx & Hy & Hz); try assumption.
  { reflexivity. }
  { intros a b c. cbn [swing_by]. f_equal. f_equal; lra. }
  { auto. }
  { intros k Hk. now apply Hready. }
  destruct (decide (l ∈ BigHex.wave_sequence)) as [_|Hout];
    [|contradiction].
  change (List.length BigHex.wave_sequence - 1)%nat with 5%nat in Hx, Hy.
  cbn [INR] in Hx, Hy.
  unfold position in *. rewrite Hr, Hp. subst z'.
  apply position_eq; [lra|lra|reflexivity].
Qed.

Lemma serial_wave_cycle_returns_witness :
  exists s',
    BigHex.wave_cycle 80 60 0 40 150 BigHex.default_hexapod = Done tt s'
    /\ forall l, l ∈ BigHex.legs ->
         BigHex.leg_positions s' !! l
         = lower_to 80
             <$> BigHex.leg_positions BigHex.default_hexapod !! l.
Proof.
  apply serial_wave_cycle_returns.
  - exact default_geometry_ok.
  - exact default_serial_ready.
Defined.

End OneLeg.
